(** * Verification of the qudi Manager core (core/Manager.py)

  A shallow embedding of the dependency resolver [Manager.toposort] and of
  the module registry operations [configure], [configureModule],
  [connectModule] and [activateModule], together with the properties the
  specification states about them. *)

From Stdlib Require Import ZArith String Ascii Relations.
From stdpp Require Import gmap strings list fin_maps.

Local Open Scope string_scope.
Local Open Scope Z_scope.
Local Open Scope list_scope.

(** ** Python exceptions and results *)

Module Py.

Inductive exn : Type :=
| Exception (msg : string)
| KeyError (key : string)
| IndexError
| TypeError
| AttributeError (attr : string).

Inductive result (A : Type) : Type :=
| Ok (a : A)
| Raise (e : exn).

Arguments Ok {A} a.
Arguments Raise {A} e.

Definition rbind {A B} (r : result A) (f : A → result B) : result B :=
  match r with
  | Ok a => f a
  | Raise e => Raise e
  end.

(** [for x in l: acc = f(acc, x)], stopping at the first exception. *)
Fixpoint rfold {A B} (f : A → B → result A) (acc : A) (l : list B) : result A :=
  match l with
  | [] => Ok acc
  | x :: l' => rbind (f acc x) (λ acc', rfold f acc' l')
  end.

End Py.

Import Py.

(** ** The dependency resolver: [Manager.toposort] *)

Module Toposort.

Abbreviation node := string (only parsing).

(** A Python [dict] keeps its keys in insertion order, and the order in
    which the resolver meets the ready nodes depends on it: dictionaries
    whose iteration order matters are association lists with unique keys. *)
Abbreviation odict V := (list (node * V)).

Fixpoint od_get {V} (k : node) (d : odict V) : option V :=
  match d with
  | [] => None
  | (k', v) :: d' => if decide (k = k') then Some v else od_get k d'
  end.

(** [d[k] = v]: an existing key keeps its position, a new one goes last. *)
Fixpoint od_set {V} (k : node) (v : V) (d : odict V) : odict V :=
  match d with
  | [] => [(k, v)]
  | (k', v') :: d' =>
      if decide (k = k') then (k, v) :: d' else (k', v') :: od_set k v d'
  end.

(** [del d[k]] *)
Definition od_del {V} (k : node) (d : odict V) : odict V :=
  filter (λ kv, kv.1 ≠ k) d.

Definition od_keys {V} (d : odict V) : list node := d.*1.

(** The input is a dictionary: its items have pairwise different keys. *)
Definition is_dict {V} (d : odict V) : Prop := NoDup (od_keys d).

Abbreviation graph := (odict (list node)).

(** *** Lines 771-778: copy [deps], give every node a key *)

(** [if k2 not in deps: deps[k2] = []] *)
Definition add_missing (deps : graph) (k2 : node) : graph :=
  match od_get k2 deps with
  | Some _ => deps
  | None => od_set k2 [] deps
  end.

(** Body of [for k,v in list(deps0.items())]. *)
Definition normalize_item (deps : graph) (kv : node * list node) : graph :=
  foldl add_missing (od_set kv.1 kv.2 deps) kv.2.

Definition normalize (deps0 : graph) : graph :=
  foldl normalize_item [] deps0.

(** *** Lines 792-818: the main loop *)

Definition cycle_error : exn :=
  Exception "Cannot resolve requested device configure/start order.".

(** [ready = [k for k in deps if len(deps[k]) == 0]] *)
Definition ready_nodes (deps : graph) : list node :=
  (filter (λ kv, length kv.2 = 0%nat) deps).*1.

(** [v.remove(x)]: drops the first occurrence of [x]; [None] is Python's
    [ValueError] when there is none. *)
Fixpoint list_remove (x : node) (v : list node) : option (list node) :=
  match v with
  | [] => None
  | y :: v' =>
      if decide (x = y) then Some v' else (y ::.) <$> list_remove x v'
  end.

(** [for v in list(deps.values()): try: v.remove(x) except ValueError: pass] *)
Definition remove_from_values (x : node) (deps : graph) : graph :=
  (λ kv, (kv.1, default kv.2 (list_remove x kv.2))) <$> deps.

(** [ready.sort(key=key, reverse=True)]: Python's sort is stable, also with
    [reverse=True]; equal keys keep their order. *)
Fixpoint insert_desc (key : node → Z) (x : node) (l : list node) : list node :=
  match l with
  | [] => [x]
  | y :: l' =>
      if bool_decide (key x < key y) then y :: insert_desc key x l'
      else x :: l
  end.

Fixpoint sort_desc (key : node → Z) (l : list node) : list node :=
  match l with
  | [] => []
  | x :: l' => insert_desc key x (sort_desc key l')
  end.

(** [if key is not None: ready.sort(key=key, reverse=True)] *)
Definition picked (key : option (node → Z)) (ready : list node) : list node :=
  match key with
  | Some k => sort_desc k ready
  | None => ready
  end.

(** The [while len(deps) > 0] loop. Every round deletes one key, so the
    number of keys bounds the number of rounds; [None] stands for a loop
    that has not finished within [fuel] rounds. *)
Fixpoint weighted_order (fuel : nat) (key : option (node → Z))
    (deps : graph) (order : list node) : option (result (list node)) :=
  match deps with
  | [] => Some (Ok order)
  | _ :: _ =>
      match fuel with
      | O => None
      | S fuel' =>
          let ready := ready_nodes deps in
          if decide (length ready = 0%nat) then Some (Raise cycle_error)
          else
            match picked key ready with
            | [] => Some (Raise IndexError)
            | r :: _ =>
                weighted_order fuel' key
                  (remove_from_values r (od_del r deps)) (order ++ [r])
            end
      end
  end.

(** *** Lines 780-790: total branch cost *)

(** [set(n)] on a string is the set of its characters. *)
Definition set_of_str (n : node) : gset node :=
  list_to_set ((λ c, String c EmptyString) <$> list_ascii_of_string n).

(** [allDeps = {n: set(n) for n in order}] *)
Definition allDeps_init (order : list node) : gmap node (gset node) :=
  foldl (λ m n, <[n := set_of_str n]> m) ∅ order.

(** [allDeps[n2] |= allDeps.get(n, set())] *)
Definition allDeps_step (n : node) (allDeps : gmap node (gset node))
    (n2 : node) : result (gmap node (gset node)) :=
  match allDeps !! n2 with
  | None => Raise (KeyError n2)
  | Some s => Ok (<[n2 := s ∪ default ∅ (allDeps !! n)]> allDeps)
  end.

(** [for n in order[::-1]: for n2 in deps.get(n, []): ...] *)
Definition allDeps_of (deps : graph) (order : list node)
    : result (gmap node (gset node)) :=
  rfold (λ allDeps n, rfold (allDeps_step n) allDeps (default [] (od_get n deps)))
        (allDeps_init order) (reverse order).

(** [sum([cost.get(x, 0) for x in s])] *)
Definition sum_cost (cost : gmap node Z) (s : gset node) : Z :=
  foldr Z.add 0 ((λ x, default 0 (cost !! x)) <$> elements s).

(** [totalCost = {n: sum(...) for n in allDeps}] *)
Definition totalCost_of (cost : gmap node Z) (allDeps : gmap node (gset node))
    : gmap node Z :=
  sum_cost cost <$> allDeps.

(** [key = lambda x: totalCost.get(x, 0)] *)
Definition cost_key (totalCost : gmap node Z) : node → Z :=
  λ x, default 0 (totalCost !! x).

(** The branch costs [toposort(deps0, cost)] computes before its loop:
    the recursive call [Manager.toposort(deps)] gets the normalised
    dictionary and normalises it once more. *)
Definition totalCost (deps0 : graph) (cost : gmap node Z)
    : option (result (gmap node Z)) :=
  let deps := normalize deps0 in
  let deps' := normalize deps in
  match weighted_order (length deps') None deps' [] with
  | None => None
  | Some (Raise e) => Some (Raise e)
  | Some (Ok order) =>
      Some (rbind (allDeps_of deps order) (λ allDeps, Ok (totalCost_of cost allDeps)))
  end.

Definition toposort (deps0 : graph) (cost : option (gmap node Z))
    : option (result (list node)) :=
  let deps := normalize deps0 in
  match cost with
  | None => weighted_order (length deps) None deps []
  | Some cost =>
      match totalCost deps0 cost with
      | None => None
      | Some (Raise e) => Some (Raise e)
      | Some (Ok tc) => weighted_order (length deps) (Some (cost_key tc)) deps []
      end
  end.

(** *** What the specification says about the order

    [depends deps a b]: the list of [a] names [b] ("a depends on b"). *)
Definition depends (deps : graph) (a b : node) : Prop :=
  ∃ v, (a, v) ∈ deps ∧ b ∈ v.

(** All the nodes named in the lists of [deps]. *)
Definition listed (deps : graph) : list node := mjoin deps.*2.

(** A node is a key of [deps] or occurs in one of its lists. *)
Definition is_node (deps : graph) (n : node) : Prop :=
  n ∈ od_keys deps ∨ ∃ k v, (k, v) ∈ deps ∧ n ∈ v.

Definition cyclic (deps : graph) : Prop := ∃ n, tc (depends deps) n n.

Definition acyclic (deps : graph) : Prop := ∀ n, ¬ tc (depends deps) n n.

(** No node is listed twice among the dependencies of one node. *)
Definition simple_lists (deps : graph) : Prop :=
  ∀ k v, (k, v) ∈ deps → NoDup v.

(** [b] occurs before [a] in [order]. *)
Definition before (order : list node) (b a : node) : Prop :=
  ∃ l1 l2 l3, order = l1 ++ b :: l2 ++ a :: l3.

(** Every node named in a list has a key of its own. *)
Definition closed (deps : graph) : Prop :=
  ∀ k v x, (k, v) ∈ deps → x ∈ v → x ∈ od_keys deps.

(** Branch cost in the words of the specification: the sum of [cost] over
    the downstream set of [n], the nodes that transitively depend on [n],
    [n] itself included. *)
Definition downstream (deps : graph) (n x : node) : Prop :=
  rtc (depends deps) x n.

Definition is_branch_cost (deps : graph) (cost : gmap node Z)
    (n : node) (z : Z) : Prop :=
  ∃ s : gset node, (∀ x, x ∈ s ↔ downstream deps n x) ∧ z = sum_cost cost s.

(** The characters of the names of the nodes downstream of [n]: what the
    branch-cost pass collects for [n]. *)
Definition downstream_chars (deps : graph) (n e : node) : Prop :=
  ∃ y, downstream deps n y ∧ e ∈ set_of_str y.

(** Every node has a name of one character. *)
Definition short_names (deps : graph) : Prop :=
  ∀ n, is_node deps n → String.length n = 1%nat.

(** The example of the docstring. *)
Definition example_deps : graph :=
  [("a", ["b"; "c"]); ("c", ["b"; "d"]); ("e", ["b"])].

Definition example_cost : gmap node Z :=
  list_to_map [("a", 0); ("b", 0); ("c", 1); ("e", 1); ("d", 3)].

(** A dependency named twice in one list; the graph [a → b] has no cycle. *)
Definition repeated_deps : graph := [("a", ["b"; "b"])].

(** Two independent nodes, one with a name of two characters. *)
Definition long_name_deps : graph := [("z", []); ("xy", [])].

Definition long_name_cost : gmap node Z := list_to_map [("xy", 5); ("z", 1)].

(** The smallest cycle between two nodes. *)
Definition two_cycle_deps : graph := [("a", ["b"]); ("b", ["a"])].

End Toposort.

(** ** The module registry: [Manager] *)

Module Manager.

Import Toposort.

(** *** Python values

    The values the registry inspects: configuration documents and connector
    tables are nested mappings with string keys whose leaves are [None],
    numbers, strings or references to module instances. [PyDict true] is a
    [collections.OrderedDict], [PyDict false] a plain [dict].
    Sequence-valued options are outside this model. *)
Inductive pyval : Type :=
| PyNone
| PyInt (z : Z)
| PyStr (s : string)
| PyObj (oid : nat)
| PyDict (ordered : bool) (items : list (string * pyval)).

(** [isinstance(x, OrderedDict)], [isinstance(x, dict)], [isinstance(x, str)],
    [x is None] *)
Definition is_OrderedDict (x : pyval) : bool :=
  match x with PyDict true _ => true | _ => false end.

Definition is_dict_instance (x : pyval) : bool :=
  match x with PyDict _ _ => true | _ => false end.

Definition is_str (x : pyval) : bool :=
  match x with PyStr _ => true | _ => false end.

Definition is_None (x : pyval) : bool :=
  match x with PyNone => true | _ => false end.

(** [sub in s] on strings: substring test. *)
Fixpoint str_contains (sub s : string) : bool :=
  String.prefix sub s ||
  match s with
  | EmptyString => false
  | String _ s' => str_contains sub s'
  end.

(** [s.split(sep)] for a separator of one character. *)
Fixpoint str_split (sep : ascii) (s : string) : list string :=
  match s with
  | EmptyString => [EmptyString]
  | String c s' =>
      if decide (c = sep) then EmptyString :: str_split sep s'
      else
        match str_split sep s' with
        | [] => [String c EmptyString]
        | w :: ws => String c w :: ws
        end
  end.

(** [l[i]] *)
Definition list_index (l : list string) (i : nat) : result string :=
  match l !! i with
  | Some x => Ok x
  | None => Raise IndexError
  end.

(** [k in x] *)
Definition py_contains (k : string) (x : pyval) : result bool :=
  match x with
  | PyDict _ items => Ok (bool_decide (is_Some (od_get k items)))
  | PyStr s => Ok (str_contains k s)
  | _ => Raise TypeError
  end.

(** [x[k]] with a string [k] *)
Definition py_getitem (x : pyval) (k : string) : result pyval :=
  match x with
  | PyDict _ items =>
      match od_get k items with
      | Some v => Ok v
      | None => Raise (KeyError k)
      end
  | _ => Raise TypeError
  end.

(** [x[k] = v] with a string [k] *)
Definition py_setitem (x : pyval) (k : string) (v : pyval) : result pyval :=
  match x with
  | PyDict o items => Ok (PyDict o (od_set k v items))
  | _ => Raise TypeError
  end.

(** [for k in x]: the keys of a mapping, the characters of a string. *)
Definition py_iter (x : pyval) : result (list string) :=
  match x with
  | PyDict _ items => Ok (od_keys items)
  | PyStr s => Ok ((λ c, String c EmptyString) <$> list_ascii_of_string s)
  | _ => Raise TypeError
  end.

(** *** Module instances

    The classes of loadable modules live outside the core. Of an instance
    the registry uses its identity, its [connector] table, [getState()] and
    [activate()]; [mod_activate] says what the activation hook of this
    instance does when it runs: the state it leaves the module in, or the
    exception it raises. *)
Record module_inst : Type := MkModule {
  mod_id : nat;
  mod_state : string;
  mod_connector : pyval;
  mod_activate : result string
}.

Definition with_connector (m : module_inst) (c : pyval) : module_inst :=
  MkModule (mod_id m) (mod_state m) c (mod_activate m).

Definition with_state (m : module_inst) (s : string) : module_inst :=
  MkModule (mod_id m) s (mod_connector m) (mod_activate m).

Definition with_id (m : module_inst) (i : nat) : module_inst :=
  MkModule i (mod_state m) (mod_connector m) (mod_activate m).

(** What [getattr(moduleObject, className)] can find in a loaded Python
    module: a class, with its constructor, or something that is no class. *)
Record pyclass : Type := MkClass {
  inherits_Base : bool;
  construct : string → pyval → result module_inst
}.

Inductive pyattr : Type :=
| AClass (c : pyclass)
| AOther.

(** *** The state of the manager *)

Inductive signal : Type :=
| sigConfigChanged
| sigModulesChanged
| sigBaseDirChanged.

(** A log record: the logger call, the message type and the message. *)
Inductive log_entry : Type :=
| LogMsg (msgType : string) (msg : string)
| LogExc (msgType : string) (msg : string)
| PrintLogMsg (msg : string)
| PrintExc (msg : string).

Record manager : Type := MkManager {
  tree_config : gmap string pyval;
  tree_start : gmap string (gmap string pyval);
  tree_defined : gmap string (gmap string pyval);
  tree_loaded : gmap string (gmap string module_inst);
  baseDir : pyval;
  disableDevs : list string;
  disableAllDevs : bool;
  pg_options : gmap string pyval;
  directories : gset string;
  next_id : nat;
  hook_calls : list nat;
  emitted : list signal;
  log : list log_entry
}.

(** Lines 74-95 of [__init__]: the tree has 'defined' and 'loaded' tables for
    hardware, gui and logic, and 'start' tables for gui and logic only. *)
Definition init_manager : manager :=
  {| tree_config := ∅;
     tree_start := {[ "gui" := ∅; "logic" := ∅ ]};
     tree_defined := {[ "hardware" := ∅; "gui" := ∅; "logic" := ∅ ]};
     tree_loaded := {[ "hardware" := ∅; "gui" := ∅; "logic" := ∅ ]};
     baseDir := PyNone;
     disableDevs := [];
     disableAllDevs := false;
     pg_options := ∅;
     directories := ∅;
     next_id := 0%nat;
     hook_calls := [];
     emitted := [];
     log := [] |}.

Definition set_config (f : gmap string pyval → gmap string pyval)
    (st : manager) : manager :=
  MkManager (f (tree_config st)) (tree_start st) (tree_defined st)
    (tree_loaded st) (baseDir st) (disableDevs st) (disableAllDevs st)
    (pg_options st) (directories st) (next_id st) (hook_calls st)
    (emitted st) (log st).

Definition set_start (f : gmap string (gmap string pyval) →
                          gmap string (gmap string pyval))
    (st : manager) : manager :=
  MkManager (tree_config st) (f (tree_start st)) (tree_defined st)
    (tree_loaded st) (baseDir st) (disableDevs st) (disableAllDevs st)
    (pg_options st) (directories st) (next_id st) (hook_calls st)
    (emitted st) (log st).

Definition set_defined (f : gmap string (gmap string pyval) →
                            gmap string (gmap string pyval))
    (st : manager) : manager :=
  MkManager (tree_config st) (tree_start st) (f (tree_defined st))
    (tree_loaded st) (baseDir st) (disableDevs st) (disableAllDevs st)
    (pg_options st) (directories st) (next_id st) (hook_calls st)
    (emitted st) (log st).

Definition set_loaded (f : gmap string (gmap string module_inst) →
                           gmap string (gmap string module_inst))
    (st : manager) : manager :=
  MkManager (tree_config st) (tree_start st) (tree_defined st)
    (f (tree_loaded st)) (baseDir st) (disableDevs st) (disableAllDevs st)
    (pg_options st) (directories st) (next_id st) (hook_calls st)
    (emitted st) (log st).

Definition set_baseDir (d : pyval) (st : manager) : manager :=
  MkManager (tree_config st) (tree_start st) (tree_defined st)
    (tree_loaded st) d (disableDevs st) (disableAllDevs st)
    (pg_options st) (directories st) (next_id st) (hook_calls st)
    (emitted st) (log st).

Definition set_pg_option (k : string) (v : pyval) (st : manager) : manager :=
  MkManager (tree_config st) (tree_start st) (tree_defined st)
    (tree_loaded st) (baseDir st) (disableDevs st) (disableAllDevs st)
    (<[k := v]> (pg_options st)) (directories st) (next_id st) (hook_calls st)
    (emitted st) (log st).

Definition add_directory (d : string) (st : manager) : manager :=
  MkManager (tree_config st) (tree_start st) (tree_defined st)
    (tree_loaded st) (baseDir st) (disableDevs st) (disableAllDevs st)
    (pg_options st) ({[ d ]} ∪ directories st) (next_id st) (hook_calls st)
    (emitted st) (log st).

Definition bump_id (st : manager) : manager :=
  MkManager (tree_config st) (tree_start st) (tree_defined st)
    (tree_loaded st) (baseDir st) (disableDevs st) (disableAllDevs st)
    (pg_options st) (directories st) (S (next_id st)) (hook_calls st)
    (emitted st) (log st).

Definition add_hook_call (i : nat) (st : manager) : manager :=
  MkManager (tree_config st) (tree_start st) (tree_defined st)
    (tree_loaded st) (baseDir st) (disableDevs st) (disableAllDevs st)
    (pg_options st) (directories st) (next_id st) (hook_calls st ++ [i])
    (emitted st) (log st).

Definition add_signal (s : signal) (st : manager) : manager :=
  MkManager (tree_config st) (tree_start st) (tree_defined st)
    (tree_loaded st) (baseDir st) (disableDevs st) (disableAllDevs st)
    (pg_options st) (directories st) (next_id st) (hook_calls st)
    (emitted st ++ [s]) (log st).

Definition add_log (e : log_entry) (st : manager) : manager :=
  MkManager (tree_config st) (tree_start st) (tree_defined st)
    (tree_loaded st) (baseDir st) (disableDevs st) (disableAllDevs st)
    (pg_options st) (directories st) (next_id st) (hook_calls st)
    (emitted st) (log st ++ [e]).

(** *** Methods run on the manager and may raise *)

Definition M (A : Type) : Type := manager → result A * manager.

Definition ret {A} (a : A) : M A := λ st, (Ok a, st).

Definition raise {A} (e : exn) : M A := λ st, (Raise e, st).

Definition bind {A B} (m : M A) (f : A → M B) : M B :=
  λ st, match m st with
        | (Ok a, st') => f a st'
        | (Raise e, st') => (Raise e, st')
        end.

Definition lift {A} (r : result A) : M A := λ st, (r, st).

Definition gets {A} (f : manager → A) : M A := λ st, (Ok (f st), st).

Definition modify (f : manager → manager) : M unit := λ st, (Ok tt, f st).

(** [try: body except: handler] *)
Definition try_except {A} (body : M A) (handler : exn → M A) : M A :=
  λ st, match body st with
        | (Ok a, st') => (Ok a, st')
        | (Raise e, st') => handler e st'
        end.

Notation "'let!' x ':=' m 'in' k" := (bind m (λ x, k))
  (at level 10, x name, m at level 200, k at level 200).
Notation "m ;;; k" := (bind m (λ _, k))
  (at level 100, right associativity).

(** A [for] loop whose body may [return] from the method. *)
Inductive flow : Type := Next | Return.

Fixpoint for_each {A} (l : list A) (body : A → M flow) : M flow :=
  match l with
  | [] => ret Next
  | x :: l' =>
      let! f := body x in
      match f with
      | Next => for_each l' body
      | Return => ret Return
      end
  end.

(** A [for] loop without [return]. *)
Fixpoint for_all {A} (l : list A) (body : A → M unit) : M unit :=
  match l with
  | [] => ret tt
  | x :: l' => body x ;;; for_all l' body
  end.

Definition logMsg (msgType msg : string) : M unit :=
  modify (add_log (LogMsg msgType msg)).

Definition logExc (msgType msg : string) : M unit :=
  modify (add_log (LogExc msgType msg)).

Definition print_logMsg (msg : string) : M unit :=
  modify (add_log (PrintLogMsg msg)).

Definition printExc (msg : string) : M unit :=
  modify (add_log (PrintExc msg)).

Definition emit (s : signal) : M unit := modify (add_signal s).

(** [self.tree[...][base]] *)
Definition tree_get {V} (table : manager → gmap string (gmap string V))
    (base : string) : M (gmap string V) :=
  let! t := gets table in
  match t !! base with
  | Some tb => ret tb
  | None => raise (KeyError base)
  end.

(** [table[key]] *)
Definition table_get {V} (tb : gmap string V) (key : string) : M V :=
  match tb !! key with
  | Some v => ret v
  | None => raise (KeyError key)
  end.

(** [key in table] *)
Definition table_mem {V} (key : string) (tb : gmap string V) : bool :=
  bool_decide (is_Some (tb !! key)).

(** [self.tree['loaded'][base][key]] *)
Definition loaded_module (base key : string) : M module_inst :=
  let! tb := tree_get tree_loaded base in table_get tb key.

(** [self.tree['loaded'][base][key] = m] *)
Definition store_module (base key : string) (m : module_inst) : M unit :=
  let! tb := tree_get tree_loaded base in
  modify (set_loaded (λ t, <[base := <[key := m]> tb]> t)).


(** *** The operating system, as far as [setBaseDir] calls it

    Modelled from the Python standard library, which is not part of the
    repository: the public names of the module [os.path] (posixpath), the
    function [os.path.dirname] of a POSIX system, and a file system reduced
    to the set of directories that exist. *)
Definition os_path_names : list string :=
  ["abspath"; "basename"; "commonpath"; "commonprefix"; "dirname"; "exists";
   "lexists"; "expanduser"; "expandvars"; "getatime"; "getmtime"; "getctime";
   "getsize"; "isabs"; "isfile"; "isdir"; "islink"; "ismount"; "join";
   "normcase"; "normpath"; "realpath"; "relpath"; "samefile"; "sameopenfile";
   "samestat"; "split"; "splitdrive"; "splitext";
   "supports_unicode_filenames"].

(** [os.path.<attr>]: looking up a name the module does not define raises
    [AttributeError]. *)
Definition os_path_getattr (attr : string) : result string :=
  if bool_decide (attr ∈ os_path_names) then Ok attr
  else Raise (AttributeError attr).

Fixpoint drop_while {A} (p : A → bool) (l : list A) : list A :=
  match l with
  | [] => []
  | x :: l' => if p x then drop_while p l' else l
  end.

Definition is_slash (c : ascii) : bool := bool_decide (c = "/"%char).

Definition posix_dirname (p : string) : string :=
  let head := reverse (drop_while (λ c, negb (is_slash c))
                         (reverse (list_ascii_of_string p))) in
  string_of_list_ascii
    (if forallb is_slash head then head
     else reverse (drop_while is_slash (reverse head))).

Definition os_path_dirname (path : pyval) : M string :=
  match path with
  | PyStr p => ret (posix_dirname p)
  | _ => raise TypeError
  end.

Definition os_path_exists (d : string) : M bool :=
  gets (λ st, bool_decide (d ∈ directories st)).

Definition os_makedirs (d : string) : M unit := modify (add_directory d).

(** *** Lines 418-432: [setBaseDir]

    The method asks [os.path] for the attribute [dirName]. *)
Definition setBaseDir (path : pyval) : M unit :=
  let! oldBaseDir := gets baseDir in
  let! _ := lift (os_path_getattr "dirName") in
  let! dirName := os_path_dirname path in
  let! _ := lift (os_path_getattr "exists") in
  let! ex := os_path_exists dirName in
  (if ex then ret tt else os_makedirs dirName) ;;;
  modify (set_baseDir (PyStr dirName)) ;;;
  match oldBaseDir with
  | PyStr old => if decide (old = dirName) then ret tt else emit sigBaseDirChanged
  | _ => emit sigBaseDirChanged
  end.

(** *** Lines 257-339: [configure] *)

(** [self.tree[...][base][m] = v] *)
Definition tree_store
    (table : manager → gmap string (gmap string pyval))
    (update : (gmap string (gmap string pyval) →
               gmap string (gmap string pyval)) → manager → manager)
    (base m : string) (v : pyval) : M unit :=
  let! tb := tree_get table base in
  modify (update (λ t, <[base := <[m := v]> tb]> t)).

(** [if 'module' in section[m]: table[base][m] = section[m] else: log] *)
Definition define_entry
    (table : manager → gmap string (gmap string pyval))
    (update : (gmap string (gmap string pyval) →
               gmap string (gmap string pyval)) → manager → manager)
    (base : string) (section : pyval) (ignored : string) (m : string) : M unit :=
  let! entry := lift (py_getitem section m) in
  let! has := lift (py_contains "module" entry) in
  if has then
    let! entry := lift (py_getitem section m) in
    tree_store table update base m entry
  else print_logMsg ignored.

Definition configure_hardware (cfg : pyval) : M unit :=
  let! section := lift (py_getitem cfg "hardware") in
  let! ms := lift (py_iter section) in
  for_all ms (λ m,
    let! all := gets disableAllDevs in
    let! devs := gets disableDevs in
    if all || bool_decide (m ∈ devs) then
      print_logMsg "Ignoring device -- disabled by request"
    else
      let! section := lift (py_getitem cfg "hardware") in
      define_entry tree_defined set_defined "hardware" section
        "Ignoring device -- no module specified" m).

Definition configure_category (cfg : pyval) (base ignored : string) : M unit :=
  let! section := lift (py_getitem cfg base) in
  let! ms := lift (py_iter section) in
  for_all ms (λ m,
    let! section := lift (py_getitem cfg base) in
    define_entry tree_defined set_defined base section ignored m).

Definition configure_startup (cfg : pyval) : M unit :=
  let! startup := lift (py_getitem cfg "startup") in
  let! skeys := lift (py_iter startup) in
  for_all skeys (λ skey,
    if decide (skey = "gui") then
      let! startup := lift (py_getitem cfg "startup") in
      let! section := lift (py_getitem startup "gui") in
      let! ms := lift (py_iter section) in
      for_all ms (λ m,
        let! startup := lift (py_getitem cfg "startup") in
        let! section := lift (py_getitem startup "gui") in
        define_entry tree_start set_start "gui" section
          "Ignoring startup logic -- no module specified" m)
    else if decide (skey = "logic") then
      let! startup := lift (py_getitem cfg "startup") in
      let! section := lift (py_getitem startup "logic") in
      let! ms := lift (py_iter section) in
      for_all ms (λ m,
        let! startup := lift (py_getitem cfg "startup") in
        let! section := lift (py_getitem startup "logic") in
        define_entry tree_start set_start "logic" section
          "Ignoring startup GUI -- no module specified" m)
    else ret tt).

(** The 'global' section: [storageDir] goes to [setBaseDir]; the message
    is built with [str + cfg['global']['storageDir']]. *)
Definition configure_global (cfg : pyval) : M unit :=
  let! section := lift (py_getitem cfg "global") in
  let! ms := lift (py_iter section) in
  for_all ms (λ m,
    if decide (m = "storageDir") then
      let! section := lift (py_getitem cfg "global") in
      let! dir := lift (py_getitem section "storageDir") in
      (if is_str dir then print_logMsg "=== Setting base directory ==="
       else raise TypeError) ;;;
      let! section := lift (py_getitem cfg "global") in
      let! dir := lift (py_getitem section "storageDir") in
      setBaseDir dir
    else if decide (m = "useOpenGL") then
      let! section := lift (py_getitem cfg "global") in
      let! v := lift (py_getitem section "useOpenGl") in
      modify (set_pg_option "useOpenGL" v)
    else ret tt).

(** Any other key: dicts are extended, all others are overwritten. *)
Definition configure_other (cfg : pyval) (key : string) : M unit :=
  let! v := lift (py_getitem cfg key) in
  if is_dict_instance v then
    let! config := gets tree_config in
    (if table_mem key config then ret tt
     else modify (set_config (λ t, <[key := PyDict false []]> t))) ;;;
    let! v := lift (py_getitem cfg key) in
    let! keys2 := lift (py_iter v) in
    for_all keys2 (λ key2,
      let! v := lift (py_getitem cfg key) in
      let! v2 := lift (py_getitem v key2) in
      let! config := gets tree_config in
      let! old := table_get config key in
      let! new := lift (py_setitem old key2 v2) in
      modify (set_config (λ t, <[key := new]> t)))
  else
    let! v := lift (py_getitem cfg key) in
    modify (set_config (λ t, <[key := v]> t)).

Definition configure_key (cfg : pyval) (key : string) : M unit :=
  if decide (key = "hardware") then configure_hardware cfg
  else if decide (key = "logic") then
    configure_category cfg "logic" "Ignoring logic -- no module specified"
  else if decide (key = "gui") then
    configure_category cfg "gui" "Ignoring GUI -- no module specified"
  else if decide (key = "startup") then configure_startup cfg
  else if decide (key = "global") then configure_global cfg
  else configure_other cfg key.

Definition configure (cfg : pyval) : M unit :=
  let! keys := lift (py_iter cfg) in
  for_all keys (λ key,
    try_except (configure_key cfg key)
               (λ _, printExc "Error in configuration:")) ;;;
  emit sigConfigChanged.

(** *** Lines 456-509: [configureModule] *)

Definition categories : list string := ["hardware"; "logic"; "gui"].

Definition configureModule (moduleObject : string → option pyattr)
    (baseName className instanceName : string) (configuration : pyval)
    : M module_inst :=
  print_logMsg "Configuring" ;;;
  (if bool_decide (baseName ∈ categories) then
     let! tb := tree_get tree_loaded baseName in
     if table_mem instanceName tb then
       raise (Exception "already exists with name")
     else ret tt
   else raise (Exception "You are trying to cheat the system with some category")) ;;;
  let configuration :=
    if is_None configuration then PyDict false [] else configuration in
  let! modclass :=
    match moduleObject className with
    | Some a => ret a
    | None => raise (AttributeError className)
    end in
  let! cls :=
    match modclass with
    | AClass c =>
        if inherits_Base c then ret c else raise (Exception "Bad inheritance")
    | AOther => raise TypeError
    end in
  let! made := lift (construct cls instanceName configuration) in
  let! i := gets next_id in
  modify bump_id ;;;
  let instance := with_id made i in
  (if bool_decide (baseName ∈ categories) then
     store_module baseName instanceName instance
   else raise (Exception "We checked this already")) ;;;
  emit sigModulesChanged ;;;
  ret instance.

(** *** Lines 511-637: [connectModule] *)

(** The body of [for c in connections]. *)
Definition connectEntry (base mkey : string) (thismodule connections : pyval)
    (c : string) : M flow :=
  let! this := loaded_module base mkey in
  let! connectorIn := lift (py_getitem (mod_connector this) "in") in
  let! declared := lift (py_contains c connectorIn) in
  if negb declared then
    let! _ := lift (py_getitem thismodule "module") in
    logMsg "error" "IN connector is not declared in the module." ;;; ret Return
  else
  let! cin := lift (py_getitem connectorIn c) in
  if negb (is_OrderedDict cin) then
    logMsg "error" "No dict." ;;; ret Return
  else
  let! has_class := lift (py_contains "class" cin) in
  if negb has_class then
    logMsg "error" "no class key in connection declaration" ;;; ret Return
  else
  let! cls := lift (py_getitem cin "class") in
  if negb (is_str cls) then
    logMsg "error" "value for class key is not a string" ;;; ret Return
  else
  let! has_object := lift (py_contains "object" cin) in
  if negb has_object then
    logMsg "error" "no object key in connection declaration" ;;; ret Return
  else
  let! obj := lift (py_getitem cin "object") in
  if negb (is_None obj) then
    logMsg "error" "object is not None, i.e. is already connected" ;;; ret Return
  else
  let! target := lift (py_getitem connections c) in
  match target with
  | PyStr dest =>
      if negb (str_contains "." dest) then
        let! _ := lift (py_getitem thismodule "module") in
        logMsg "error" "connection configuration is broken, value does not contain a dot." ;;;
        ret Return
      else
      let! destmod := lift (list_index (str_split "." dest) 0) in
      let! destcon := lift (list_index (str_split "." dest) 1) in
      let! hardware := tree_get tree_loaded "hardware" in
      let! in_both :=
        (if table_mem destmod hardware then
           let! logic := tree_get tree_loaded "logic" in
           ret (table_mem destmod logic)
         else ret false) in
      if in_both then
        let! _ := lift (py_getitem thismodule "module") in
        logMsg "error" "Unique name is in both hardware and logic module list." ;;;
        ret Return
      else
      let! destbase :=
        (let! hardware := tree_get tree_loaded "hardware" in
         if table_mem destmod hardware then ret (Some "hardware")
         else
           let! logic := tree_get tree_loaded "logic" in
           if table_mem destmod logic then ret (Some "logic") else ret None) in
      match destbase with
      | None =>
          let! _ := lift (py_getitem thismodule "module") in
          logMsg "error" "Unique name is neither in hardware or logic module list." ;;;
          ret Return
      | Some destbase =>
          let! dest_inst := loaded_module destbase destmod in
          let! has_out := lift (py_contains "out" (mod_connector dest_inst)) in
          if negb has_out then
            let! _ := lift (py_getitem thismodule "module") in
            logMsg "error" "that does not declare any OUT connectors." ;;;
            ret Return
          else
          let! outputs := lift (py_getitem (mod_connector dest_inst) "out") in
          let! out_declared := lift (py_contains destcon outputs) in
          if negb out_declared then
            logMsg "error" "OUT connector not declared" ;;; ret Return
          else
          let! out := lift (py_getitem outputs destcon) in
          if negb (is_OrderedDict out) then
            logMsg "error" "not a dict" ;;; ret Return
          else
          let! out_has_class := lift (py_contains "class" out) in
          if negb out_has_class then
            logMsg "error" "no class key in dict" ;;; ret Return
          else
          let! out_cls := lift (py_getitem out "class") in
          if negb (is_str out_cls) then
            logMsg "error" "class value no string" ;;; ret Return
          else
          logMsg "status" "Connecting" ;;;
          let! dest_inst := loaded_module destbase destmod in
          let! cin' := lift (py_setitem cin "object" (PyObj (mod_id dest_inst))) in
          let! connectorIn' := lift (py_setitem connectorIn c cin') in
          let! this := loaded_module base mkey in
          let! connector' := lift (py_setitem (mod_connector this) "in" connectorIn') in
          store_module base mkey (with_connector this connector') ;;;
          ret Next
      end
  | _ =>
      (* the format string of this message names the field '3 ' *)
      let! _ := lift (py_getitem thismodule "module") in
      raise (KeyError "3 ")
  end.

Definition connectModule (base mkey : string) : M unit :=
  let! defined := tree_get tree_defined base in
  let! thismodule := table_get defined mkey in
  let! loaded := tree_get tree_loaded base in
  if negb (table_mem mkey loaded) then
    let! _ := lift (py_getitem thismodule "module") in
    logMsg "error" "Loading of module was not successful, not connecting it."
  else
  let! has_connect := lift (py_contains "connect" thismodule) in
  if negb has_connect then ret tt
  else
  let! this := loaded_module base mkey in
  let! has_in := lift (py_contains "in" (mod_connector this)) in
  if negb has_in then
    let! _ := lift (py_getitem thismodule "module") in
    logMsg "error" "is supposed to get connected but it does not declare any IN connectors."
  else
  let! has_module := lift (py_contains "module" thismodule) in
  if negb has_module then
    let! _ := lift (py_getitem thismodule "module") in
    logMsg "error" "connection configuration is broken: no module defined."
  else
  let! connect := lift (py_getitem thismodule "connect") in
  if negb (is_OrderedDict connect) then
    let! _ := lift (py_getitem thismodule "module") in
    logMsg "error" "connection configuration is broken: connect is not a dict."
  else
  let! connections := lift (py_getitem thismodule "connect") in
  let! cs := lift (py_iter connections) in
  let! _ := for_each cs (connectEntry base mkey thismodule connections) in
  ret tt.

(** *** Lines 667-684: [activateModule] *)

(** [self.tree['loaded'][base][key].activate()]: the hook of the instance
    runs; it leaves the module in a new state or raises. *)
Definition activate (base key : string) : M unit :=
  let! m := loaded_module base key in
  modify (add_hook_call (mod_id m)) ;;;
  match mod_activate m with
  | Ok s => store_module base key (with_state m s)
  | Raise e => raise e
  end.

Definition activateModule (base key : string) : M unit :=
  let! m := loaded_module base key in
  let! startup :=
    (if bool_decide (mod_state m ≠ "deactivated") then
       let! start := tree_get tree_start base in
       ret (table_mem key start)
     else ret false) in
  if startup then ret tt
  else
  let! m := loaded_module base key in
  if bool_decide (mod_state m ≠ "deactivated") then
    logMsg "error" "module not deactivated anymore"
  else
    try_except (activate base key)
               (λ _, logExc "error" "error during activation:").


(** *** What the specification says about wiring *)

(** The items of a mapping; anything else has none. *)
Definition dict_items (x : pyval) : option (list (string * pyval)) :=
  match x with
  | PyDict _ items => Some items
  | _ => None
  end.

Definition ordered_items (x : pyval) : option (list (string * pyval)) :=
  match x with
  | PyDict true items => Some items
  | _ => None
  end.

(** [x[k]] when [x] is a mapping that has the key [k]. *)
Definition dict_lookup (x : pyval) (k : string) : option pyval :=
  match dict_items x with
  | Some items => od_get k items
  | None => None
  end.

(** [self.tree['loaded'][base][key]], when it is there. *)
Definition loaded_at (st : manager) (base key : string) : option module_inst :=
  match tree_loaded st !! base with
  | Some tb => tb !! key
  | None => None
  end.

(** The declaration [connector['in'][c]] of a connector table. *)
Definition in_decl (connector : pyval) (c : string) : option pyval :=
  match dict_lookup connector "in" with
  | Some ins => dict_lookup ins c
  | None => None
  end.

(** The declaration [connector['in'][c]] of the module loaded as [key]. *)
Definition in_connector (st : manager) (base key c : string) : option pyval :=
  match loaded_at st base key with
  | Some m => in_decl (mod_connector m) c
  | None => None
  end.

(** Its field [connector['in'][c]['object']]. *)
Definition bound_object (st : manager) (base key c : string) : option pyval :=
  match in_connector st base key c with
  | Some cin => dict_lookup cin "object"
  | None => None
  end.

(** A declaration passes the checks of lines 552-570: an OrderedDict with
    a string under 'class' and [None] under 'object'. *)
Definition unbound_declaration (cin : pyval) : bool :=
  match ordered_items cin with
  | Some items =>
      match od_get "class" items, od_get "object" items with
      | Some (PyStr _), Some PyNone => true
      | _, _ => false
      end
  | None => false
  end.

(** A declaration passes the checks of lines 617-627: an OrderedDict with
    a string under 'class'. *)
Definition out_declaration (out : pyval) : bool :=
  match ordered_items out with
  | Some items =>
      match od_get "class" items with
      | Some (PyStr _) => true
      | _ => false
      end
  | None => false
  end.

(** The instance loaded under [name] in exactly one of the hardware and
    logic tables. *)
Definition unique_target (st : manager) (name : string) : option module_inst :=
  match tree_loaded st !! "hardware", tree_loaded st !! "logic" with
  | Some hw, Some lg =>
      match hw !! name, lg !! name with
      | Some t, None => Some t
      | None, Some t => Some t
      | _, _ => None
      end
  | _, _ => None
  end.

(** The target of the connect entry [c] of the module loaded as [mkey]:
    the identity of the instance that the entry names, when the entry and
    both ends pass every check of the loop body. The value of the entry is
    split at its dots; the first part names the target, the second its
    'out' connector. *)
Definition resolve_target (st : manager) (base mkey : string)
    (connections : pyval) (c : string) : option nat :=
  match in_connector st base mkey c with
  | Some cin =>
      if unbound_declaration cin then
        match dict_lookup connections c with
        | Some (PyStr dest) =>
            if str_contains "." dest then
              match str_split "." dest with
              | destmod :: destcon :: _ =>
                  match unique_target st destmod with
                  | Some t =>
                      match dict_lookup (mod_connector t) "out" with
                      | Some outputs =>
                          match dict_lookup outputs destcon with
                          | Some out =>
                              if out_declaration out then Some (mod_id t)
                              else None
                          | None => None
                          end
                      | None => None
                      end
                  | None => None
                  end
              | _ => None
              end
            else None
        | _ => None
        end
      else None
  | None => None
  end.

(** [connector['in'][c]['object'] = v] on a connector table. *)
Definition set_object (connector : pyval) (c : string) (v : pyval) : pyval :=
  match connector with
  | PyDict o1 items =>
      match od_get "in" items with
      | Some (PyDict o2 ins) =>
          match od_get c ins with
          | Some (PyDict o3 cin) =>
              PyDict o1
                (od_set "in"
                   (PyDict o2 (od_set c (PyDict o3 (od_set "object" v cin)) ins))
                   items)
          | _ => connector
          end
      | _ => connector
      end
  | _ => connector
  end.

(** The instance [m] with its connector [c] bound to the instance [oid]. *)
Definition rebound (c : string) (oid : nat) (m : module_inst) : module_inst :=
  with_connector m (set_object (mod_connector m) c (PyObj oid)).

(** The manager after lines 633-637 have bound the connector [c] of the
    module loaded as [mkey] to the instance [oid]. *)
Definition bind_state (st : manager) (base mkey c : string) (oid : nat)
    : manager :=
  match tree_loaded st !! base with
  | Some tb =>
      match tb !! mkey with
      | Some this =>
          set_loaded (λ t, <[base := <[mkey := rebound c oid this]> tb]> t)
            (add_log (LogMsg "status" "Connecting") st)
      | None => st
      end
  | None => st
  end.

(** How the loop body ends when it does not bind: one error in the log and
    [return], or an exception with the manager untouched. *)
Inductive rejected (st : manager) : result flow → manager → Prop :=
| rejected_logged msg :
    rejected st (Ok Return) (add_log (LogMsg "error" msg) st)
| rejected_raised e :
    rejected st (Raise e) st.

(** The manager after the entries [cs] have been bound one after the other. *)
Fixpoint bind_all (st : manager) (base mkey : string) (connections : pyval)
    (cs : list string) : manager :=
  match cs with
  | [] => st
  | c :: cs' =>
      match resolve_target st base mkey connections c with
      | Some oid => bind_all (bind_state st base mkey c oid) base mkey connections cs'
      | None => st
      end
  end.

(** No binding is lost or replaced on the way from [st] to [st']. *)
Definition keeps_bindings (st st' : manager) : Prop :=
  ∀ b k c v, bound_object st b k c = Some v → v ≠ PyNone →
             bound_object st' b k c = Some v.

(** The tables hold the same instances under the same names. *)
Definition same_instances (st st' : manager) : Prop :=
  ∀ b k, mod_id <$> loaded_at st' b k = mod_id <$> loaded_at st b k.

(** A method that leaves the component [f] of the manager as it was. *)
Definition keeps {A T} (f : manager → T) (m : M A) : Prop :=
  ∀ st, f (m st).2 = f st.

#[global] Instance signal_eq_dec : EqDecision signal.
Proof. solve_decision. Defined.

(** The base-directory-changed notifications sent so far. *)
Definition baseDir_signals (st : manager) : list signal :=
  filter (λ s, s = sigBaseDirChanged) (emitted st).

(** *** Concrete managers used as inputs *)

(** A pump driver with the 'out' connector 'pump'. *)
Definition pump_out : module_inst :=
  MkModule 0 "deactivated"
    (PyDict true
       [("out", PyDict true [("pump", PyDict true [("class", PyStr "Pump")])])])
    (Ok "idle").

(** A logic module with the 'in' connectors 'aux' and 'pump'; [obj] is
    what 'pump' is bound to. *)
Definition controller (obj : pyval) : module_inst :=
  MkModule 1 "deactivated"
    (PyDict true
       [("in", PyDict true
          [("aux", PyDict true [("class", PyStr "Aux"); ("object", PyNone)]);
           ("pump", PyDict true [("class", PyStr "Pump"); ("object", obj)])])])
    (Ok "idle").

(** The pump loaded as hardware 'pump', the controller loaded as logic
    'ctl' and defined with the connect entries [connect]. *)
Definition wiring_manager (connect : list (string * pyval)) (obj : pyval)
    : manager :=
  set_defined
    (λ t, <["logic" :=
             {[ "ctl" := PyDict true [("module", PyStr "ctl_logic");
                                      ("connect", PyDict true connect)] ]}]> t)
    (set_loaded
       (λ t, <["hardware" := {[ "pump" := pump_out ]}]>
               (<["logic" := {[ "ctl" := controller obj ]}]> t))
       init_manager).

Definition pump_entry : list (string * pyval) :=
  [("pump", PyStr "pump.pump")].

Definition aux_then_pump : list (string * pyval) :=
  [("aux", PyStr "nowhere.out"); ("pump", PyStr "pump.pump")].

(** The controller's 'pump' connector already bound to the pump. *)
Definition bound_manager : manager := wiring_manager pump_entry (PyObj 0).

Definition idle_pump : module_inst :=
  MkModule 0 "idle" (PyDict true [("out", PyDict true [])]) (Ok "idle").

(** The manager of [__init__] with one hardware module loaded that has
    left the state 'deactivated'. *)
Definition pump_manager : manager :=
  set_loaded (λ t, <["hardware" := {[ "pump" := idle_pump ]}]> t) init_manager.

(** A configuration document with a storage directory. *)
Definition storage_cfg : pyval :=
  PyDict true [("global", PyDict true [("storageDir", PyStr "/data/qudi/")])].


(** *** What the loop of [connectModule] takes for granted

    The connector table of an instance is a dictionary, and so are its
    'in' and 'out' tables when it has them: the loop applies [in] and
    subscripts to them without a check. *)
Definition connector_tables (m : module_inst) : bool :=
  match mod_connector m with
  | PyDict _ items =>
      match od_get "in" items with
      | Some ins => is_dict_instance ins
      | None => true
      end &&
      match od_get "out" items with
      | Some outs => is_dict_instance outs
      | None => true
      end
  | _ => false
  end.

(** The loaded tables of hardware and logic exist, as [__init__] makes
    them, and every loaded instance has connector tables. *)
Definition registry_sound (st : manager) : Prop :=
  is_Some (tree_loaded st !! "hardware") ∧
  is_Some (tree_loaded st !! "logic") ∧
  map_Forall (λ _ tb, map_Forall (λ _ m, connector_tables m = true) tb)
    (tree_loaded st).

(** The entry [c] gets as far as line 571 and fails there: its declaration
    passes the checks of lines 552-570 and [connections[c]] is not a
    string. *)
Definition value_not_string (st : manager) (base mkey : string)
    (connections : pyval) (c : string) : bool :=
  match in_connector st base mkey c, dict_lookup connections c with
  | Some cin, Some v => unbound_declaration cin && negb (is_str v)
  | _, _ => false
  end.

(** The connect entries of the controller: 'pump' names the pump, 'aux'
    names a module that is not loaded. *)
Definition pump_then_aux : list (string * pyval) :=
  [("pump", PyStr "pump.pump"); ("aux", PyStr "nowhere.out")].

(** A gui module that has left the state 'deactivated'. *)
Definition idle_window : module_inst :=
  MkModule 0 "idle" (PyDict true []) (Ok "idle").

(** The manager of [__init__] with that module loaded as gui 'main'. *)
Definition window_manager : manager :=
  set_loaded (λ t, <["gui" := {[ "main" := idle_window ]}]> t) init_manager.

(** What [configure] leaves alone, whatever the document says. *)
Definition untouched_by_configure (st : manager) :=
  (tree_loaded st, baseDir st, directories st, hook_calls st, next_id st,
   disableDevs st, disableAllDevs st).

(** The manager of [__init__] started with the option [-d pump]. *)
Definition disabled_manager : manager :=
  {| tree_config := ∅;
     tree_start := {[ "gui" := ∅; "logic" := ∅ ]};
     tree_defined := {[ "hardware" := ∅; "gui" := ∅; "logic" := ∅ ]};
     tree_loaded := {[ "hardware" := ∅; "gui" := ∅; "logic" := ∅ ]};
     baseDir := PyNone;
     disableDevs := ["pump"];
     disableAllDevs := false;
     pg_options := ∅;
     directories := ∅;
     next_id := 0%nat;
     hook_calls := [];
     emitted := [];
     log := [] |}.

(** A manager that holds one named configuration already. *)
Definition configured_manager : manager :=
  set_config
    (λ t, <["configurations" :=
             PyDict false [("first", PyDict true [("global", PyDict true [])])]]> t)
    init_manager.

(** A document that defines the logic module 'ctl'. *)
Definition ctl_cfg : pyval :=
  PyDict true
    [("logic", PyDict true [("ctl", PyDict true [("module", PyStr "ctl_logic")])])].

(** A document that names a further configuration. *)
Definition second_cfg : pyval :=
  PyDict true
    [("configurations", PyDict true [("second", ctl_cfg)])].

(** The instance [m'] is [m] but for its 'in' connectors. *)
Definition same_but_inputs (m m' : module_inst) : Prop :=
  mod_id m' = mod_id m ∧ mod_state m' = mod_state m ∧
  mod_activate m' = mod_activate m ∧
  ∀ k, k ≠ "in" →
       dict_lookup (mod_connector m') k = dict_lookup (mod_connector m) k.

(** From [st] to [st'] nothing has changed but the log and the 'in'
    connectors of the module loaded as [mkey] in [base]. *)
Definition only_wired (base mkey : string) (st st' : manager) : Prop :=
  tree_config st' = tree_config st ∧ tree_start st' = tree_start st ∧
  tree_defined st' = tree_defined st ∧ baseDir st' = baseDir st ∧
  emitted st' = emitted st ∧ hook_calls st' = hook_calls st ∧
  next_id st' = next_id st ∧
  ∀ b k,
    match loaded_at st b k, loaded_at st' b k with
    | Some m, Some m' =>
        same_but_inputs m m' ∧ ((b, k) ≠ (base, mkey) → m' = m)
    | None, None => True
    | _, _ => False
    end.

(** A Python module that defines no class at all. *)
Definition empty_module : string → option pyattr := λ _, None.

(** A class derived from [Base] whose constructor gives a module without
    connectors. *)
Definition plain_class : pyclass :=
  MkClass true (λ _ _, Ok (MkModule 0 "deactivated" (PyDict true []) (Ok "idle"))).

(** A Python module that defines the class 'Plain'. *)
Definition plain_module : string → option pyattr :=
  λ name, if decide (name = "Plain") then Some (AClass plain_class) else None.

(** A controller definition whose connect entry has a number as value. *)
Definition number_entry : list (string * pyval) := [("pump", PyInt 3)].

(** *** Lines 341-361: named configurations *)

(** [list(self.tree['config']['configurations'].keys())] *)
Definition listConfigurations : M (list string) :=
  let! config := gets tree_config in
  if table_mem "configurations" config then
    let! config := gets tree_config in
    let! confs := table_get config "configurations" in
    match confs with
    | PyDict _ items => ret (od_keys items)
    | _ => raise (AttributeError "keys")
    end
  else ret [].

Definition loadDefinedConfig (name : string) : M unit :=
  let! config := gets tree_config in
  let! confs := table_get config "configurations" in
  let! found := lift (py_contains name confs) in
  if negb found then raise (Exception "Could not find configuration named")
  else
    let! config := gets tree_config in
    let! confs := table_get config "configurations" in
    let! cfg :=
      match confs with
      | PyDict _ items => ret (default PyNone (od_get name items))
      | _ => raise (AttributeError "get")
      end in
    configure cfg.

(** *** Lines 438-454 and 639-665: loading a module

    A Python module object, as far as the manager looks at it: its
    [__package__] ([None] when Python has [None] there), its [__name__]
    and what [getattr] finds in it. *)
Record pymodule : Type := MkPyModule {
  py_package : option string;
  py_name : string;
  py_getattr : string → option pyattr
}.

(** What lies outside the manager. [import_module base module] is what
    [__import__('{0}.{1}'.format(base, module), fromlist=['*'])] does: it
    returns a module object or raises. [new_thread] and [move_to_thread]
    are the thread manager's [newThread] and Qt's [moveToThread] followed
    by [start()], which return or raise and do not touch the tree.
    [key_order table base keys] is the order in which Python iterates over
    [self.tree[table][base]], its insertion order; the tables are finite
    maps here and do not record it. *)
Record environment : Type := MkEnv {
  import_module : string → pyval → result pymodule;
  new_thread : string → result unit;
  move_to_thread : nat → string → result unit;
  key_order : string → string → list string → list string
}.

Definition loadModule (env : environment) (baseName : string) (module : pyval)
    : M pymodule :=
  print_logMsg "Loading module" ;;;
  if bool_decide (baseName ∈ categories) then
    lift (import_module env baseName module)
  else raise (Exception "You are trying to cheat the system with some category").

(** [s] without the prefix [p], when it starts with it. *)
Fixpoint drop_prefix (p s : string) : option string :=
  match p with
  | EmptyString => Some s
  | String a p' =>
      match s with
      | EmptyString => None
      | String b s' => if decide (a = b) then drop_prefix p' s' else None
      end
  end.

(** [re.sub('^{0}\.'.format(re.escape(pkg)), '', name)]: the pattern is the
    package name taken literally and a dot, anchored at the start. *)
Definition re_sub_package (pkg name : string) : string :=
  default name (drop_prefix (pkg +:+ ".") name).

(** [re.escape(modObj.__package__)] raises [TypeError] on [None]. *)
Definition re_escape_package (modObj : pymodule) : M string :=
  match py_package modObj with
  | Some pkg => ret pkg
  | None => raise TypeError
  end.

(** [self.tree['defined'][base][key]] *)
Definition defined_entry (base key : string) : M pyval :=
  let! defined := tree_get tree_defined base in table_get defined key.

Definition loadConfigureModule (env : environment) (base key : string)
    : M unit :=
  let! entry := defined_entry base key in
  let! loadable := lift (py_contains "module" entry) in
  if loadable then
    try_except
      (let! entry := defined_entry base key in
       let! module := lift (py_getitem entry "module") in
       let! modObj := loadModule env base module in
       let! pkgName := re_escape_package modObj in
       let modName := re_sub_package pkgName (py_name modObj) in
       let! entry := defined_entry base key in
       let! _ := configureModule (py_getattr modObj) base modName key entry in
       if decide (base = "logic") then
         let! _ := lift (new_thread env ("mod-" +:+ base +:+ "-" +:+ key)) in
         let! this := loaded_module base key in
         lift (move_to_thread env (mod_id this)
                 ("mod-" +:+ base +:+ "-" +:+ key))
       else ret tt)
      (λ _, logExc "error" "Error while loading module")
  else logMsg "error" "Not a loadable module".

(** *** Lines 686-709: [startAllConfiguredModules] *)

(** [for key in self.tree[table][base]] *)
Definition table_keys {V} (env : environment) (table base : string)
    (tb : gmap string V) : list string :=
  key_order env table base (map_to_list tb).*1.

Definition startAllConfiguredModules (env : environment) : M unit :=
  for_all categories (λ thing,
    let! defined := tree_get tree_defined thing in
    for_all (table_keys env "defined" thing defined)
      (λ key, loadConfigureModule env thing key)) ;;;
  print_logMsg "Connecting ALL the things!!" ;;;
  (let! defined := tree_get tree_defined "logic" in
   for_all (table_keys env "defined" "logic" defined)
     (λ mkey, connectModule "logic" mkey)) ;;;
  (let! defined := tree_get tree_defined "gui" in
   for_all (table_keys env "defined" "gui" defined)
     (λ mkey, connectModule "gui" mkey)) ;;;
  print_logMsg "Activation starting!" ;;;
  for_all categories (λ thing,
    let! loaded := tree_get tree_loaded thing in
    for_all (table_keys env "loaded" thing loaded)
      (λ key, activateModule thing key)) ;;;
  print_logMsg "Activation finished.".

(** A method that relates the manager it leaves to the one it found. *)
Definition preserves {A} (R : manager → manager → Prop) (m : M A) : Prop :=
  ∀ st, R st (m st).2.

(** Every instance loaded in [st] is loaded in [st'] under the same name,
    with the same identity; a hardware instance also has the same
    connector table, and no binding has been lost. *)
Definition instances_kept (st st' : manager) : Prop :=
  keeps_bindings st st' ∧
  ∀ b k m, loaded_at st b k = Some m →
    ∃ m', loaded_at st' b k = Some m' ∧ mod_id m' = mod_id m ∧
          (b = "hardware" → mod_connector m' = mod_connector m).

(** An environment in which every import fails. *)
Definition no_imports : environment :=
  MkEnv (λ _ _, Raise (Exception "No module named")) (λ _, Ok tt)
        (λ _ _, Ok tt) (λ _ _ keys, keys).

(** An environment in which the package 'logic' has the module 'plain'
    with the class of the same name. *)
Definition plain_env : environment :=
  MkEnv (λ base module,
           match module with
           | PyStr name =>
               if decide (base = "logic" ∧ name = "plain") then
                 Ok (MkPyModule (Some "logic") "logic.plain"
                       (λ cls, if decide (cls = "plain")
                               then Some (AClass plain_class) else None))
               else Raise (Exception "No module named")
           | _ => Raise (Exception "No module named")
           end)
        (λ _, Ok tt) (λ _ _, Ok tt) (λ _ _ keys, keys).

(** The manager of [__init__] with the logic module 'ctl' defined. *)
Definition plain_manager : manager :=
  set_defined
    (λ t, <["logic" := {[ "ctl" := PyDict true [("module", PyStr "plain")] ]}]> t)
    init_manager.

(** From [st] to [st'] the startup tables are the same and the instance
    loaded as [k] in [b], if there is one, is still there, unchanged. *)
Definition module_untouched (b k : string) (st st' : manager) : Prop :=
  tree_start st' = tree_start st ∧
  ∀ m, loaded_at st b k = Some m → loaded_at st' b k = Some m.

End Manager.

Import Toposort.

(** ** Facts about insertion-ordered dictionaries *)

Section odict_facts.
Context {V : Type}.
Implicit Types (d : odict V) (k r : string) (v : V).

Lemma od_get_Some_elem d k v : od_get k d = Some v → (k, v) ∈ d.
Proof.
  induction d as [|[k' v'] d IH]; simpl; [done|].
  case_decide.
  - intros [= ->]. subst. apply elem_of_cons. by left.
  - intros ?. apply elem_of_cons. right. by apply IH.
Qed.

Lemma od_get_None d k : od_get k d = None ↔ k ∉ od_keys d.
Proof.
  unfold od_keys. induction d as [|[k' v'] d IH]; simpl.
  - split; [intros _; apply not_elem_of_nil | done].
  - rewrite not_elem_of_cons, <- IH. case_decide; naive_solver.
Qed.

Lemma od_get_is_Some d k : is_Some (od_get k d) ↔ k ∈ od_keys d.
Proof.
  rewrite <- not_eq_None_Some, od_get_None.
  destruct (decide (k ∈ od_keys d)); naive_solver.
Qed.

Lemma elem_of_od_keys d k : k ∈ od_keys d ↔ ∃ v, (k, v) ∈ d.
Proof.
  unfold od_keys. rewrite list_elem_of_fmap. split.
  - intros [[k' v] [-> ?]]. by exists v.
  - intros [v ?]. by exists (k, v).
Qed.

Lemma od_get_elem d k v : is_dict d → (k, v) ∈ d → od_get k d = Some v.
Proof.
  unfold is_dict, od_keys. induction d as [|[k' v'] d IH]; simpl.
  - by intros _ ?%elem_of_nil.
  - rewrite NoDup_cons, elem_of_cons. intros [Hk Hd] [Heq|Hin].
    + simplify_eq. by rewrite decide_True.
    + rewrite decide_False; [by apply IH|].
      intros ->. apply Hk, list_elem_of_fmap. by exists (k', v).
Qed.

Lemma od_get_set d k k' v :
  od_get k' (od_set k v d) = if decide (k' = k) then Some v else od_get k' d.
Proof.
  induction d as [|[k0 v0] d IH]; simpl.
  - repeat case_decide; done.
  - repeat (case_decide; simpl; simplify_eq); done.
Qed.

Lemma od_keys_set d k v :
  od_keys (od_set k v d) =
    if decide (k ∈ od_keys d) then od_keys d else od_keys d ++ [k].
Proof.
  unfold od_keys. induction d as [|[k0 v0] d IH].
  - destruct (decide (k ∈ [].*1)) as [Hk|Hk]; [by apply elem_of_nil in Hk | done].
  - cbn [od_set]. destruct (decide (k = k0)) as [->|Hne].
    + rewrite decide_True by (rewrite fmap_cons; apply elem_of_cons; by left).
      done.
    + rewrite !fmap_cons, IH. cbn [fst].
      destruct (decide (k ∈ d.*1)) as [Hin|Hin].
      * rewrite decide_True by (apply elem_of_cons; by right). done.
      * rewrite decide_False by (rewrite not_elem_of_cons; done). done.
Qed.

Lemma is_dict_set d k v : is_dict d → is_dict (od_set k v d).
Proof.
  unfold is_dict. rewrite od_keys_set. case_decide; [done|].
  intros Hd. apply NoDup_app. split_and!; [done| |apply NoDup_singleton].
  intros x Hx ->%list_elem_of_singleton. done.
Qed.

Lemma elem_of_od_del d r k v : (k, v) ∈ od_del r d ↔ (k, v) ∈ d ∧ k ≠ r.
Proof. unfold od_del. rewrite list_elem_of_filter. naive_solver. Qed.

Lemma od_keys_del d r : od_keys (od_del r d) = filter (λ k, k ≠ r) (od_keys d).
Proof.
  unfold od_keys, od_del. induction d as [|[k0 v0] d IH]; [done|].
  rewrite fmap_cons, !filter_cons. cbn [fst].
  destruct (decide (k0 ≠ r)); [rewrite fmap_cons|]; by rewrite IH.
Qed.

Lemma is_dict_del d r : is_dict d → is_dict (od_del r d).
Proof. unfold is_dict. rewrite od_keys_del. apply NoDup_filter. Qed.

Lemma length_od_del d r :
  r ∈ od_keys d → (length (od_del r d) < length d)%nat.
Proof.
  intros [v Hv]%elem_of_od_keys. unfold od_del.
  apply (length_filter_lt _ _ (r, v)); [done | naive_solver].
Qed.

End odict_facts.

(** ** Facts about the main loop *)

Section loop_facts.
Implicit Types (d : graph) (r k x : string) (v : list string).

Lemma elem_of_ready_nodes d r : r ∈ ready_nodes d ↔ (r, []) ∈ d.
Proof.
  unfold ready_nodes. rewrite list_elem_of_fmap. split.
  - intros [[k v] [-> [Hlen Hin]%list_elem_of_filter]]. cbn in *.
    by apply nil_length_inv in Hlen as ->.
  - intros Hin. exists (r, []). split; [done|].
    apply list_elem_of_filter. done.
Qed.

Lemma insert_desc_perm key x l : insert_desc key x l ≡ₚ x :: l.
Proof.
  induction l as [|y l IH]; simpl; [done|].
  case_bool_decide; [|done]. rewrite IH. apply Permutation_swap.
Qed.

Lemma sort_desc_perm key l : sort_desc key l ≡ₚ l.
Proof.
  induction l as [|x l IH]; simpl; [done|].
  by rewrite insert_desc_perm, IH.
Qed.

Lemma picked_perm key ready : picked key ready ≡ₚ ready.
Proof. destruct key; simpl; [apply sort_desc_perm | done]. Qed.

Lemma weighted_order_nil fuel key acc :
  weighted_order fuel key [] acc = Some (Ok acc).
Proof. by destruct fuel. Qed.

Lemma weighted_order_cycle fuel key d acc :
  d ≠ [] → ready_nodes d = [] →
  weighted_order (S fuel) key d acc = Some (Raise cycle_error).
Proof.
  intros Hd Hr. destruct d as [|kv d]; [done|]. cbn [weighted_order].
  rewrite Hr. done.
Qed.

Lemma weighted_order_step fuel key d acc r rest :
  picked key (ready_nodes d) = r :: rest →
  weighted_order (S fuel) key d acc =
    weighted_order fuel key (remove_from_values r (od_del r d)) (acc ++ [r]).
Proof.
  intros Hp.
  assert (ready_nodes d ≠ []) as Hr.
  { intros Hr. pose proof (picked_perm key (ready_nodes d)) as Hperm.
    rewrite Hp, Hr in Hperm. by apply Permutation_nil_r in Hperm. }
  destruct d as [|kv d]; [done|]. cbn [weighted_order].
  rewrite decide_False by (by intros ?%nil_length_inv).
  by rewrite Hp.
Qed.

Lemma picked_ready key d r rest :
  picked key (ready_nodes d) = r :: rest → (r, []) ∈ d.
Proof.
  intros Hp. apply elem_of_ready_nodes.
  rewrite <- (picked_perm key), Hp. apply elem_of_cons. by left.
Qed.

(** [v.remove(r)] guarded by [except ValueError: pass]. *)
Lemma list_remove_cons r y v :
  default (y :: v) (list_remove r (y :: v)) =
    if decide (r = y) then v else y :: default v (list_remove r v).
Proof. simpl. case_decide; [done|]. by destruct (list_remove r v). Qed.

Lemma elem_of_list_remove_ne r x v :
  x ≠ r → x ∈ default v (list_remove r v) ↔ x ∈ v.
Proof.
  intros Hne. induction v as [|y v IH]; [done|].
  rewrite list_remove_cons. case_decide; subst.
  - rewrite elem_of_cons. naive_solver.
  - rewrite !elem_of_cons, IH. done.
Qed.

Lemma elem_of_list_remove r x v :
  x ∈ default v (list_remove r v) → x ∈ v.
Proof.
  induction v as [|y v IH]; [done|].
  rewrite list_remove_cons. case_decide; subst.
  - rewrite elem_of_cons. naive_solver.
  - rewrite !elem_of_cons. naive_solver.
Qed.

Lemma NoDup_list_remove r v : NoDup v → NoDup (default v (list_remove r v)).
Proof.
  induction v as [|y v IH]; [done|].
  rewrite list_remove_cons, NoDup_cons. intros [Hy Hv]. case_decide; [done|].
  apply NoDup_cons. split; [|by apply IH].
  intros ?%elem_of_list_remove. done.
Qed.

Lemma not_elem_of_list_remove r v : NoDup v → r ∉ default v (list_remove r v).
Proof.
  induction v as [|y v IH]; [intros _; apply not_elem_of_nil|].
  rewrite list_remove_cons, NoDup_cons. intros [Hy Hv]. case_decide; subst; [done|].
  apply not_elem_of_cons. split; [done | by apply IH].
Qed.

(** The graph after one round. *)
Lemma elem_of_round d r k v' :
  (k, v') ∈ remove_from_values r (od_del r d) ↔
    ∃ v, (k, v) ∈ d ∧ k ≠ r ∧ v' = default v (list_remove r v).
Proof.
  unfold remove_from_values. rewrite list_elem_of_fmap. split.
  - intros [[k0 v0] [[= -> ->] [? ?]%elem_of_od_del]]. by exists v0.
  - intros (v & Hin & Hne & ->). exists (k, v). split; [done|].
    by apply elem_of_od_del.
Qed.

Lemma od_keys_round d r :
  od_keys (remove_from_values r (od_del r d)) = od_keys (od_del r d).
Proof.
  unfold od_keys, remove_from_values. rewrite <- list_fmap_compose.
  by apply list_fmap_ext.
Qed.

Lemma elem_of_keys_round d r k :
  k ∈ od_keys (remove_from_values r (od_del r d)) ↔ k ∈ od_keys d ∧ k ≠ r.
Proof.
  rewrite od_keys_round, od_keys_del, list_elem_of_filter. naive_solver.
Qed.

Lemma is_dict_round d r :
  is_dict d → is_dict (remove_from_values r (od_del r d)).
Proof.
  unfold is_dict. rewrite od_keys_round. apply is_dict_del.
Qed.

Lemma length_round d r :
  r ∈ od_keys d →
  (length (remove_from_values r (od_del r d)) < length d)%nat.
Proof.
  intros Hr. unfold remove_from_values. rewrite length_fmap.
  by apply length_od_del.
Qed.

Lemma depends_round d r a b :
  depends (remove_from_values r (od_del r d)) a b → depends d a b.
Proof.
  intros (v' & (v & Hin & Hne & ->)%elem_of_round & Hb).
  exists v. split; [done|]. by eapply elem_of_list_remove.
Qed.

End loop_facts.

(** ** The loop on closed graphs *)

Section resolver_facts.
Implicit Types (d : graph) (r k x : string) (v : list string).

Lemma is_dict_unique {V} (d : list (string * V)) k (v1 v2 : V) :
  is_dict d → (k, v1) ∈ d → (k, v2) ∈ d → v1 = v2.
Proof.
  intros Hd H1 H2. apply (od_get_elem _ _ _ Hd) in H1, H2. congruence.
Qed.

(** Walking along dependencies in an acyclic closed graph never meets a
    node twice, so it ends in a node without dependencies. *)
Lemma descend d n visited x :
  closed d → acyclic d →
  (length (od_keys d) ≤ n + length visited)%nat →
  NoDup visited → (∀ z, z ∈ visited → z ∈ od_keys d) →
  x ∈ od_keys d → (∀ z, z ∈ visited → tc (depends d) z x) →
  ∃ r, (r, []) ∈ d.
Proof.
  intros Hcl Hac. revert visited x.
  induction n as [|n IH]; intros visited x Hlen Hnd Hsub Hx Htc.
  - assert (x ∉ visited) by (intros ?%Htc; by eapply Hac).
    assert (NoDup (x :: visited)) as Hnd' by (by apply NoDup_cons).
    apply NoDup_submseteq with (k := od_keys d) in Hnd'.
    + apply submseteq_length in Hnd'. simpl in *. lia.
    + intros z [->|?]%elem_of_cons; auto.
  - assert (x ∉ visited) by (intros ?%Htc; by eapply Hac).
    apply elem_of_od_keys in Hx as Hx'.
    destruct Hx' as [[|y v] Hv]; [by exists x|].
    assert (depends d x y) as Hxy.
    { exists (y :: v). split; [done|]. apply elem_of_cons; by left. }
    apply (IH (x :: visited) y).
    + simpl. lia.
    + by apply NoDup_cons.
    + intros z [->|?]%elem_of_cons; auto.
    + eapply Hcl; [done|]. apply elem_of_cons; by left.
    + intros z [->|?]%elem_of_cons; [by apply tc_once|].
      eapply tc_r; eauto.
Qed.

Lemma exists_ready d : closed d → acyclic d → d ≠ [] → ∃ r, (r, []) ∈ d.
Proof.
  intros Hcl Hac Hd. destruct d as [|[k v] d]; [done|].
  apply (descend _ (length (od_keys ((k, v) :: d))) [] k); try done.
  - simpl; lia.
  - constructor.
  - intros z ?%elem_of_nil. done.
  - unfold od_keys. rewrite fmap_cons. apply elem_of_cons; by left.
  - intros z ?%elem_of_nil. done.
Qed.

Lemma closed_round d r :
  is_dict d → closed d → simple_lists d →
  closed (remove_from_values r (od_del r d)).
Proof.
  intros Hd Hcl Hsl k v' x (v & Hin & Hne & ->)%elem_of_round Hx.
  apply elem_of_keys_round. split.
  - eapply Hcl; [done|]. by eapply elem_of_list_remove.
  - intros ->. by eapply not_elem_of_list_remove; [eapply Hsl|].
Qed.

Lemma simple_lists_round d r :
  simple_lists d → simple_lists (remove_from_values r (od_del r d)).
Proof.
  intros Hsl k v' (v & Hin & Hne & ->)%elem_of_round.
  apply NoDup_list_remove. by eapply Hsl.
Qed.

Lemma acyclic_round d r :
  acyclic d → acyclic (remove_from_values r (od_del r d)).
Proof.
  intros Hac n Hn. apply (Hac n).
  eapply tc_congruence with (f := id); [|done].
  intros a b. apply depends_round.
Qed.

(** On a closed acyclic graph without repeated dependencies the loop ends
    with every key emitted once, dependencies first. *)
Lemma weighted_order_sound fuel key d acc :
  is_dict d → closed d → simple_lists d → acyclic d →
  (length d ≤ fuel)%nat →
  ∃ o, weighted_order fuel key d acc = Some (Ok (acc ++ o)) ∧
       NoDup o ∧ (∀ x, x ∈ o ↔ x ∈ od_keys d) ∧
       (∀ a b, depends d a b → before o b a).
Proof.
  revert d acc.
  induction fuel as [|fuel IH]; intros d acc Hdict Hcl Hsl Hac Hlen.
  { destruct d; [|simpl in Hlen; lia]. exists [].
    rewrite app_nil_r. split_and!; [done|constructor|done|].
    intros a b (v & []%elem_of_nil & _). }
  destruct (decide (d = [])) as [->|Hne].
  { exists []. rewrite app_nil_r. split_and!; [done|constructor|done|].
    intros a b (v & []%elem_of_nil & _). }
  destruct (exists_ready d) as [r0 Hr0]; [done..|].
  destruct (picked key (ready_nodes d)) as [|r rest] eqn:Hp.
  { exfalso. apply elem_of_ready_nodes in Hr0.
    rewrite <- (picked_perm key), Hp in Hr0. by apply elem_of_nil in Hr0. }
  rewrite (weighted_order_step _ _ _ _ _ _ Hp).
  pose proof (picked_ready _ _ _ _ Hp) as Hr.
  assert (r ∈ od_keys d) as Hrk by (apply elem_of_od_keys; eauto).
  destruct (IH (remove_from_values r (od_del r d)) (acc ++ [r]))
    as (o & Ho & Hnd & Hmem & Hbef).
  { by apply is_dict_round. }
  { by apply closed_round. }
  { by apply simple_lists_round. }
  { by apply acyclic_round. }
  { pose proof (length_round d r Hrk). lia. }
  exists (r :: o). split_and!.
  - rewrite Ho, <- app_assoc. done.
  - apply NoDup_cons. split; [|done].
    intros [_ ?]%Hmem%elem_of_keys_round. done.
  - intros x. rewrite elem_of_cons, Hmem, elem_of_keys_round.
    destruct (decide (x = r)); naive_solver.
  - intros a b (v & Hav & Hbv).
    assert (a ≠ r) as Har.
    { intros ->. rewrite (is_dict_unique d r v [] Hdict Hav Hr) in Hbv.
      by apply elem_of_nil in Hbv. }
    destruct (decide (b = r)) as [->|Hbr].
    + assert (a ∈ o) as (l2 & l3 & ->)%list_elem_of_split.
      { apply Hmem, elem_of_keys_round. split; [|done].
        apply elem_of_od_keys; eauto. }
      by exists [], l2, l3.
    + destruct (Hbef a b) as (l1 & l2 & l3 & ->).
      { exists (default v (list_remove r v)). split.
        - apply elem_of_round. by exists v.
        - by apply elem_of_list_remove_ne. }
      by exists (r :: l1), l2, l3.
Qed.

(** If some set of nodes is closed under "has a dependency inside the
    set", none of them ever gets ready and the loop raises. *)
Lemma weighted_order_cyclic fuel key d acc (C : string → Prop) :
  is_dict d → (∃ x, C x) →
  (∀ x, C x → ∃ v y, (x, v) ∈ d ∧ y ∈ v ∧ C y) →
  (length d ≤ fuel)%nat →
  weighted_order fuel key d acc = Some (Raise cycle_error).
Proof.
  revert d acc.
  induction fuel as [|fuel IH]; intros d acc Hdict [x0 Hx0] HC Hlen.
  { destruct (HC x0 Hx0) as (v & y & Hin & _).
    destruct d; [by apply elem_of_nil in Hin | simpl in Hlen; lia]. }
  assert (d ≠ []) as Hne.
  { intros ->. destruct (HC x0 Hx0) as (v & y & Hin & _).
    by apply elem_of_nil in Hin. }
  destruct (picked key (ready_nodes d)) as [|r rest] eqn:Hp.
  { apply weighted_order_cycle; [done|].
    apply Permutation_nil_r. by rewrite <- (picked_perm key), Hp. }
  rewrite (weighted_order_step _ _ _ _ _ _ Hp).
  pose proof (picked_ready _ _ _ _ Hp) as Hr.
  assert (¬ C r) as HCr.
  { intros (v & y & Hin & Hy & _)%HC.
    rewrite (is_dict_unique d r v [] Hdict Hin Hr) in Hy.
    by apply elem_of_nil in Hy. }
  apply IH.
  - by apply is_dict_round.
  - eauto.
  - intros x Hx. destruct (HC x Hx) as (v & y & Hin & Hy & HCy).
    exists (default v (list_remove r v)), y. split_and!; [|
      apply elem_of_list_remove_ne; [|done] | done].
    + apply elem_of_round. exists v. split_and!; [done| |done].
      intros ->. done.
    + intros ->. done.
  - assert (r ∈ od_keys d) as Hrk by (apply elem_of_od_keys; eauto).
    pose proof (length_round d r Hrk). lia.
Qed.

End resolver_facts.

(** ** Facts about the normalisation of [deps] *)

Section normalize_facts.
Implicit Types (d p : graph) (k x : string) (v : list string).

Lemma od_get_app {V} (p q : list (string * V)) k :
  od_get k (p ++ q) =
    match od_get k p with Some v => Some v | None => od_get k q end.
Proof.
  induction p as [|[k0 v0] p IH]; simpl; [done|]. by case_decide.
Qed.

Lemma od_get_add_missing d x k :
  od_get k (add_missing d x) =
    match od_get k d with
    | Some v => Some v
    | None => if decide (k = x) then Some [] else None
    end.
Proof.
  unfold add_missing. destruct (od_get x d) as [vx|] eqn:Hx.
  - destruct (od_get k d) eqn:Hk; [done|].
    case_decide; [congruence | done].
  - rewrite od_get_set. case_decide; [subst; by rewrite Hx|].
    by destruct (od_get k d).
Qed.

Lemma od_get_foldl_add_missing d l k :
  od_get k (foldl add_missing d l) =
    match od_get k d with
    | Some v => Some v
    | None => if decide (k ∈ l) then Some [] else None
    end.
Proof.
  revert d. induction l as [|x l IH]; intros d; cbn [foldl].
  - destruct (od_get k d); [done|].
    by destruct (decide (k ∈ [])) as [?%elem_of_nil|].
  - rewrite IH, od_get_add_missing. destruct (od_get k d); [done|].
    destruct (decide (k = x)) as [->|Hne].
    + rewrite decide_True; [done | apply elem_of_cons; by left].
    + destruct (decide (k ∈ l)).
      * rewrite decide_True; [done | apply elem_of_cons; by right].
      * rewrite decide_False; [done | by apply not_elem_of_cons].
Qed.

Lemma is_dict_add_missing d x : is_dict d → is_dict (add_missing d x).
Proof.
  unfold add_missing. destruct (od_get x d); [done|]. apply is_dict_set.
Qed.

Lemma is_dict_foldl_add_missing d l :
  is_dict d → is_dict (foldl add_missing d l).
Proof.
  revert d. induction l as [|x l IH]; intros d Hd; simpl; [done|].
  by apply IH, is_dict_add_missing.
Qed.

Lemma is_dict_normalize_aux d p : is_dict d → is_dict (foldl normalize_item d p).
Proof.
  revert d. induction p as [|[k v] p IH]; intros d Hd; simpl; [done|].
  apply IH. unfold normalize_item.
  by apply is_dict_foldl_add_missing, is_dict_set.
Qed.

Lemma is_dict_normalize p : is_dict (normalize p).
Proof. apply is_dict_normalize_aux. constructor. Qed.

Lemma elem_of_listed p x : x ∈ listed p ↔ ∃ k v, (k, v) ∈ p ∧ x ∈ v.
Proof.
  unfold listed. rewrite list_elem_of_join. split.
  - intros (v & Hx & [[k v'] [-> Hin]]%list_elem_of_fmap). by exists k, v'.
  - intros (k & v & Hin & Hx). exists v. split; [done|].
    apply list_elem_of_fmap. by exists (k, v).
Qed.

Lemma listed_snoc p k v : listed (p ++ [(k, v)]) = listed p ++ v.
Proof.
  unfold listed. rewrite fmap_app, join_app. simpl. by rewrite app_nil_r.
Qed.

Lemma od_get_normalize p k :
  is_dict p →
  od_get k (normalize p) =
    match od_get k p with
    | Some v => Some v
    | None => if decide (k ∈ listed p) then Some [] else None
    end.
Proof.
  unfold normalize. induction p as [|[k0 v0] p IH] using rev_ind; intros Hp.
  { cbn [foldl od_get]. by destruct (decide (k ∈ listed [])) as [?%elem_of_nil|]. }
  unfold is_dict, od_keys in Hp. rewrite fmap_app in Hp.
  apply NoDup_app in Hp as (Hp & Hk0 & _).
  assert (od_get k0 p = None) as Hk0p.
  { apply od_get_None. intros Hin. apply (Hk0 _ Hin).
    apply elem_of_cons; by left. }
  rewrite foldl_snoc. unfold normalize_item at 1. cbn [fst snd].
  rewrite od_get_foldl_add_missing, od_get_set, od_get_app, listed_snoc.
  cbn [od_get]. destruct (decide (k = k0)) as [->|Hne].
  - by rewrite Hk0p.
  - rewrite (IH Hp). destruct (od_get k p); [done|].
    destruct (decide (k ∈ listed p)).
    + rewrite decide_True; [done | apply elem_of_app; by left].
    + destruct (decide (k ∈ v0)).
      * rewrite decide_True; [done | apply elem_of_app; by right].
      * rewrite decide_False; [done|]. rewrite elem_of_app. naive_solver.
Qed.

Lemma elem_of_normalize p k v :
  is_dict p →
  (k, v) ∈ normalize p ↔
    (k, v) ∈ p ∨ (v = [] ∧ (k ∉ od_keys p) ∧ k ∈ listed p).
Proof.
  intros Hp. split.
  - intros Hin%(od_get_elem _ _ _ (is_dict_normalize p)).
    rewrite (od_get_normalize _ _ Hp) in Hin.
    destruct (od_get k p) as [v'|] eqn:Hk.
    + left. simplify_eq. by apply od_get_Some_elem.
    + right. apply od_get_None in Hk. case_decide; by simplify_eq.
  - intros H. apply od_get_Some_elem. rewrite (od_get_normalize _ _ Hp).
    destruct H as [Hin|(-> & Hk & Hl)].
    + by rewrite (od_get_elem _ _ _ Hp Hin).
    + apply od_get_None in Hk. rewrite Hk. by rewrite decide_True.
Qed.

Lemma depends_normalize p a b :
  is_dict p → depends (normalize p) a b ↔ depends p a b.
Proof.
  intros Hp. unfold depends. split.
  - intros (v & [Hin|(-> & _)]%(elem_of_normalize _ _ _ Hp) & Hb); [eauto|].
    by apply elem_of_nil in Hb.
  - intros (v & Hin & Hb). exists v. split; [|done].
    apply elem_of_normalize; auto.
Qed.

Lemma od_keys_normalize p k :
  is_dict p → k ∈ od_keys (normalize p) ↔ is_node p k.
Proof.
  intros Hp. unfold is_node. rewrite <- elem_of_listed, elem_of_od_keys. split.
  - intros (v & [Hin|(-> & _ & ?)]%(elem_of_normalize _ _ _ Hp)); [|by right].
    left. apply elem_of_od_keys. eauto.
  - destruct (decide (k ∈ od_keys p)) as [Hk|Hk].
    + intros _. apply elem_of_od_keys in Hk as [v Hv]. exists v.
      apply elem_of_normalize; auto.
    + intros [?|Hl]; [done|]. exists []. apply elem_of_normalize; auto.
Qed.

Lemma closed_normalize p : is_dict p → closed (normalize p).
Proof.
  intros Hp k v x [Hin|(-> & _)]%(elem_of_normalize _ _ _ Hp) Hx.
  - apply od_keys_normalize; [done|]. right. eauto.
  - by apply elem_of_nil in Hx.
Qed.

Lemma simple_lists_normalize p :
  is_dict p → simple_lists p → simple_lists (normalize p).
Proof.
  intros Hp Hsl k v [Hin|(-> & _)]%(elem_of_normalize _ _ _ Hp).
  - by eapply Hsl.
  - constructor.
Qed.

Lemma tc_depends_normalize p a b :
  is_dict p → tc (depends (normalize p)) a b ↔ tc (depends p) a b.
Proof.
  intros Hp. split; apply tc_congruence with (f := id); intros x y;
    by apply depends_normalize.
Qed.

Lemma acyclic_normalize p : is_dict p → acyclic p → acyclic (normalize p).
Proof.
  intros Hp Hac n Hn. apply (Hac n). by apply (tc_depends_normalize p).
Qed.

Lemma cyclic_normalize p : is_dict p → cyclic p → cyclic (normalize p).
Proof. intros Hp [n Hn]. exists n. by apply tc_depends_normalize. Qed.

End normalize_facts.

(** ** The branch-cost pass never fails on a complete order *)

Section cost_facts.
Implicit Types (d : graph) (m : gmap string (gset string)).

Lemma allDeps_step_ok n m n2 :
  n2 ∈ dom m →
  ∃ m', allDeps_step n m n2 = Ok m' ∧ dom m' = dom m.
Proof.
  intros [s Hs]%elem_of_dom. unfold allDeps_step. rewrite Hs.
  eexists. split; [done|]. rewrite dom_insert_L.
  apply elem_of_dom_2 in Hs. set_solver.
Qed.

Lemma allDeps_inner_ok n m l :
  (∀ x, x ∈ l → x ∈ dom m) →
  ∃ m', rfold (allDeps_step n) m l = Ok m' ∧ dom m' = dom m.
Proof.
  revert m. induction l as [|x l IH]; intros m Hl; simpl; [eauto|].
  destruct (allDeps_step_ok n m x) as (m1 & -> & Hdom).
  { apply Hl, elem_of_cons. by left. }
  simpl. destruct (IH m1) as (m' & -> & Hdom').
  { intros y Hy. rewrite Hdom. apply Hl, elem_of_cons. by right. }
  exists m'. split; [done | congruence].
Qed.

Lemma allDeps_outer_ok d m l :
  closed d → (∀ k, k ∈ od_keys d → k ∈ dom m) →
  ∃ m', rfold (λ a n, rfold (allDeps_step n) a (default [] (od_get n d))) m l
          = Ok m' ∧ dom m' = dom m.
Proof.
  intros Hcl. revert m. induction l as [|n l IH]; intros m Hm; simpl; [eauto|].
  destruct (allDeps_inner_ok n m (default [] (od_get n d))) as (m1 & -> & Hdom).
  { intros x Hx. apply Hm. destruct (od_get n d) as [v|] eqn:Hn; simpl in Hx.
    - eapply Hcl; [by apply od_get_Some_elem|done].
    - by apply elem_of_nil in Hx. }
  simpl. destruct (IH m1) as (m' & -> & Hdom').
  { intros k Hk. rewrite Hdom. by apply Hm. }
  exists m'. split; [done | congruence].
Qed.

Lemma dom_allDeps_init_aux m order :
  dom (foldl (λ m n, <[n := set_of_str n]> m) m order) = dom m ∪ list_to_set order.
Proof.
  revert m. induction order as [|n order IH]; intros m; simpl.
  - set_solver.
  - rewrite IH, dom_insert_L. set_solver.
Qed.

Lemma dom_allDeps_init order : dom (allDeps_init order) = list_to_set order.
Proof. unfold allDeps_init. rewrite dom_allDeps_init_aux. set_solver. Qed.

Lemma allDeps_of_ok d order :
  closed d → (∀ k, k ∈ od_keys d → k ∈ order) →
  ∃ m, allDeps_of d order = Ok m ∧ dom m = list_to_set order.
Proof.
  intros Hcl Hord. unfold allDeps_of.
  destruct (allDeps_outer_ok d (allDeps_init order) (reverse order))
    as (m & Hm & Hdom); [done| |].
  - intros k Hk. rewrite dom_allDeps_init. apply elem_of_list_to_set. auto.
  - exists m. split; [done|]. by rewrite Hdom, dom_allDeps_init.
Qed.

End cost_facts.

(** ** The resolver as a whole *)

Section toposort_facts.
Implicit Types (cost : option (gmap string Z)) (c : gmap string Z).

Lemma totalCost_ok (deps0 : graph) c :
  is_dict deps0 → simple_lists deps0 → acyclic deps0 →
  ∃ tc, totalCost deps0 c = Some (Ok tc).
Proof.
  intros Hd Hsl Hac. unfold totalCost.
  pose proof (is_dict_normalize deps0) as Hd1.
  destruct (weighted_order_sound (length (normalize (normalize deps0))) None
              (normalize (normalize deps0)) [])
    as (order & -> & _ & Hmem & _).
  { apply is_dict_normalize. }
  { by apply closed_normalize. }
  { by apply simple_lists_normalize, simple_lists_normalize. }
  { by apply acyclic_normalize, acyclic_normalize. }
  { done. }
  destruct (allDeps_of_ok (normalize deps0) order) as (m & Hm & _).
  { by apply closed_normalize. }
  { intros k Hk. apply Hmem. apply od_keys_normalize; [done|]. by left. }
  simpl. rewrite Hm. simpl. eauto.
Qed.

(** X1. For a dictionary whose lists name no node twice and whose graph has
    no cycle, the resolver returns an order, with or without costs: every
    node, key or dependency, occurs in it exactly once, and every node
    comes after all the dependencies its list names. *)
Theorem toposort_sound (deps0 : graph) cost :
  is_dict deps0 → simple_lists deps0 → acyclic deps0 →
  ∃ order, toposort deps0 cost = Some (Ok order) ∧
    NoDup order ∧
    (∀ n, n ∈ order ↔ is_node deps0 n) ∧
    (∀ a b, depends deps0 a b → before order b a).
Proof.
  intros Hd Hsl Hac.
  assert (∀ key, ∃ order,
    weighted_order (length (normalize deps0)) key (normalize deps0) []
      = Some (Ok order) ∧ NoDup order ∧
    (∀ n, n ∈ order ↔ is_node deps0 n) ∧
    (∀ a b, depends deps0 a b → before order b a)) as Hloop.
  { intros key.
    destruct (weighted_order_sound (length (normalize deps0)) key
                (normalize deps0) []) as (o & Ho & Hnd & Hmem & Hbef).
    { apply is_dict_normalize. }
    { by apply closed_normalize. }
    { by apply simple_lists_normalize. }
    { by apply acyclic_normalize. }
    { done. }
    exists o. split_and!; [done|done| |].
    - intros n. by rewrite Hmem, od_keys_normalize.
    - intros a b Hab. by apply Hbef, depends_normalize. }
  unfold toposort. destruct cost as [c|]; [|apply Hloop].
  destruct (totalCost_ok deps0 c) as [tc ->]; [done..|]. apply Hloop.
Qed.

(** A graph with a cycle makes the resolver raise, with or without costs. *)
Lemma normalize_cyclic_raises (deps0 : graph) key fuel :
  is_dict deps0 → cyclic deps0 →
  (length (normalize deps0) ≤ fuel)%nat →
  weighted_order fuel key (normalize deps0) [] = Some (Raise cycle_error).
Proof.
  intros Hd [n0 Hn0] Hlen.
  apply (weighted_order_cyclic _ _ _ _ (λ x, tc (depends deps0) x x)).
  - apply is_dict_normalize.
  - eauto.
  - intros x Hx.
    assert (∃ y, depends deps0 x y ∧ rtc (depends deps0) y x) as (y & Hxy & Hyx).
    { inversion Hx as [? ? Hxx|? y ? Hxy Hyx]; subst.
      - exists x. split; [done | apply rtc_refl].
      - exists y. split; [done | by apply tc_rtc]. }
    destruct Hxy as (v & Hin & Hy). exists v, y. split_and!; [|done|].
    + apply elem_of_normalize; auto.
    + eapply tc_rtc_l; [exact Hyx|]. apply tc_once. by exists v.
  - done.
Qed.

End toposort_facts.

(** ** The claims about the resolver *)

Section toposort_claims.

(** Membership in a concrete list, decided by evaluation. *)
Local Ltac by_compute := refine (bool_decide_unpack _ _); vm_compute; exact I.

(** C2. For every dependency dictionary whose graph has a cycle, with or
    without a cost mapping, [toposort] raises the cycle error to its caller:
    the result is the exception and carries no order at all. *)
Theorem toposort_cyclic_raises (deps0 : graph) (cost : option (gmap string Z)) :
  is_dict deps0 → cyclic deps0 →
  toposort deps0 cost = Some (Raise cycle_error).
Proof.
  intros Hd Hcyc. unfold toposort. destruct cost as [c|].
  - unfold totalCost.
    rewrite (normalize_cyclic_raises (normalize deps0)); [done| | |done].
    + apply is_dict_normalize.
    + by apply cyclic_normalize.
  - by apply normalize_cyclic_raises.
Qed.

Lemma toposort_cyclic_raises_witness :
  is_dict two_cycle_deps ∧ cyclic two_cycle_deps ∧
  toposort two_cycle_deps None = Some (Raise cycle_error).
Proof.
  assert (is_dict two_cycle_deps) as Hd by by_compute.
  assert (cyclic two_cycle_deps) as Hc.
  { exists "a". apply tc_l with "b"; [|apply tc_once].
    - exists ["b"]. split; by_compute.
    - exists ["a"]. split; by_compute. }
  split_and!; [exact Hd | exact Hc |].
  exact (toposort_cyclic_raises two_cycle_deps None Hd Hc).
Defined.

(** C3. For the dictionary and the costs of the docstring the resolver
    returns ['d','b','c','e','a']: the order starts with 'd' and 'b' comes
    immediately after it. *)
Theorem toposort_docstring_example :
  toposort example_deps (Some example_cost)
    = Some (Ok ["d"; "b"; "c"; "e"; "a"]).
Proof. vm_compute. reflexivity. Qed.

Lemma is_branch_cost_unique (deps : graph) cost n z1 z2 :
  is_branch_cost deps cost n z1 → is_branch_cost deps cost n z2 → z1 = z2.
Proof.
  intros (s1 & H1 & ->) (s2 & H2 & ->).
  assert (s1 = s2) as ->; [|done].
  apply set_eq. intros x. by rewrite H1, H2.
Qed.

Lemma depends_repeated_deps a b :
  depends repeated_deps a b → a = "a" ∧ b = "b".
Proof.
  intros (v & Hin & Hb). unfold repeated_deps in Hin.
  apply list_elem_of_singleton in Hin. simplify_eq.
  split; [done|]. set_solver.
Qed.

(** C1. The dictionary {'a': ['b', 'b']} describes the graph a → b, which
    has no cycle, and yet the resolver raises its cycle error, with or
    without costs: [v.remove] takes away one of the two entries for 'b'
    only, so 'a' never becomes ready. *)
Theorem toposort_repeated_dependency :
  is_dict repeated_deps ∧ acyclic repeated_deps ∧
  toposort repeated_deps None = Some (Raise cycle_error) ∧
  ∀ cost, toposort repeated_deps (Some cost) = Some (Raise cycle_error).
Proof.
  split_and!.
  - by_compute.
  - intros n Hn. inversion Hn as [? ? H|? y ? H Hy]; subst.
    + by apply depends_repeated_deps in H as [-> ?].
    + apply depends_repeated_deps in H as [-> ->].
      inversion Hy as [? ? H|? y ? H _]; subst;
        by apply depends_repeated_deps in H as [? _].
  - vm_compute. reflexivity.
  - intros cost. vm_compute. reflexivity.
Qed.

Lemma no_depends_long_name_deps a b : ¬ depends long_name_deps a b.
Proof.
  intros (v & Hin & Hb). unfold long_name_deps in Hin.
  apply elem_of_cons in Hin as [?|Hin%list_elem_of_singleton];
    simplify_eq; by apply elem_of_nil in Hb.
Qed.

Lemma branch_cost_long_name_deps n :
  is_branch_cost long_name_deps long_name_cost n
    (default 0 (long_name_cost !! n)).
Proof.
  exists {[ n ]}. split.
  - intros x. rewrite elem_of_singleton. unfold downstream.
    split; [intros ->; apply rtc_refl|].
    intros Hx. inversion Hx as [|? y ? H _]; subst; [done|].
    by apply no_depends_long_name_deps in H.
  - unfold sum_cost. rewrite elements_singleton. simpl. lia.
Qed.

(** C4. For the two independent nodes 'z' (cost 1) and 'xy' (cost 5) the
    branch cost of 'xy' is 5, the cost of its downstream set {'xy'}; the
    resolver computes 0 for it, the cost of the characters 'x' and 'y' that
    [set(n)] yields, and so emits 'z' before the costlier 'xy'. *)
Theorem toposort_long_name_branch_cost :
  is_branch_cost long_name_deps long_name_cost "xy" 5 ∧
  is_branch_cost long_name_deps long_name_cost "z" 1 ∧
  (∃ tc, totalCost long_name_deps long_name_cost = Some (Ok tc) ∧
         tc !! "xy" = Some 0 ∧ tc !! "z" = Some 1 ∧
         ¬ is_branch_cost long_name_deps long_name_cost "xy" (cost_key tc "xy")) ∧
  toposort long_name_deps (Some long_name_cost) = Some (Ok ["z"; "xy"]).
Proof.
  split_and!.
  - apply (branch_cost_long_name_deps "xy").
  - apply (branch_cost_long_name_deps "z").
  - eexists. split_and!; [vm_compute; reflexivity | by vm_compute..|].
    intros H.
    pose proof (is_branch_cost_unique _ _ _ _ _ H
                  (branch_cost_long_name_deps "xy")) as Heq.
    vm_compute in Heq. discriminate.
  - vm_compute. reflexivity.
Qed.

End toposort_claims.

(** ** The registry: configuration and activation *)

Import Manager.

(** Running the methods symbolically. *)
Ltac run :=
  cbv beta iota delta
    [bind ret raise lift gets modify try_except tree_get table_get
     loaded_module store_module logMsg logExc print_logMsg printExc emit
     loaded_at] in *.

(** One step of a symbolic run of the method in [H]: case analysis on the
    innermost value the run inspects next. *)
Ltac inner_in H :=
  match type of H with
  | context [od_get ?k ?d] =>
      lazymatch d with
      | context [match _ with _ => _ end] => fail
      | _ => destruct (od_get k d) eqn:?
      end
  | context [@lookup _ _ (gmap _ _) _ ?k ?d] =>
      lazymatch d with
      | context [match _ with _ => _ end] => fail
      | _ => destruct (d !! k) eqn:?
      end
  | context [match ?x with _ => _ end] =>
      lazymatch x with
      | context [match _ with _ => _ end] => fail
      | _ => destruct x eqn:?
      end
  | context [if ?x then _ else _] =>
      lazymatch x with
      | context [match _ with _ => _ end] => fail
      | _ => destruct x eqn:?
      end
  end.

Ltac known_in H :=
  match goal with
  | E : ?x = _ |- _ =>
      tryif constr_eq E H then fail
      else lazymatch type of H with
           | context [x] => rewrite E in H
           end
  end.

Ltac exec H :=
  repeat (first [ progress known_in H | inner_in H ]; cbn in *;
          try discriminate).

Section lifecycle_claims.

Implicit Types (st : manager) (m : module_inst).

Lemma loaded_at_Some st base key m :
  loaded_at st base key = Some m →
  ∃ tb, tree_loaded st !! base = Some tb ∧ tb !! key = Some m.
Proof.
  unfold loaded_at. destruct (tree_loaded st !! base) as [tb|]; [eauto|done].
Qed.

(** C5. A module loaded in the hardware category that has left the state
    'deactivated' makes [activateModule] raise: the tree has no 'start'
    table for hardware, and looking the startup set up is a [KeyError];
    nothing is logged and no hook runs. *)
Theorem activateModule_hardware_raises st key m :
  tree_start st !! "hardware" = None →
  loaded_at st "hardware" key = Some m →
  mod_state m ≠ "deactivated" →
  activateModule "hardware" key st = (Raise (KeyError "hardware"), st).
Proof.
  intros Hstart (tb & Htb & Hm)%loaded_at_Some Hstate.
  unfold activateModule. run. rewrite Htb, Hm.
  rewrite bool_decide_eq_true_2 by done. by rewrite Hstart.
Qed.

Lemma activateModule_hardware_raises_witness :
  tree_start pump_manager !! "hardware" = None ∧
  loaded_at pump_manager "hardware" "pump" = Some idle_pump ∧
  mod_state idle_pump ≠ "deactivated" ∧
  activateModule "hardware" "pump" pump_manager
    = (Raise (KeyError "hardware"), pump_manager).
Proof.
  assert (tree_start pump_manager !! "hardware" = None) as H1
    by (vm_compute; reflexivity).
  assert (loaded_at pump_manager "hardware" "pump" = Some idle_pump) as H2
    by (vm_compute; reflexivity).
  assert (mod_state idle_pump ≠ "deactivated") as H3 by (simpl; discriminate).
  split_and!; [exact H1 | exact H2 | exact H3 |].
  exact (activateModule_hardware_raises pump_manager "pump" idle_pump H1 H2 H3).
Defined.

(** Where the category has a startup table, as gui and logic have, the
    three cases of [activateModule] are as the specification describes. *)
Lemma activateModule_startup_noop st base key m start :
  loaded_at st base key = Some m → mod_state m ≠ "deactivated" →
  tree_start st !! base = Some start → is_Some (start !! key) →
  activateModule base key st = (Ok tt, st).
Proof.
  intros (tb & Htb & Hm)%loaded_at_Some Hstate Hstart Hkey.
  unfold activateModule, table_mem. run. rewrite Htb, Hm.
  rewrite bool_decide_eq_true_2 by done. rewrite Hstart.
  by rewrite bool_decide_eq_true_2.
Qed.

Lemma activateModule_not_startup st base key m start :
  loaded_at st base key = Some m → mod_state m ≠ "deactivated" →
  tree_start st !! base = Some start → start !! key = None →
  activateModule base key st
    = (Ok tt, add_log (LogMsg "error" "module not deactivated anymore") st).
Proof.
  intros (tb & Htb & Hm)%loaded_at_Some Hstate Hstart Hkey.
  unfold activateModule, table_mem. run. rewrite Htb, Hm.
  rewrite bool_decide_eq_true_2 by done. rewrite Hstart.
  rewrite bool_decide_eq_false_2 by (rewrite Hkey; by intros [??]).
  rewrite Htb, Hm. by rewrite bool_decide_eq_true_2.
Qed.

Lemma activateModule_deactivated st base key m :
  loaded_at st base key = Some m → mod_state m = "deactivated" →
  ∃ st', activateModule base key st = (Ok tt, st') ∧
    hook_calls st' = hook_calls st ++ [mod_id m] ∧
    match mod_activate m with
    | Ok s => loaded_at st' base key = Some (with_state m s) ∧ log st' = log st
    | Raise e =>
        tree_loaded st' = tree_loaded st ∧
        log st' = log st ++ [LogExc "error" "error during activation:"]
    end.
Proof.
  intros (tb & Htb & Hm)%loaded_at_Some Hstate.
  unfold activateModule, activate. run. rewrite Htb, Hm.
  rewrite bool_decide_eq_false_2 by (intros H; by apply H).
  rewrite Htb, Hm.
  rewrite bool_decide_eq_false_2 by (intros H; by apply H).
  cbn. rewrite Htb, Hm. cbn.
  destruct (mod_activate m) as [s|e]; cbn.
  - rewrite Htb. cbn. eexists. split_and!; [done|done| |done].
    cbn. by rewrite !lookup_insert_eq.
  - eexists. split_and!; done.
Qed.

(** C7. In each of the three categories [configureModule] raises the
    duplicate-name error for an instance name that the loaded table of the
    category already holds, and for any other category it raises the
    unknown-category error; in both cases nothing but the log line of the
    first statement is changed, the loaded tables stay as they were. *)
Theorem configureModule_rejects
    (moduleObject : string → option pyattr)
    (baseName className instanceName : string) (configuration : pyval) st :
  (∀ tb, baseName ∈ categories →
         tree_loaded st !! baseName = Some tb → is_Some (tb !! instanceName) →
     configureModule moduleObject baseName className instanceName configuration st
       = (Raise (Exception "already exists with name"),
          add_log (PrintLogMsg "Configuring") st) ∧
     tree_loaded (add_log (PrintLogMsg "Configuring") st) = tree_loaded st) ∧
  (baseName ∉ categories →
     configureModule moduleObject baseName className instanceName configuration st
       = (Raise (Exception "You are trying to cheat the system with some category"),
          add_log (PrintLogMsg "Configuring") st) ∧
     tree_loaded (add_log (PrintLogMsg "Configuring") st) = tree_loaded st).
Proof.
  split.
  - intros tb Hcat Htb Hname. split; [|done].
    unfold configureModule, table_mem. run.
    rewrite bool_decide_eq_true_2 by done. cbn. rewrite Htb.
    by rewrite bool_decide_eq_true_2.
  - intros Hcat. split; [|done].
    unfold configureModule. run.
    by rewrite bool_decide_eq_false_2.
Qed.

Lemma configureModule_rejects_witness :
  configureModule (λ _, None) "hardware" "EdwardsPump" "pump" PyNone pump_manager
    = (Raise (Exception "already exists with name"),
       add_log (PrintLogMsg "Configuring") pump_manager) ∧
  configureModule (λ _, None) "driver" "EdwardsPump" "pump" PyNone pump_manager
    = (Raise (Exception "You are trying to cheat the system with some category"),
       add_log (PrintLogMsg "Configuring") pump_manager).
Proof.
  split.
  - refine (proj1 (proj1 (configureModule_rejects (λ _, None) "hardware"
              "EdwardsPump" "pump" PyNone pump_manager)
              {[ "pump" := idle_pump ]} _ _ _)).
    + refine (bool_decide_unpack _ _); vm_compute; exact I.
    + vm_compute; reflexivity.
    + exists idle_pump. vm_compute; reflexivity.
  - refine (proj1 (proj2 (configureModule_rejects (λ _, None) "driver"
              "EdwardsPump" "pump" PyNone pump_manager) _)).
    refine (bool_decide_unpack _ _); vm_compute; exact I.
Defined.

End lifecycle_claims.

(** ** The registry: wiring *)

Section wiring_facts.

Implicit Types (st : manager) (m : module_inst).

Local Ltac inner :=
  match goal with
  | |- context [match ?x with _ => _ end] =>
      lazymatch x with
      | context [match _ with _ => _ end] => fail
      | _ => destruct x eqn:?
      end
  end.

Local Ltac known :=
  match goal with
  | H : ?x = _ |- context [?x] => rewrite H
  end.

Local Ltac leaf :=
  simplify_eq; cbn in *;
  repeat (first [ progress known | inner ]; simplify_eq; cbn in *;
          try discriminate);
  first [ split; reflexivity | constructor ].

Lemma connectEntry_spec base mkey thismodule connections c st r st' :
  connectEntry base mkey thismodule connections c st = (r, st') →
  match resolve_target st base mkey connections c with
  | Some oid => r = Ok Next ∧ st' = bind_state st base mkey c oid
  | None => rejected st r st'
  end.
Proof.
  unfold resolve_target, connectEntry, in_connector, in_decl, unique_target,
    bind_state, rebound, dict_lookup, table_mem, list_index,
    unbound_declaration, out_declaration, ordered_items, dict_items,
    set_object.
  run. unfold py_getitem, py_contains, py_setitem, is_OrderedDict, is_str,
    is_None.
  intros H.
  exec H; solve [leaf].
Qed.

End wiring_facts.

Section wiring_frame.

Implicit Types (st : manager) (m : module_inst) (conn : pyval).

(** Binding replaces one instance in one table. *)
Lemma tree_loaded_bind_state st base mkey c oid :
  tree_loaded (bind_state st base mkey c oid)
    = alter (alter (rebound c oid) mkey) base (tree_loaded st).
Proof.
  unfold bind_state. apply map_eq. intros b.
  rewrite lookup_alter.
  destruct (tree_loaded st !! base) as [tb|] eqn:Htb.
  - destruct (tb !! mkey) as [this|] eqn:Hthis; cbn.
    + rewrite lookup_insert. case_decide; [|done]. subst. cbn. f_equal.
      apply map_eq. intros k. rewrite lookup_alter, lookup_insert.
      case_decide; [|done]. subst. by rewrite Hthis.
    + case_decide; [|done]. subst. rewrite Htb. cbn. f_equal.
      apply map_eq. intros k. rewrite lookup_alter.
      case_decide; [|done]. subst. by rewrite Hthis.
  - case_decide; [|done]. subst. by rewrite Htb.
Qed.

Lemma loaded_at_bind_state st base mkey c oid b k :
  loaded_at (bind_state st base mkey c oid) b k =
    if decide (base = b ∧ mkey = k) then rebound c oid <$> loaded_at st b k
    else loaded_at st b k.
Proof.
  unfold loaded_at. rewrite tree_loaded_bind_state, lookup_alter.
  destruct (decide (base = b)) as [->|Hb].
  - destruct (tree_loaded st !! b) as [tb|]; cbn.
    + rewrite lookup_alter.
      destruct (decide (mkey = k)) as [->|Hk].
      * by rewrite decide_True.
      * rewrite decide_False; [done | naive_solver].
    + by case_decide.
  - rewrite decide_False; [done | naive_solver].
Qed.

Lemma dict_lookup_set_object conn c v k :
  k ≠ "in" → dict_lookup (set_object conn c v) k = dict_lookup conn k.
Proof.
  intros Hk. unfold set_object, dict_lookup.
  destruct conn as [| | | |o1 items]; try done.
  destruct (od_get "in" items) as [[| | | |o2 ins]|]; try done.
  destruct (od_get c ins) as [[| | | |o3 cin]|]; try done.
  cbn [dict_items]. rewrite od_get_set. by rewrite decide_False.
Qed.

Lemma in_decl_set_object_ne conn c v c' :
  c' ≠ c → in_decl (set_object conn c v) c' = in_decl conn c'.
Proof.
  intros Hc. unfold in_decl, set_object, dict_lookup.
  destruct conn as [| | | |o1 items]; try done.
  destruct (od_get "in" items) as [[| | | |o2 ins]|] eqn:Hin;
    try (cbn; by rewrite Hin).
  destruct (od_get c ins) as [[| | | |o3 cin]|] eqn:Hcin;
    try (cbn; by rewrite Hin).
  cbn [dict_items]. rewrite od_get_set, decide_True by done.
  cbn [dict_items]. rewrite od_get_set, decide_False by done.
  by rewrite Hin.
Qed.

Lemma in_decl_set_object conn c v o items :
  in_decl conn c = Some (PyDict o items) →
  in_decl (set_object conn c v) c = Some (PyDict o (od_set "object" v items)).
Proof.
  unfold in_decl, set_object, dict_lookup.
  destruct conn as [| | | |o1 its]; try done. cbn [dict_items].
  destruct (od_get "in" its) as [[| | | |o2 ins]|] eqn:Hin; try done.
  cbn [dict_items]. intros Hc. rewrite Hc. cbn [dict_items].
  rewrite od_get_set, decide_True by done. cbn [dict_items].
  rewrite od_get_set. by rewrite decide_True.
Qed.

Lemma mod_id_rebound c oid m : mod_id (rebound c oid m) = mod_id m.
Proof. done. Qed.

Lemma out_rebound c oid m :
  dict_lookup (mod_connector (rebound c oid m)) "out"
    = dict_lookup (mod_connector m) "out".
Proof. by apply dict_lookup_set_object. Qed.

Lemma in_connector_bind_state_ne st base mkey c oid b k c' :
  (b, k, c') ≠ (base, mkey, c) →
  in_connector (bind_state st base mkey c oid) b k c' = in_connector st b k c'.
Proof.
  intros Hne. unfold in_connector. rewrite loaded_at_bind_state.
  case_decide as Hbk; [|done]. destruct Hbk as [-> ->].
  destruct (loaded_at st b k) as [m|]; [|done]. cbn.
  apply in_decl_set_object_ne. congruence.
Qed.

(** A resolved entry had an unbound declaration. *)
Lemma resolve_target_unbound st base mkey conns c oid :
  resolve_target st base mkey conns c = Some oid →
  ∃ items, in_connector st base mkey c = Some (PyDict true items) ∧
           od_get "object" items = Some PyNone.
Proof.
  unfold resolve_target, unbound_declaration, ordered_items.
  destruct (in_connector st base mkey c) as [[| | | |[] items]|];
    cbn; try done.
  destruct (od_get "class" items) as [[]|]; cbn; try done.
  destruct (od_get "object" items) as [[]|] eqn:Hobj; cbn; try done.
  intros _. eauto.
Qed.

Lemma bound_object_bind_state st base mkey conns c oid :
  resolve_target st base mkey conns c = Some oid →
  bound_object (bind_state st base mkey c oid) base mkey c = Some (PyObj oid).
Proof.
  intros (items & Hin & _)%resolve_target_unbound.
  unfold bound_object, in_connector in *. rewrite loaded_at_bind_state.
  rewrite decide_True by done.
  destruct (loaded_at st base mkey) as [m|]; [|done]. cbn.
  rewrite (in_decl_set_object _ _ _ _ _ Hin). cbn.
  rewrite od_get_set. by rewrite decide_True.
Qed.

Lemma keeps_bindings_bind_state st base mkey conns c oid :
  resolve_target st base mkey conns c = Some oid →
  keeps_bindings st (bind_state st base mkey c oid).
Proof.
  intros (items & Hin & Hobj)%resolve_target_unbound b k c' v Hv Hne.
  unfold bound_object in *.
  destruct (decide ((b, k, c') = (base, mkey, c))) as [[= -> -> ->]|Hother].
  - rewrite Hin in Hv. cbn in Hv. congruence.
  - by rewrite in_connector_bind_state_ne.
Qed.

Lemma table_bind_state st base mkey c oid b :
  tree_loaded (bind_state st base mkey c oid) !! b = None ↔
  tree_loaded st !! b = None.
Proof.
  rewrite tree_loaded_bind_state, lookup_alter.
  case_decide; [subst|done]. by rewrite fmap_None.
Qed.

Lemma unique_target_alt st name :
  unique_target st name =
    match tree_loaded st !! "hardware", tree_loaded st !! "logic" with
    | Some _, Some _ =>
        match loaded_at st "hardware" name, loaded_at st "logic" name with
        | Some t, None => Some t
        | None, Some t => Some t
        | _, _ => None
        end
    | _, _ => None
    end.
Proof.
  unfold unique_target, loaded_at.
  destruct (tree_loaded st !! "hardware"), (tree_loaded st !! "logic"); done.
Qed.

Lemma unique_target_bind_state st base mkey c oid name :
  ∃ f, (f = id ∨ f = rebound c oid) ∧
       unique_target (bind_state st base mkey c oid) name
         = f <$> unique_target st name.
Proof.
  rewrite !unique_target_alt, !loaded_at_bind_state.
  pose proof (table_bind_state st base mkey c oid "hardware") as Hhw.
  pose proof (table_bind_state st base mkey c oid "logic") as Hlg.
  destruct (tree_loaded (bind_state st base mkey c oid) !! "hardware"),
    (tree_loaded st !! "hardware");
    try (exfalso; naive_solver); try (exists id; split; [by left|done]).
  destruct (tree_loaded (bind_state st base mkey c oid) !! "logic"),
    (tree_loaded st !! "logic");
    try (exfalso; naive_solver); try (exists id; split; [by left|done]).
  destruct (loaded_at st "hardware" name) as [t1|],
    (loaded_at st "logic" name) as [t2|];
    repeat case_decide; cbn;
    try (exists id; split; [by left|done]);
    try (exists (rebound c oid); split; [by right|done]).
Qed.

Lemma resolve_target_bind_state_ne st base mkey conns c oid c' :
  c' ≠ c →
  resolve_target (bind_state st base mkey c oid) base mkey conns c'
    = resolve_target st base mkey conns c'.
Proof.
  intros Hc. unfold resolve_target.
  rewrite in_connector_bind_state_ne by congruence.
  destruct (in_connector st base mkey c') as [cin|]; [|done].
  destruct (unbound_declaration cin); [|done].
  destruct (dict_lookup conns c') as [[| |dest| |]|]; try done.
  destruct (str_contains "." dest); [|done].
  destruct (str_split "." dest) as [|destmod [|destcon more]]; try done.
  destruct (unique_target_bind_state st base mkey c oid destmod)
    as (f & Hf & ->).
  destruct (unique_target st destmod) as [t|]; [|done]. cbn.
  destruct Hf as [-> | ->]; [done|].
  by rewrite out_rebound, mod_id_rebound.
Qed.

End wiring_frame.

Section wiring_loop.

Implicit Types (st : manager) (cs : list string).

Lemma keeps_bindings_refl st : keeps_bindings st st.
Proof. by intros b k c v. Qed.

Lemma keeps_bindings_trans st1 st2 st3 :
  keeps_bindings st1 st2 → keeps_bindings st2 st3 → keeps_bindings st1 st3.
Proof. intros H12 H23 b k c v Hv Hne. apply H23; [|done]. by apply H12. Qed.

Lemma keeps_bindings_same_loaded st st' :
  tree_loaded st' = tree_loaded st → keeps_bindings st st'.
Proof.
  intros Heq b k c v. unfold bound_object, in_connector, loaded_at.
  by rewrite Heq.
Qed.

Lemma rejected_same_loaded st r st' :
  rejected st r st' → tree_loaded st' = tree_loaded st.
Proof. by intros []. Qed.

Lemma rejected_not_Next st r st' : rejected st r st' → r ≠ Ok Next.
Proof. by intros []. Qed.

Lemma for_each_cons {A} (x : A) l (body : A → M flow) st :
  for_each (x :: l) body st =
    match body x st with
    | (Ok Next, st1) => for_each l body st1
    | (Ok Return, st1) => (Ok Return, st1)
    | (Raise e, st1) => (Raise e, st1)
    end.
Proof.
  cbn. unfold bind. destruct (body x st) as [[[]|e] st1]; done.
Qed.

Context (base mkey : string) (thismodule connections : pyval).

Lemma connect_resolved st c cs oid :
  resolve_target st base mkey connections c = Some oid →
  for_each (c :: cs) (connectEntry base mkey thismodule connections) st =
    for_each cs (connectEntry base mkey thismodule connections)
      (bind_state st base mkey c oid).
Proof.
  intros Hres. rewrite for_each_cons.
  destruct (connectEntry base mkey thismodule connections c st) as [r st1] eqn:He.
  apply connectEntry_spec in He. rewrite Hres in He.
  destruct He as [-> ->]. done.
Qed.

Lemma connect_rejected st c cs :
  resolve_target st base mkey connections c = None →
  ∃ r st', for_each (c :: cs) (connectEntry base mkey thismodule connections) st
             = (r, st') ∧ rejected st r st'.
Proof.
  intros Hres. rewrite for_each_cons.
  destruct (connectEntry base mkey thismodule connections c st) as [r st1] eqn:He.
  apply connectEntry_spec in He. rewrite Hres in He.
  destruct He; eexists _, _; (split; [reflexivity|constructor]).
Qed.

(** The loop never touches a connector that is bound. *)
Lemma connect_loop_keeps cs st r st' :
  for_each cs (connectEntry base mkey thismodule connections) st = (r, st') →
  keeps_bindings st st'.
Proof.
  revert st. induction cs as [|c cs IH]; intros st Hrun.
  { cbn in Hrun. unfold ret in Hrun. simplify_eq. apply keeps_bindings_refl. }
  destruct (resolve_target st base mkey connections c) as [oid|] eqn:Hres.
  - rewrite (connect_resolved _ _ _ _ Hres) in Hrun.
    eapply keeps_bindings_trans; [|by apply IH].
    by eapply keeps_bindings_bind_state.
  - destruct (connect_rejected st c cs Hres) as (r0 & st0 & Hrun0 & Hrej).
    rewrite Hrun in Hrun0. simplify_eq.
    eapply keeps_bindings_same_loaded, rejected_same_loaded, Hrej.
Qed.

(** Entries that resolve in the manager the call starts from are bound one
    after the other: binding one does not change how the others resolve. *)
Lemma bind_all_spec done st :
  NoDup done →
  (∀ d, d ∈ done → is_Some (resolve_target st base mkey connections d)) →
  (∀ rest,
     for_each (done ++ rest) (connectEntry base mkey thismodule connections) st
       = for_each rest (connectEntry base mkey thismodule connections)
           (bind_all st base mkey connections done)) ∧
  (∀ c, c ∉ done →
     resolve_target (bind_all st base mkey connections done) base mkey connections c
       = resolve_target st base mkey connections c) ∧
  (∀ b k c, (b, k) ≠ (base, mkey) ∨ c ∉ done →
     in_connector (bind_all st base mkey connections done) b k c
       = in_connector st b k c) ∧
  (∀ d, d ∈ done → ∃ oid,
     resolve_target st base mkey connections d = Some oid ∧
     bound_object (bind_all st base mkey connections done) base mkey d
       = Some (PyObj oid)).
Proof.
  revert st. induction done as [|d done IH]; intros st Hnd Hall.
  { split_and!; try done. intros d []%elem_of_nil. }
  apply NoDup_cons in Hnd as [Hd Hnd].
  destruct (Hall d) as [oid Hoid]; [apply elem_of_cons; by left|].
  cbn [bind_all]. rewrite Hoid.
  destruct (IH (bind_state st base mkey d oid) Hnd) as (IH1 & IH2 & IH3 & IH4).
  { intros d' Hd'. rewrite resolve_target_bind_state_ne by (intros ->; done).
    apply Hall, elem_of_cons. by right. }
  split_and!.
  - intros rest. cbn [app]. rewrite (connect_resolved _ _ _ _ Hoid). apply IH1.
  - intros c [Hcd Hc]%not_elem_of_cons. rewrite IH2 by done.
    by apply resolve_target_bind_state_ne.
  - intros b k c Hne. rewrite IH3.
    + apply in_connector_bind_state_ne.
      destruct Hne as [Hne|[Hcd _]%not_elem_of_cons]; congruence.
    + destruct Hne as [Hne|[_ Hc]%not_elem_of_cons]; auto.
  - intros d' [->|Hd']%elem_of_cons.
    + exists oid. split; [done|]. unfold bound_object.
      rewrite IH3 by auto. by eapply bound_object_bind_state.
    + destruct (IH4 d' Hd') as (oid' & Hres & Hb). exists oid'. split; [|done].
      rewrite <- Hres. symmetry. apply resolve_target_bind_state_ne.
      intros ->. done.
Qed.

End wiring_loop.
Section connect_module.

Implicit Types (st : manager) (cs : list string).

(** C9, first part: a call of [connectModule] keeps every binding. *)
Lemma connectModule_keeps base mkey st r st' :
  connectModule base mkey st = (r, st') → keeps_bindings st st'.
Proof.
  unfold connectModule, table_mem. run.
  unfold py_getitem, py_contains, py_iter, is_OrderedDict.
  intros H.
  exec H; try (simplify_eq; by apply keeps_bindings_same_loaded).
  all: simplify_eq; by eapply connect_loop_keeps.
Qed.

(** With the module defined, loaded and declaring 'in' connectors, the
    call is the loop over its connect entries. *)
Lemma connectModule_loop st base mkey dtb o items mname conns this ins :
  tree_defined st !! base = Some dtb → dtb !! mkey = Some (PyDict o items) →
  od_get "module" items = Some mname →
  od_get "connect" items = Some (PyDict true conns) →
  loaded_at st base mkey = Some this →
  dict_lookup (mod_connector this) "in" = Some ins →
  connectModule base mkey st =
    match for_each (od_keys conns)
            (connectEntry base mkey (PyDict o items) (PyDict true conns)) st with
    | (Ok _, st') => (Ok tt, st')
    | (Raise e, st') => (Raise e, st')
    end.
Proof.
  intros Hdtb Hdef Hmod Hconn (tb & Htb & Hthis)%loaded_at_Some Hin.
  unfold dict_lookup, dict_items in Hin.
  destruct (mod_connector this) as [| | | |oc citems] eqn:Hc; try done.
  unfold connectModule, table_mem. run.
  unfold py_getitem, py_contains, py_iter, is_OrderedDict.
  repeat (first [ rewrite Hdtb | rewrite Hdef | rewrite Htb | rewrite Hthis
                | rewrite Hc | rewrite Hin | rewrite Hmod | rewrite Hconn
                | progress cbn ]).
  by destruct (for_each _ _ st) as [[[]|] ?].
Qed.

End connect_module.

Section split_facts.

Lemma prefix_empty s : String.prefix "" s = true.
Proof. by destruct s. Qed.

Lemma str_contains_dot_cons a s :
  str_contains "." (String a s) =
    bool_decide (a = "."%char) || str_contains "." s.
Proof.
  cbn [str_contains String.prefix]. rewrite prefix_empty.
  destruct (Ascii.ascii_dec "." a) as [<-|Hne].
  - by rewrite bool_decide_eq_true_2.
  - rewrite bool_decide_eq_false_2; [done | congruence].
Qed.

Lemma str_split_cons a s :
  str_split "." (String a s) =
    if decide (a = "."%char) then "" :: str_split "." s
    else match str_split "." s with
         | [] => [String a ""]
         | w :: ws => String a w :: ws
         end.
Proof. done. Qed.

(** A value 'target.outcon' without further dots splits into its two
    names. *)
Lemma str_split_target (target outcon : string) :
  str_contains "." target = false →
  str_split "." (target +:+ "." +:+ outcon) = target :: str_split "." outcon.
Proof.
  induction target as [|a t IH].
  - intros _. done.
  - rewrite str_contains_dot_cons. intros [Ha Ht]%orb_false_elim.
    apply bool_decide_eq_false in Ha.
    change (String a t +:+ "." +:+ outcon)
      with (String a (t +:+ "." +:+ outcon)).
    rewrite str_split_cons, decide_False by done. by rewrite IH.
Qed.

Lemma str_split_plain (s : string) :
  str_contains "." s = false → str_split "." s = [s].
Proof.
  induction s as [|a t IH]; [done|].
  rewrite str_contains_dot_cons. intros [Ha Ht]%orb_false_elim.
  apply bool_decide_eq_false in Ha.
  rewrite str_split_cons, decide_False by done. by rewrite IH.
Qed.

Lemma str_contains_target (target outcon : string) :
  str_contains "." (target +:+ "." +:+ outcon) = true.
Proof.
  induction target as [|a t IH].
  { change ("" +:+ "." +:+ outcon) with (String "." outcon).
    rewrite str_contains_dot_cons. by rewrite bool_decide_eq_true_2. }
  change (String a t +:+ "." +:+ outcon)
    with (String a (t +:+ "." +:+ outcon)).
  rewrite str_contains_dot_cons, IH. apply orb_true_r.
Qed.

End split_facts.

Section other_operations.

Implicit Types (st : manager).

Lemma same_instances_refl st : same_instances st st.
Proof. by intros b k. Qed.

Lemma same_instances_trans st1 st2 st3 :
  same_instances st1 st2 → same_instances st2 st3 → same_instances st1 st3.
Proof. intros H12 H23 b k. by rewrite H23, H12. Qed.

Lemma same_instances_same_loaded st st' :
  tree_loaded st' = tree_loaded st → same_instances st st'.
Proof. intros Heq b k. unfold loaded_at. by rewrite Heq. Qed.

Lemma same_instances_bind_state st base mkey c oid :
  same_instances st (bind_state st base mkey c oid).
Proof.
  intros b k. rewrite loaded_at_bind_state. case_decide; [|done].
  by destruct (loaded_at st b k).
Qed.

Lemma connect_loop_same base mkey thismodule connections cs st r st' :
  for_each cs (connectEntry base mkey thismodule connections) st = (r, st') →
  same_instances st st'.
Proof.
  revert st. induction cs as [|c cs IH]; intros st Hrun.
  { cbn in Hrun. unfold ret in Hrun. simplify_eq. apply same_instances_refl. }
  destruct (resolve_target st base mkey connections c) as [oid|] eqn:Hres.
  - rewrite (connect_resolved _ _ _ _ _ _ _ _ Hres) in Hrun.
    eapply same_instances_trans; [|by apply IH].
    apply same_instances_bind_state.
  - destruct (connect_rejected base mkey thismodule connections st c cs Hres)
      as (r0 & st0 & Hrun0 & Hrej).
    rewrite Hrun in Hrun0. simplify_eq.
    eapply same_instances_same_loaded, rejected_same_loaded, Hrej.
Qed.

(** Replacing an instance by one with the same connector table, or adding
    an instance under a new name, keeps every binding. *)
Lemma keeps_bindings_insert st st' base key tb m' :
  tree_loaded st !! base = Some tb →
  (∀ m, tb !! key = Some m → mod_connector m' = mod_connector m) →
  tree_loaded st' = <[base := <[key := m']> tb]> (tree_loaded st) →
  keeps_bindings st st'.
Proof.
  intros Htb Hconn Hst' b k c v Hv _. revert Hv.
  unfold bound_object, in_connector, loaded_at. rewrite Hst', lookup_insert.
  destruct (decide (base = b)) as [<-|Hb]; [|done].
  rewrite Htb, lookup_insert.
  destruct (decide (key = k)) as [<-|Hk]; [|done].
  destruct (tb !! key) as [m|] eqn:Hm; [|done].
  by rewrite (Hconn m).
Qed.

End other_operations.

Section other_operations2.

Implicit Types (st : manager).

Lemma activateModule_keeps base key st r st' :
  activateModule base key st = (r, st') → keeps_bindings st st'.
Proof.
  unfold activateModule, activate, table_mem. run. intros H. exec H;
    try (simplify_eq; by apply keeps_bindings_same_loaded).
  all: simplify_eq; eapply keeps_bindings_insert; [eassumption| |reflexivity].
  all: intros m' Hm'; by simplify_eq.
Qed.

Lemma configureModule_keeps moduleObject baseName className instanceName
    configuration st r st' :
  configureModule moduleObject baseName className instanceName configuration st
    = (r, st') →
  keeps_bindings st st'.
Proof.
  unfold configureModule, table_mem. run. intros H. exec H;
    try (simplify_eq; by apply keeps_bindings_same_loaded).
  all: simplify_eq; eapply keeps_bindings_insert; [eassumption| |reflexivity].
  all: intros m' Hm'; congruence.
Qed.

End other_operations2.

Section keeps_facts.

Context {T : Type} (f : manager → T).

Lemma keeps_ret {A} (a : A) : keeps f (ret a).
Proof. by intros st. Qed.

Lemma keeps_raise {A} e : keeps f (raise (A := A) e).
Proof. by intros st. Qed.

Lemma keeps_lift {A} (r : result A) : keeps f (lift r).
Proof. by intros st. Qed.

Lemma keeps_gets {A} (g : manager → A) : keeps f (gets g).
Proof. by intros st. Qed.

Lemma keeps_modify (g : manager → manager) :
  (∀ st, f (g st) = f st) → keeps f (modify g).
Proof. intros Hg st. apply Hg. Qed.

Lemma keeps_bind {A B} (m : M A) (k : A → M B) :
  keeps f m → (∀ a, keeps f (k a)) → keeps f (bind m k).
Proof.
  intros Hm Hk st. unfold bind. specialize (Hm st).
  destruct (m st) as [[a|e] st1]; cbn in *; [|done].
  by rewrite Hk.
Qed.

Lemma keeps_try_except {A} (body : M A) (handler : exn → M A) :
  keeps f body → (∀ e, keeps f (handler e)) → keeps f (try_except body handler).
Proof.
  intros Hm Hk st. unfold try_except. specialize (Hm st).
  destruct (body st) as [[a|e] st1]; cbn in *; [done|].
  by rewrite Hk.
Qed.

Lemma keeps_for_all {A} (l : list A) (body : A → M unit) :
  (∀ x, keeps f (body x)) → keeps f (for_all l body).
Proof.
  intros Hb. induction l as [|x l IH]; cbn; [apply keeps_ret|].
  apply keeps_bind; [apply Hb | intros _; apply IH].
Qed.

End keeps_facts.

Ltac keeps_step :=
  first
    [ apply keeps_bind; [|intros ?]
    | apply keeps_ret
    | apply keeps_raise
    | apply keeps_lift
    | apply keeps_gets
    | apply keeps_for_all; intros ?
    | apply keeps_try_except; [|intros ?]
    | apply keeps_modify; intros ?; reflexivity
    | match goal with
      | |- keeps _ (if ?b then _ else _) => destruct b
      | |- keeps _ (match ?x with _ => _ end) => destruct x
      end ].

Section configure_facts.

(** [setBaseDir] stops at its first statement. *)
Lemma setBaseDir_raises path st :
  setBaseDir path st = (Raise (AttributeError "dirName"), st).
Proof. reflexivity. Qed.

Lemma keeps_setBaseDir {T} (f : manager → T) path : keeps f (setBaseDir path).
Proof. intros st. by rewrite setBaseDir_raises. Qed.

Lemma keeps_configure_key {T} (f : manager → T) cfg key :
  (∀ g st, f (set_defined g st) = f st) →
  (∀ g st, f (set_start g st) = f st) →
  (∀ g st, f (set_config g st) = f st) →
  (∀ k v st, f (set_pg_option k v st) = f st) →
  (∀ e st, f (add_log e st) = f st) →
  keeps f (configure_key cfg key).
Proof.
  intros Hd Hs Hc Hp Hl.
  assert (∀ msg, keeps f (print_logMsg msg)) as Hprint.
  { intros msg st. apply Hl. }
  assert (∀ table upd base section ignored m,
            (∀ g st, f (upd g st) = f st) →
            keeps f (define_entry table upd base section ignored m)) as Hentry.
  { intros table upd base section ignored m Hupd.
    unfold define_entry, tree_store, tree_get, table_get.
    repeat first [ apply Hprint | keeps_step | (intros ?; apply Hupd) ].
    all: apply keeps_modify; intros ?; apply Hupd. }
  unfold configure_key, configure_hardware, configure_category,
    configure_startup, configure_global, configure_other, table_get.
  repeat first [ apply Hprint | apply Hentry; assumption
               | apply keeps_setBaseDir | keeps_step ].
  all: apply keeps_modify; intros ?; first [ apply Hc | apply Hp ].
Qed.

Lemma keeps_configure {T} (f : manager → T) cfg :
  (∀ g st, f (set_defined g st) = f st) →
  (∀ g st, f (set_start g st) = f st) →
  (∀ g st, f (set_config g st) = f st) →
  (∀ k v st, f (set_pg_option k v st) = f st) →
  (∀ e st, f (add_log e st) = f st) →
  (∀ st, f (add_signal sigConfigChanged st) = f st) →
  keeps f (configure cfg).
Proof.
  intros Hd Hs Hc Hp Hl He. unfold configure, printExc, emit.
  repeat first [ apply keeps_configure_key; assumption | keeps_step ].
  all: apply keeps_modify; intros ?; first [ apply Hl | apply He ].
Qed.

Lemma configure_keeps_loaded cfg : keeps tree_loaded (configure cfg).
Proof. by apply keeps_configure. Qed.

Lemma configure_keeps_baseDir cfg : keeps baseDir (configure cfg).
Proof. by apply keeps_configure. Qed.

Lemma configure_keeps_baseDir_signals cfg :
  keeps baseDir_signals (configure cfg).
Proof.
  apply keeps_configure; try done.
  intros st. unfold baseDir_signals. cbn. rewrite filter_app.
  rewrite filter_cons_False by done. by rewrite filter_nil, app_nil_r.
Qed.

Lemma configure_keeps_bindings cfg st :
  keeps_bindings st (configure cfg st).2.
Proof. apply keeps_bindings_same_loaded, configure_keeps_loaded. Qed.

End configure_facts.

Section wiring_claims.

Implicit Types (st : manager).

(** The conditions the specification names make the entry resolve. *)
Lemma resolve_target_intro st base mkey o conns c target outcon decl cls
    t outputs odecl ocls :
  od_get c conns = Some (PyStr (target +:+ "." +:+ outcon)) →
  str_contains "." target = false → str_contains "." outcon = false →
  in_connector st base mkey c = Some (PyDict true decl) →
  od_get "class" decl = Some (PyStr cls) →
  od_get "object" decl = Some PyNone →
  unique_target st target = Some t →
  dict_lookup (mod_connector t) "out" = Some outputs →
  dict_lookup outputs outcon = Some (PyDict true odecl) →
  od_get "class" odecl = Some (PyStr ocls) →
  resolve_target st base mkey (PyDict o conns) c = Some (mod_id t).
Proof.
  intros Hval Htarget Houtcon Hin Hcls Hobj Ht Hout Hdecl Hocls.
  unfold resolve_target. rewrite Hin.
  unfold unbound_declaration, out_declaration. cbn. rewrite Hcls, Hobj, Hval.
  rewrite str_contains_target, (str_split_target _ _ Htarget),
    (str_split_plain _ Houtcon), Ht, Hout, Hdecl.
  cbn. by rewrite Hocls.
Qed.

(** C8, as amended. A module is defined with a module reference and an
    OrderedDict of connect entries and is loaded. One of its entries is
    [c: 'target.outcon'] with no dot inside [target] or [outcon]; the module
    declares the 'in' connector [c] with a string class and the object
    [None]; [target] is loaded in exactly one of hardware and logic and
    declares the 'out' connector [outcon] with a string class. If every
    entry listed before [c] passes the checks of the loop as well, then
    after [connectModule] the object of the connector [c] is the target
    instance, and the tables still hold the same instances. *)
Theorem connectModule_binds st base mkey dtb o items mname conns this
    done c rest target outcon decl cls t outputs odecl ocls :
  tree_defined st !! base = Some dtb → dtb !! mkey = Some (PyDict o items) →
  od_get "module" items = Some mname →
  od_get "connect" items = Some (PyDict true conns) →
  loaded_at st base mkey = Some this →
  od_keys conns = done ++ c :: rest → NoDup (od_keys conns) →
  (∀ d, d ∈ done →
        is_Some (resolve_target st base mkey (PyDict true conns) d)) →
  od_get c conns = Some (PyStr (target +:+ "." +:+ outcon)) →
  str_contains "." target = false → str_contains "." outcon = false →
  in_connector st base mkey c = Some (PyDict true decl) →
  od_get "class" decl = Some (PyStr cls) →
  od_get "object" decl = Some PyNone →
  unique_target st target = Some t →
  dict_lookup (mod_connector t) "out" = Some outputs →
  dict_lookup outputs outcon = Some (PyDict true odecl) →
  od_get "class" odecl = Some (PyStr ocls) →
  ∃ r st', connectModule base mkey st = (r, st') ∧
    bound_object st' base mkey c = Some (PyObj (mod_id t)) ∧
    same_instances st st'.
Proof.
  intros Hdtb Hdef Hmod Hconn Hthis Hkeys Hnd Hdone Hval Htarget Houtcon
    Hin Hcls Hobj Ht Hout Hdecl Hocls.
  pose proof (resolve_target_intro st base mkey true conns c target outcon
                decl cls t outputs odecl ocls Hval Htarget Houtcon Hin Hcls
                Hobj Ht Hout Hdecl Hocls) as Hres.
  assert (∃ ins, dict_lookup (mod_connector this) "in" = Some ins) as [ins Hins].
  { unfold in_connector, in_decl in Hin. rewrite Hthis in Hin.
    destruct (dict_lookup (mod_connector this) "in"); [eauto|done]. }
  rewrite Hkeys in Hnd. apply NoDup_app in Hnd as (Hnd1 & Hnd2 & Hnd3).
  assert (c ∉ done) as Hc.
  { intros Hc. apply (Hnd2 _ Hc), elem_of_cons. by left. }
  destruct (bind_all_spec base mkey (PyDict o items) (PyDict true conns)
              done st Hnd1 Hdone) as (Hrun & Hframe & _ & _).
  destruct (for_each (od_keys conns)
              (connectEntry base mkey (PyDict o items) (PyDict true conns)) st)
    as [r st'] eqn:Hloop.
  exists (match r with Ok _ => Ok tt | Raise e => Raise e end), st'.
  split_and!.
  - rewrite (connectModule_loop st base mkey dtb o items mname conns this ins)
      by done.
    rewrite Hloop. by destruct r.
  - rewrite Hkeys, Hrun in Hloop.
    rewrite (connect_resolved _ _ _ _ _ _ _ (mod_id t)) in Hloop
      by (by rewrite Hframe).
    eapply (connect_loop_keeps _ _ _ _ _ _ _ _ Hloop); [|done].
    eapply bound_object_bind_state. by rewrite Hframe.
  - by eapply connect_loop_same.
Qed.

(** The one connect entry of the controller of [wiring_manager]. *)
Lemma connectModule_binds_witness :
  ∃ r st', connectModule "logic" "ctl" (wiring_manager pump_entry PyNone)
             = (r, st') ∧
    bound_object st' "logic" "ctl" "pump" = Some (PyObj (mod_id pump_out)) ∧
    same_instances (wiring_manager pump_entry PyNone) st'.
Proof.
  refine (connectModule_binds (wiring_manager pump_entry PyNone)
            "logic" "ctl"
            {[ "ctl" := PyDict true [("module", PyStr "ctl_logic");
                                     ("connect", PyDict true pump_entry)] ]}
            true [("module", PyStr "ctl_logic");
                  ("connect", PyDict true pump_entry)]
            (PyStr "ctl_logic") pump_entry (controller PyNone)
            [] "pump" [] "pump" "pump"
            [("class", PyStr "Pump"); ("object", PyNone)] "Pump"
            pump_out
            (PyDict true [("pump", PyDict true [("class", PyStr "Pump")])])
            [("class", PyStr "Pump")] "Pump"
            _ _ _ _ _ _ _ _ _ _ _ _ _ _ _ _ _ _);
    try (vm_compute; reflexivity).
  - refine (bool_decide_unpack _ _); vm_compute; exact I.
  - intros d Hd. by apply elem_of_nil in Hd.
Defined.

(** C8 as the specification states it fails: the entry 'pump' of the
    controller meets every condition of the claim, but the entry 'aux'
    listed before it names no loaded module, the call returns there, and
    the connector 'pump' is still unbound afterwards. *)
Lemma connectModule_binds_counterexample :
  let st := wiring_manager aux_then_pump PyNone in
  od_get "pump" aux_then_pump = Some (PyStr "pump.pump") ∧
  in_connector st "logic" "ctl" "pump"
    = Some (PyDict true [("class", PyStr "Pump"); ("object", PyNone)]) ∧
  unique_target st "pump" = Some pump_out ∧
  dict_lookup (mod_connector pump_out) "out"
    = Some (PyDict true [("pump", PyDict true [("class", PyStr "Pump")])]) ∧
  ∃ st', connectModule "logic" "ctl" st = (Ok tt, st') ∧
    bound_object st' "logic" "ctl" "pump" = Some PyNone ∧
    bound_object st' "logic" "ctl" "pump" ≠ Some (PyObj (mod_id pump_out)).
Proof.
  cbv zeta. split_and!; try (vm_compute; reflexivity).
  eexists. split_and!; [vm_compute; reflexivity | vm_compute; reflexivity |].
  vm_compute. discriminate.
Qed.

End wiring_claims.

Section binding_claims.

Implicit Types (st : manager).

(** An attempt on a connector that is bound ends in a logged error. *)
Lemma connectEntry_bound_rejected base mkey thismodule connections c st v :
  bound_object st base mkey c = Some v → v ≠ PyNone →
  ∃ msg, connectEntry base mkey thismodule connections c st
           = (Ok Return, add_log (LogMsg "error" msg) st).
Proof.
  unfold bound_object, in_connector, in_decl, dict_lookup, dict_items,
    loaded_at.
  destruct (tree_loaded st !! base) as [tb|] eqn:Htb; [|done].
  destruct (tb !! mkey) as [this|] eqn:Hthis; [|done].
  destruct (mod_connector this) as [| | | |o1 items] eqn:Hconn; try done.
  destruct (od_get "in" items) as [[| | | |o2 ins]|] eqn:Hin; try done.
  destruct (od_get c ins) as [[| | | |o3 cin]|] eqn:Hc; try done.
  intros Hobj Hv.
  unfold connectEntry. run.
  unfold py_getitem, py_contains, is_OrderedDict, is_str, is_None.
  rewrite Htb, Hthis, Hconn, Hin. cbn. rewrite Hc. cbn.
  destruct o3; cbn; [|eauto].
  destruct (od_get "class" cin) as [[| |cls| |]|]; cbn; eauto.
  rewrite Hobj. cbn. destruct v; cbn; eauto. done.
Qed.

(** C9. A connector is bound at most once. An attempt of the loop of
    [connectModule] on a connector whose object is not [None] is rejected:
    it logs an error, returns and changes nothing else. And no operation
    of the core replaces or removes a binding: after [connectModule],
    [configure], [configureModule] and [activateModule] every connector
    whose object was not [None] still has the same object. *)
Theorem connector_bound_once :
  (∀ base mkey thismodule connections c st v,
     bound_object st base mkey c = Some v → v ≠ PyNone →
     ∃ msg, connectEntry base mkey thismodule connections c st
              = (Ok Return, add_log (LogMsg "error" msg) st)) ∧
  (∀ base mkey st, keeps_bindings st (connectModule base mkey st).2) ∧
  (∀ cfg st, keeps_bindings st (configure cfg st).2) ∧
  (∀ moduleObject baseName className instanceName configuration st,
     keeps_bindings st
       (configureModule moduleObject baseName className instanceName
          configuration st).2) ∧
  (∀ base key st, keeps_bindings st (activateModule base key st).2).
Proof.
  split_and!.
  - apply connectEntry_bound_rejected.
  - intros base mkey st.
    destruct (connectModule base mkey st) as [r st'] eqn:H.
    by eapply connectModule_keeps.
  - apply configure_keeps_bindings.
  - intros mo b cl n cfg st.
    destruct (configureModule mo b cl n cfg st) as [r st'] eqn:H.
    by eapply configureModule_keeps.
  - intros base key st.
    destruct (activateModule base key st) as [r st'] eqn:H.
    by eapply activateModule_keeps.
Qed.

Lemma connector_bound_once_witness :
  bound_object bound_manager "logic" "ctl" "pump" = Some (PyObj 0) ∧
  (∃ msg, connectEntry "logic" "ctl" PyNone (PyDict true pump_entry) "pump"
            bound_manager
          = (Ok Return, add_log (LogMsg "error" msg) bound_manager)) ∧
  bound_object (connectModule "logic" "ctl" bound_manager).2
    "logic" "ctl" "pump" = Some (PyObj 0).
Proof.
  assert (bound_object bound_manager "logic" "ctl" "pump" = Some (PyObj 0))
    as Hb by (vm_compute; reflexivity).
  assert (PyObj 0 ≠ PyNone) as Hne by discriminate.
  split_and!.
  - exact Hb.
  - exact (proj1 connector_bound_once "logic" "ctl" PyNone
             (PyDict true pump_entry) "pump" bound_manager (PyObj 0) Hb Hne).
  - exact (proj1 (proj2 connector_bound_once) "logic" "ctl" bound_manager
             "logic" "ctl" "pump" (PyObj 0) Hb Hne).
Defined.

(** A module that is not loaded is not wired at all. *)
Lemma connectModule_not_loaded base mkey st :
  loaded_at st base mkey = None →
  tree_loaded (connectModule base mkey st).2 = tree_loaded st.
Proof.
  intros Hnone.
  destruct (connectModule base mkey st) as [r st'] eqn:H. cbn.
  revert H. unfold connectModule, table_mem. run.
  unfold py_getitem. unfold loaded_at in Hnone. intros H.
  exec H; by simplify_eq.
Qed.

Lemma str_split_two s :
  str_contains "." s = true → ∃ a b l, str_split "." s = a :: b :: l.
Proof.
  induction s as [|x s IH]; [done|].
  rewrite str_contains_dot_cons, str_split_cons.
  destruct (decide (x = "."%char)) as [->|Hx].
  - intros _. destruct s as [|y s]; [by eexists _, _, _|].
    rewrite str_split_cons. destruct (decide (y = "."%char)).
    + by eexists _, _, _.
    + destruct (str_split "." s); by eexists _, _, _.
  - rewrite bool_decide_eq_false_2 by done. cbn. intros Hs.
    destruct (IH Hs) as (a & b & l & ->). by eexists _, _, _.
Qed.

Lemma registry_sound_loaded st b k m :
  registry_sound st → loaded_at st b k = Some m → connector_tables m = true.
Proof.
  intros (_ & _ & Hall) (tb & Htb & Hm)%loaded_at_Some.
  exact (map_Forall_lookup_1 _ _ k m (map_Forall_lookup_1 _ _ b tb Hall Htb) Hm).
Qed.

Lemma connectEntry_no_raise base mkey o items mname conns c st this e st' :
  od_get "module" items = Some mname →
  registry_sound st →
  loaded_at st base mkey = Some this →
  is_Some (dict_lookup (mod_connector this) "in") →
  is_Some (od_get c conns) →
  value_not_string st base mkey (PyDict true conns) c = false →
  connectEntry base mkey (PyDict o items) (PyDict true conns) c st
    ≠ (Raise e, st').
Proof.
  intros Hmod Hsound Hthis [ins Hins] [v Hv] Hslip H.
  pose proof (registry_sound_loaded _ _ _ _ Hsound Hthis) as Hwf.
  assert (∀ k t, loaded_at st "hardware" k = Some t → connector_tables t = true)
    as Hwfh by (intros ??; by apply registry_sound_loaded).
  assert (∀ k t, loaded_at st "logic" k = Some t → connector_tables t = true)
    as Hwfl by (intros ??; by apply registry_sound_loaded).
  destruct Hsound as ([hw Hhw] & [lg Hlg] & _).
  unfold loaded_at in Hwfh, Hwfl. rewrite Hhw in Hwfh. rewrite Hlg in Hwfl.
  apply loaded_at_Some in Hthis as (tb & Htb & Hthis).
  unfold value_not_string, in_connector, in_decl, loaded_at in Hslip.
  rewrite Htb, Hthis, Hins in Hslip.
  unfold connector_tables in Hwf. unfold dict_lookup, dict_items in Hins.
  destruct (mod_connector this) as [| | | |o1 citems] eqn:Hconn; try done.
  rewrite Hins in Hwf. destruct ins as [| | | |o2 initems]; try done.
  unfold dict_lookup, dict_items in Hslip. rewrite Hv in Hslip.
  revert H. unfold connectEntry. run.
  unfold py_getitem, py_contains, py_setitem, is_OrderedDict, is_str, is_None,
    list_index, table_mem.
  intros H. exec H.
  all: repeat match goal with
       | Hw : ∀ k t, ?g !! k = Some t → connector_tables t = true,
         E : ?g !! _ = Some ?t |- _ =>
           lazymatch goal with
           | _ : connector_tables t = true |- _ => fail
           | _ => pose proof (Hw _ _ E)
           end
       end.
  all: unfold connector_tables in *.
  all: try (repeat match goal with
                   | E : ?x = _, Ht : context [match ?x with _ => _ end]
                     |- _ => rewrite E in Ht; cbn in Ht
                   end;
            repeat match goal with
                   | Ht : _ && _ = true |- _ =>
                       apply andb_true_iff in Ht as [??]
                   end;
            done).
  all: try match goal with
           | Hdot : negb (str_contains "." ?s) = false |- _ =>
               apply negb_false_iff in Hdot;
               destruct (str_split_two _ Hdot) as (? & ? & ? & Hsp);
               rewrite Hsp in *; by simplify_eq/=
           end.
Qed.

(** An entry that fails a check of the loop, other than the check of its
    value being a string, logs one error and returns. *)
Lemma connectEntry_returns base mkey o items mname conns c st this :
  od_get "module" items = Some mname →
  registry_sound st →
  loaded_at st base mkey = Some this →
  is_Some (dict_lookup (mod_connector this) "in") →
  is_Some (od_get c conns) →
  value_not_string st base mkey (PyDict true conns) c = false →
  resolve_target st base mkey (PyDict true conns) c = None →
  ∃ msg, connectEntry base mkey (PyDict o items) (PyDict true conns) c st
           = (Ok Return, add_log (LogMsg "error" msg) st).
Proof.
  intros Hmod Hsound Hthis Hins Hkey Hslip Hres.
  destruct (connectEntry base mkey (PyDict o items) (PyDict true conns) c st)
    as [r st'] eqn:Hrun.
  pose proof (connectEntry_spec _ _ _ _ _ _ _ _ Hrun) as Hspec.
  rewrite Hres in Hspec. destruct Hspec as [msg|e]; [by exists msg|].
  by destruct (connectEntry_no_raise base mkey o items mname conns c st this
                 e st Hmod Hsound Hthis Hins Hkey Hslip).
Qed.

Lemma connector_tables_rebound c oid m :
  connector_tables m = true → connector_tables (rebound c oid m) = true.
Proof.
  unfold connector_tables, rebound, set_object. cbn.
  destruct (mod_connector m) as [| | | |o1 items]; try done.
  destruct (od_get "in" items) as [[| | | |o2 ins]|] eqn:Hin;
    rewrite ?Hin; try done.
  destruct (od_get c ins) as [[| | | |o3 cin]|]; rewrite ?Hin; try done.
  intros Hout. rewrite !od_get_set. by repeat case_decide.
Qed.

Lemma registry_sound_bind_state st base mkey c oid :
  registry_sound st → registry_sound (bind_state st base mkey c oid).
Proof.
  intros (Hhw & Hlg & Hall). unfold registry_sound.
  rewrite tree_loaded_bind_state. split_and!.
  - destruct Hhw as [hw Hhw].
    destruct (decide (base = "hardware")) as [->|Hb].
    + rewrite lookup_alter_eq, Hhw. by eexists.
    + rewrite lookup_alter_ne by done. by eexists.
  - destruct Hlg as [lg Hlg].
    destruct (decide (base = "logic")) as [->|Hb].
    + rewrite lookup_alter_eq, Hlg. by eexists.
    + rewrite lookup_alter_ne by done. by eexists.
  - intros b tb. destruct (decide (base = b)) as [->|Hb].
    + rewrite lookup_alter_eq. intros Htb.
      destruct (tree_loaded st !! b) as [tb0|] eqn:Htb0; [|done].
      cbn in Htb. simplify_eq. intros k m.
      pose proof (map_Forall_lookup_1 _ _ _ _ Hall Htb0) as Htb0all.
      destruct (decide (mkey = k)) as [->|Hk].
      * rewrite lookup_alter_eq. intros Hm.
        destruct (tb0 !! k) as [m0|] eqn:Hm0; [|done].
        cbn in Hm. simplify_eq. apply connector_tables_rebound.
        exact (map_Forall_lookup_1 _ _ _ _ Htb0all Hm0).
      * rewrite lookup_alter_ne by done.
        apply (map_Forall_lookup_1 _ _ _ _ Htb0all).
    + rewrite lookup_alter_ne by done.
      apply (map_Forall_lookup_1 _ _ _ _ Hall).
Qed.

Lemma loaded_in_bind_state st base mkey c oid b k :
  (∃ m, loaded_at st b k = Some m ∧
        is_Some (dict_lookup (mod_connector m) "in")) →
  ∃ m, loaded_at (bind_state st base mkey c oid) b k = Some m ∧
       is_Some (dict_lookup (mod_connector m) "in").
Proof.
  intros (m & Hm & Hin). rewrite loaded_at_bind_state, Hm.
  case_decide; [|by exists m].
  exists (rebound c oid m). split; [done|].
  revert Hin. unfold rebound, set_object, dict_lookup, dict_items. cbn.
  destruct (mod_connector m) as [| | | |o1 items]; try done.
  destruct (od_get "in" items) as [[| | | |o2 ins]|] eqn:Hin;
    rewrite ?Hin; try done.
  destruct (od_get c ins) as [[| | | |o3 cin]|]; rewrite ?Hin; try done.
  intros _. rewrite od_get_set. by rewrite decide_True.
Qed.

(** What every binding keeps, the bindings of the loop keep. *)
Lemma bind_all_keeps (P : manager → Prop) base mkey conns :
  (∀ st c oid, P st → P (bind_state st base mkey c oid)) →
  ∀ cs st, P st → P (bind_all st base mkey conns cs).
Proof.
  intros Hstep cs. induction cs as [|c cs IH]; intros st HP; [done|].
  cbn. destruct (resolve_target st base mkey conns c); [|done].
  by apply IH, Hstep.
Qed.

(** C10, as amended. A connect entry that fails a check makes
    [connectModule] return at once, with exactly one error logged. When
    the module is not loaded, the call logs that and returns, and the
    loaded tables are as they were. When the module is loaded and defined
    with an OrderedDict of connect entries, the instances have connector
    tables, and the entry [c] is the first that fails a check of the loop,
    other than the check that its value is a string, the call returns
    normally at [c]: the entries before it are bound to their targets,
    one error is logged and nothing else is changed, so the connector of
    [c] and of every entry listed after [c] is exactly as it was before
    the call. *)
Theorem connectModule_stops_at_failure st base mkey dtb o items mname conns
    this ins done c rest :
  (loaded_at st base mkey = None →
     tree_loaded (connectModule base mkey st).2 = tree_loaded st) ∧
  (tree_defined st !! base = Some dtb → dtb !! mkey = Some (PyDict o items) →
   od_get "module" items = Some mname →
   is_Some (tree_loaded st !! base) → loaded_at st base mkey = None →
   connectModule base mkey st =
     (Ok tt,
      add_log (LogMsg "error"
                 "Loading of module was not successful, not connecting it.")
        st)) ∧
  (tree_defined st !! base = Some dtb → dtb !! mkey = Some (PyDict o items) →
   od_get "module" items = Some mname →
   od_get "connect" items = Some (PyDict true conns) →
   loaded_at st base mkey = Some this →
   dict_lookup (mod_connector this) "in" = Some ins →
   registry_sound st →
   od_keys conns = done ++ c :: rest → NoDup (od_keys conns) →
   (∀ d, d ∈ done →
         is_Some (resolve_target st base mkey (PyDict true conns) d)) →
   resolve_target st base mkey (PyDict true conns) c = None →
   value_not_string st base mkey (PyDict true conns) c = false →
   ∃ msg st',
     connectModule base mkey st = (Ok tt, st') ∧
     st' = add_log (LogMsg "error" msg)
             (bind_all st base mkey (PyDict true conns) done) ∧
     (∀ d, d ∈ done → ∃ oid,
        resolve_target st base mkey (PyDict true conns) d = Some oid ∧
        bound_object st' base mkey d = Some (PyObj oid)) ∧
     (∀ c', c' ∈ c :: rest →
        in_connector st' base mkey c' = in_connector st base mkey c')).
Proof.
  split_and!; [apply connectModule_not_loaded| |].
  { intros Hdtb Hdef Hmod [tb Htb] Hnone.
    unfold loaded_at in Hnone. rewrite Htb in Hnone.
    unfold connectModule, table_mem. run. unfold py_getitem.
    rewrite Hdtb, Hdef, Htb. cbn.
    rewrite bool_decide_eq_false_2 by (rewrite Hnone; by intros [??]).
    cbn. by rewrite Hmod. }
  intros Hdtb Hdef Hmod Hconn Hthis Hins Hsound Hkeys Hnd Hdone Hfail Hslip.
  pose proof Hnd as Hnd'.
  rewrite Hkeys in Hnd. apply NoDup_app in Hnd as (Hnd1 & Hnd2 & Hnd3).
  destruct (bind_all_spec base mkey (PyDict o items) (PyDict true conns)
              done st Hnd1 Hdone) as (Hrun & Hres & Hframe & Hbound).
  assert (c ∉ done) as Hc.
  { intros Hc. apply (Hnd2 _ Hc), elem_of_cons. by left. }
  set (st1 := bind_all st base mkey (PyDict true conns) done) in *.
  assert (registry_sound st1) as Hsound1.
  { apply (bind_all_keeps registry_sound); [|done].
    intros ????. by apply registry_sound_bind_state. }
  assert (∃ m, loaded_at st1 base mkey = Some m ∧
               is_Some (dict_lookup (mod_connector m) "in"))
    as (this1 & Hthis1 & Hins1).
  { apply (bind_all_keeps
             (λ s, ∃ m, loaded_at s base mkey = Some m ∧
                        is_Some (dict_lookup (mod_connector m) "in"))).
    - intros ????. by apply loaded_in_bind_state.
    - exists this. by rewrite Hins. }
  destruct (connectEntry_returns base mkey o items mname conns c st1 this1)
    as [msg Hentry]; [done..| | | |].
  { apply od_get_is_Some. rewrite Hkeys. set_solver. }
  { unfold value_not_string. rewrite (Hframe base mkey c) by auto.
    exact Hslip. }
  { by rewrite Hres. }
  exists msg, (add_log (LogMsg "error" msg) st1). split_and!.
  - rewrite (connectModule_loop st base mkey dtb o items mname conns this ins)
      by done.
    by rewrite Hkeys, Hrun, for_each_cons, Hentry.
  - done.
  - intros d Hd. destruct (Hbound d Hd) as (oid & Hoid & Hobj). by exists oid.
  - intros c' Hc'.
    assert (c' ∉ done) as Hc'd.
    { intros Hin. by apply (Hnd2 _ Hin). }
    by rewrite <- (Hframe base mkey c') by auto.
Qed.

(** The controller whose first entry is bound and whose second names no
    loaded module: the call binds 'pump', logs one error at 'aux' and
    returns, and 'aux' is left as it was. *)
Lemma connectModule_stops_at_failure_witness :
  ∃ msg st',
    connectModule "logic" "ctl" (wiring_manager pump_then_aux PyNone)
      = (Ok tt, st') ∧
    st' = add_log (LogMsg "error" msg)
            (bind_all (wiring_manager pump_then_aux PyNone)
               "logic" "ctl" (PyDict true pump_then_aux) ["pump"]) ∧
    (∀ d, d ∈ ["pump"] → ∃ oid,
       resolve_target (wiring_manager pump_then_aux PyNone) "logic" "ctl"
         (PyDict true pump_then_aux) d = Some oid ∧
       bound_object st' "logic" "ctl" d = Some (PyObj oid)) ∧
    (∀ c', c' ∈ ["aux"] →
       in_connector st' "logic" "ctl" c'
         = in_connector (wiring_manager pump_then_aux PyNone) "logic" "ctl" c').
Proof.
  refine (proj2 (proj2 (connectModule_stops_at_failure
            (wiring_manager pump_then_aux PyNone) "logic" "ctl"
            {[ "ctl" := PyDict true [("module", PyStr "ctl_logic");
                                     ("connect", PyDict true pump_then_aux)] ]}
            true [("module", PyStr "ctl_logic");
                  ("connect", PyDict true pump_then_aux)]
            (PyStr "ctl_logic") pump_then_aux (controller PyNone)
            (PyDict true
               [("aux", PyDict true [("class", PyStr "Aux"); ("object", PyNone)]);
                ("pump", PyDict true [("class", PyStr "Pump"); ("object", PyNone)])])
            ["pump"] "aux" [])) _ _ _ _ _ _ _ _ _ _ _ _);
    try (vm_compute; reflexivity).
  - refine (bool_decide_unpack _ _); vm_compute; exact I.
  - refine (bool_decide_unpack _ _); vm_compute; exact I.
  - intros d ->%list_elem_of_singleton. vm_compute. eauto.
Defined.

(** C10 as the specification states it fails: the connector 'pump' of the
    controller is bound already, so its entry fails the check of line 567;
    the call logs the error and returns, and the object of the failing
    entry is the pump, not [None]. *)
Lemma connectModule_stops_counterexample :
  resolve_target bound_manager "logic" "ctl" (PyDict true pump_entry) "pump"
    = None ∧
  ∃ st', connectModule "logic" "ctl" bound_manager = (Ok tt, st') ∧
    log st' = [LogMsg "error" "object is not None, i.e. is already connected"] ∧
    bound_object st' "logic" "ctl" "pump" = Some (PyObj 0) ∧
    bound_object st' "logic" "ctl" "pump" ≠ Some PyNone.
Proof.
  split; [vm_compute; reflexivity|].
  eexists. split_and!; [vm_compute; reflexivity | reflexivity
                       | vm_compute; reflexivity |].
  vm_compute. discriminate.
Qed.

End binding_claims.

Section configuration_claims.

(** C6. [setBaseDir] asks [os.path] for [dirName], a name the module does
    not define: every call raises [AttributeError] before anything is set.
    [configure] swallows the exception, so no configuration document ever
    changes the base directory or sends the base-directory-changed
    notification; for the document whose 'global' section gives a
    [storageDir] the base directory stays unset, and the log shows the
    announcement followed by the swallowed exception. *)
Theorem configure_storageDir_not_applied :
  (∀ path st, setBaseDir path st = (Raise (AttributeError "dirName"), st)) ∧
  (∀ cfg st, baseDir (configure cfg st).2 = baseDir st ∧
             baseDir_signals (configure cfg st).2 = baseDir_signals st) ∧
  ∃ st', configure storage_cfg init_manager = (Ok tt, st') ∧
    baseDir st' = PyNone ∧
    emitted st' = [sigConfigChanged] ∧
    log st' = [PrintLogMsg "=== Setting base directory ===";
               PrintExc "Error in configuration:"].
Proof.
  split_and!.
  - apply setBaseDir_raises.
  - intros cfg st. split.
    + apply configure_keeps_baseDir.
    + apply configure_keeps_baseDir_signals.
  - eexists. split_and!; [vm_compute; reflexivity | reflexivity..].
Qed.

End configuration_claims.

Section sort_claims.

(** The sort puts a ready node of highest key first. *)
Lemma insert_desc_head key x l r rest :
  (∀ y, y ∈ l → ∃ h t, l = h :: t ∧ key y ≤ key h) →
  insert_desc key x l = r :: rest →
  key x ≤ key r ∧ ∀ y, y ∈ l → key y ≤ key r.
Proof.
  destruct l as [|h t]; cbn.
  - intros _ [= <- <-]. split; [lia|]. by intros y ?%elem_of_nil.
  - intros Hmax. case_bool_decide as Hlt; intros [= <- <-].
    + split; [lia|]. intros y Hy.
      destruct (Hmax y Hy) as (h' & t' & [= <- <-] & Hle). done.
    + split; [lia|]. intros y Hy.
      destruct (Hmax y Hy) as (h' & t' & [= <- <-] & Hle). lia.
Qed.

Lemma sort_desc_head key l :
  ∀ y, y ∈ sort_desc key l → ∃ h t, sort_desc key l = h :: t ∧ key y ≤ key h.
Proof.
  induction l as [|x l IH]; cbn; [by intros y ?%elem_of_nil|].
  intros y Hy. rewrite insert_desc_perm in Hy.
  destruct (insert_desc key x (sort_desc key l)) as [|r rest] eqn:Hins.
  { pose proof (insert_desc_perm key x (sort_desc key l)) as Hp.
    rewrite Hins in Hp. by apply Permutation_nil_l in Hp. }
  destruct (insert_desc_head key x _ r rest IH Hins) as [Hx Hl].
  exists r, rest. split; [done|].
  apply elem_of_cons in Hy as [->|Hy]; auto.
Qed.

Lemma picked_highest key ready r rest :
  picked (Some key) ready = r :: rest → ∀ x, x ∈ ready → key x ≤ key r.
Proof.
  cbn. intros Hs x Hx. rewrite <- (sort_desc_perm key) in Hx.
  destruct (sort_desc_head key ready x Hx) as (h & t & Heq & Hle).
  rewrite Hs in Heq. by simplify_eq.
Qed.

End sort_claims.

(** ** More about the resolver *)

Section resolver_outcomes.
Implicit Types (d : graph) (r k x : string) (v : list string).

Lemma list_remove_None r v : list_remove r v = None ↔ r ∉ v.
Proof.
  induction v as [|y v IH]; simpl.
  - split; [intros _ ?%elem_of_nil; done | done].
  - case_decide as Hry.
    + subst. split; [done|]. intros H. exfalso. apply H, elem_of_cons. by left.
    + rewrite fmap_None, IH, not_elem_of_cons. naive_solver.
Qed.

Lemma list_remove_Some_perm r v v' : list_remove r v = Some v' → v ≡ₚ r :: v'.
Proof.
  revert v'. induction v as [|y v IH]; intros v'; simpl; [done|].
  case_decide as Hry.
  - intros [= <-]. by subst.
  - destruct (list_remove r v) as [w|]; [|done]. intros [= <-].
    rewrite (IH w eq_refl). apply Permutation_swap.
Qed.

(** A key whose list names a node twice, or names something that is no key
    any more, never gets ready: the loop ends in the cycle error. *)
Lemma weighted_order_stuck fuel key d acc x v :
  is_dict d → (x, v) ∈ d →
  (¬ NoDup v ∨ ∃ y, y ∈ v ∧ y ∉ od_keys d) →
  (length d ≤ fuel)%nat →
  weighted_order fuel key d acc = Some (Raise cycle_error).
Proof.
  revert d acc v.
  induction fuel as [|fuel IH]; intros d acc v Hdict Hx Hbad Hlen.
  { destruct d; [by apply elem_of_nil in Hx | simpl in Hlen; lia]. }
  assert (d ≠ []) as Hne by (intros ->; by apply elem_of_nil in Hx).
  destruct (picked key (ready_nodes d)) as [|r rest] eqn:Hp.
  { apply weighted_order_cycle; [done|].
    apply Permutation_nil_r. by rewrite <- (picked_perm key), Hp. }
  rewrite (weighted_order_step _ _ _ _ _ _ Hp).
  pose proof (picked_ready _ _ _ _ Hp) as Hr.
  assert (r ∈ od_keys d) as Hrk by (apply elem_of_od_keys; eauto).
  assert (x ≠ r) as Hxr.
  { intros ->. rewrite (is_dict_unique d r v [] Hdict Hx Hr) in Hbad.
    destruct Hbad as [Hbad|(y & []%elem_of_nil & _)]. apply Hbad. constructor. }
  apply (IH _ _ (default v (list_remove r v))).
  - by apply is_dict_round.
  - apply elem_of_round. by exists v.
  - destruct Hbad as [Hdup|(y & Hy & Hyk)].
    + destruct (list_remove r v) as [v'|] eqn:Hrem; simpl; [|by left].
      destruct (decide (r ∈ v')) as [Hin|Hnin].
      * right. exists r. split; [done|].
        rewrite elem_of_keys_round. naive_solver.
      * left. intros Hnd. apply Hdup.
        rewrite (list_remove_Some_perm _ _ _ Hrem). by apply NoDup_cons.
    + right. exists y. split.
      * apply elem_of_list_remove_ne; [|done]. intros ->. done.
      * rewrite elem_of_keys_round. naive_solver.
  - pose proof (length_round d r Hrk). lia.
Qed.

(** With one round of fuel for every key the loop always ends: in an order
    that holds every key, or in the cycle error. *)
Lemma weighted_order_total fuel key d acc :
  (length d ≤ fuel)%nat →
  (∃ o, weighted_order fuel key d acc = Some (Ok (acc ++ o)) ∧
        ∀ k, k ∈ od_keys d → k ∈ o) ∨
  weighted_order fuel key d acc = Some (Raise cycle_error).
Proof.
  revert d acc. induction fuel as [|fuel IH]; intros d acc Hlen.
  { destruct d; [|simpl in Hlen; lia]. left. exists [].
    rewrite app_nil_r. split; [done|]. by intros k ?%elem_of_nil. }
  destruct (decide (d = [])) as [->|Hne].
  { left. exists []. rewrite app_nil_r. split; [done|].
    by intros k ?%elem_of_nil. }
  destruct (picked key (ready_nodes d)) as [|r rest] eqn:Hp.
  { right. apply weighted_order_cycle; [done|].
    apply Permutation_nil_r. by rewrite <- (picked_perm key), Hp. }
  rewrite (weighted_order_step _ _ _ _ _ _ Hp).
  pose proof (picked_ready _ _ _ _ Hp) as Hr.
  assert (r ∈ od_keys d) as Hrk by (apply elem_of_od_keys; eauto).
  destruct (IH (remove_from_values r (od_del r d)) (acc ++ [r]))
    as [(o & Ho & Hmem)|Ho].
  { pose proof (length_round d r Hrk). lia. }
  2: { by right. }
  left. exists (r :: o). split.
  - by rewrite Ho, <- app_assoc.
  - intros k Hk. destruct (decide (k = r)) as [->|Hkr].
    + apply elem_of_cons; by left.
    + apply elem_of_cons; right. apply Hmem, elem_of_keys_round. done.
Qed.

Lemma weighted_order_total_nil key d :
  (∃ o, weighted_order (length d) key d [] = Some (Ok o) ∧
        ∀ k, k ∈ od_keys d → k ∈ o) ∨
  weighted_order (length d) key d [] = Some (Raise cycle_error).
Proof. by apply (weighted_order_total (length d) key d []). Qed.

Lemma totalCost_total (deps0 : graph) (c : gmap string Z) :
  is_dict deps0 →
  (∃ tc, totalCost deps0 c = Some (Ok tc)) ∨
  totalCost deps0 c = Some (Raise cycle_error).
Proof.
  intros Hd. unfold totalCost.
  destruct (weighted_order_total_nil None (normalize (normalize deps0)))
    as [(order & -> & Hmem)| ->]; [|by right].
  destruct (allDeps_of_ok (normalize deps0) order) as (m & Hm & _).
  { by apply closed_normalize. }
  { intros k Hk. apply Hmem. apply od_keys_normalize; [apply is_dict_normalize|].
    by left. }
  left. simpl. rewrite Hm. simpl. eauto.
Qed.

(** The outcome of the loop does not depend on the sort key. *)
Lemma toposort_ok_acyclic (deps0 : graph) cost order :
  is_dict deps0 → toposort deps0 cost = Some (Ok order) →
  simple_lists deps0 ∧ acyclic deps0.
Proof.
  intros Hd Hok.
  assert (∃ key, weighted_order (length (normalize deps0)) key (normalize deps0) []
                 = Some (Ok order)) as [key Hloop].
  { unfold toposort in Hok. destruct cost as [c|]; [|eauto].
    destruct (totalCost deps0 c) as [[tc|e]|]; [eauto|done..]. }
  split.
  - intros k v Hin. destruct (decide (NoDup v)) as [|Hdup]; [done|].
    rewrite (weighted_order_stuck _ _ _ _ k v) in Hloop; [done| | |by left|done].
    + apply is_dict_normalize.
    + apply elem_of_normalize; auto.
  - intros n Hn.
    rewrite normalize_cyclic_raises in Hloop; [done|done| |done].
    by exists n.
Qed.

End resolver_outcomes.

Section resolver_properties.
Implicit Types (d : graph) (r k x : string) (v : list string).

(** Membership in a concrete list, decided by evaluation. *)
Local Ltac by_compute := refine (bool_decide_unpack _ _); vm_compute; exact I.

(** A graph whose dependencies all go down a rank has no cycle. *)
Lemma acyclic_ranked d (rank : string → nat) :
  (∀ a b, depends d a b → (rank b < rank a)%nat) → acyclic d.
Proof.
  intros Hrank n Hn.
  assert (∀ a b, tc (depends d) a b → (rank b < rank a)%nat) as Htc.
  { intros a b H. induction H as [a b H|a b c H _ IH].
    - by apply Hrank.
    - apply Hrank in H. lia. }
  apply Htc in Hn. lia.
Qed.

Lemma example_deps_ok :
  is_dict example_deps ∧ simple_lists example_deps ∧ acyclic example_deps.
Proof.
  split_and!.
  - by_compute.
  - intros k v Hin. unfold example_deps in Hin.
    repeat (apply elem_of_cons in Hin as [Hin|Hin]; [simplify_eq; by_compute|]).
    by apply elem_of_nil in Hin.
  - apply (acyclic_ranked _ (λ n, if decide (n = "a") then 2 else
                                  if decide (n = "c") then 1 else
                                  if decide (n = "e") then 1 else 0)%nat).
    intros a b (v & Hin & Hb). unfold example_deps in Hin.
    repeat (apply elem_of_cons in Hin as [Hin|Hin];
      [simplify_eq;
       repeat (apply elem_of_cons in Hb as [->|Hb]; [vm_compute; lia|]);
       by apply elem_of_nil in Hb|]).
    by apply elem_of_nil in Hin.
Qed.

(** X1 witness: the dictionary of the docstring. *)
Lemma toposort_sound_witness :
  ∃ order, toposort example_deps (Some example_cost) = Some (Ok order) ∧
    NoDup order ∧
    (∀ n, n ∈ order ↔ is_node example_deps n) ∧
    (∀ a b, depends example_deps a b → before order b a).
Proof.
  destruct example_deps_ok as (H1 & H2 & H3).
  exact (toposort_sound example_deps (Some example_cost) H1 H2 H3).
Defined.

(** X2. The resolver returns an order exactly for the dictionaries whose
    graph has no cycle and whose lists name no node twice, whatever the
    costs. *)
Theorem toposort_ok_iff (deps0 : graph) (cost : option (gmap string Z)) :
  is_dict deps0 →
  (∃ order, toposort deps0 cost = Some (Ok order)) ↔
    simple_lists deps0 ∧ acyclic deps0.
Proof.
  intros Hd. split.
  - intros [order Hok]. by eapply toposort_ok_acyclic.
  - intros [Hsl Hac].
    assert (∀ key, ∃ order,
      weighted_order (length (normalize deps0)) key (normalize deps0) []
        = Some (Ok order)) as Hloop.
    { intros key.
      destruct (weighted_order_sound (length (normalize deps0)) key
                  (normalize deps0) []) as (o & Ho & _).
      { apply is_dict_normalize. }
      { by apply closed_normalize. }
      { by apply simple_lists_normalize. }
      { by apply acyclic_normalize. }
      { done. }
      by exists o. }
    unfold toposort. destruct cost as [c|]; [|apply Hloop].
    destruct (totalCost_ok deps0 c) as [tc ->]; [done..|]. apply Hloop.
Qed.

Lemma toposort_ok_iff_witness :
  (∃ order, toposort example_deps None = Some (Ok order)) ↔
    simple_lists example_deps ∧ acyclic example_deps.
Proof.
  destruct example_deps_ok as (H1 & _).
  exact (toposort_ok_iff example_deps None H1).
Defined.

(** X3. The loop of the resolver ends for every dictionary, with or
    without costs: the call returns an order or raises the cycle error; it
    raises nothing else, neither from the branch-cost pass nor from
    [ready[0]]. *)
Theorem toposort_terminates (deps0 : graph) (cost : option (gmap string Z)) :
  is_dict deps0 →
  (∃ order, toposort deps0 cost = Some (Ok order)) ∨
  toposort deps0 cost = Some (Raise cycle_error).
Proof.
  intros Hd. unfold toposort. destruct cost as [c|].
  - destruct (totalCost_total deps0 c Hd) as [[tc ->]| ->]; [|by right].
    destruct (weighted_order_total_nil (Some (cost_key tc)) (normalize deps0))
      as [(order & -> & _)| ->]; eauto.
  - destruct (weighted_order_total_nil None (normalize deps0))
      as [(order & -> & _)| ->]; eauto.
Qed.

Lemma toposort_terminates_witness :
  (∃ order, toposort repeated_deps None = Some (Ok order)) ∨
  toposort repeated_deps None = Some (Raise cycle_error).
Proof.
  refine (toposort_terminates repeated_deps None _). by_compute.
Defined.

(** X4. With costs, the node the resolver emits first has the highest
    computed branch cost of all the nodes without dependencies. *)
Theorem toposort_first_highest (deps0 : graph) (cost : gmap string Z)
    tc r rest :
  is_dict deps0 →
  totalCost deps0 cost = Some (Ok tc) →
  toposort deps0 (Some cost) = Some (Ok (r :: rest)) →
  ∀ x, is_node deps0 x → (∀ y, ¬ depends deps0 x y) →
       cost_key tc x ≤ cost_key tc r.
Proof.
  intros Hd Htc Hok x Hx Hfree.
  unfold toposort in Hok. rewrite Htc in Hok.
  assert ((x, []) ∈ normalize deps0) as Hready.
  { apply (od_keys_normalize _ _ Hd), elem_of_od_keys in Hx as [[|y v] Hv];
      [done|].
    exfalso. apply (Hfree y). apply (depends_normalize _ _ _ Hd).
    exists (y :: v). split; [done|]. apply elem_of_cons; by left. }
  destruct (normalize deps0) as [|kv d] eqn:Hn; [by apply elem_of_nil in Hready|].
  rewrite <- Hn in *. clear Hn.
  destruct (picked (Some (cost_key tc)) (ready_nodes (normalize deps0)))
    as [|r' rest'] eqn:Hp.
  { apply elem_of_ready_nodes in Hready.
    rewrite <- (picked_perm (Some (cost_key tc))), Hp in Hready.
    by apply elem_of_nil in Hready. }
  assert (∃ n, length (normalize deps0) = S n) as [n Hlen].
  { destruct (normalize deps0); [by apply elem_of_nil in Hready|].
    simpl. eauto. }
  rewrite Hlen, (weighted_order_step _ _ _ _ _ _ Hp) in Hok.
  destruct (weighted_order_total n (Some (cost_key tc))
              (remove_from_values r' (od_del r' (normalize deps0))) ([] ++ [r']))
    as [(o & Ho & _)|Ho].
  { assert (r' ∈ od_keys (normalize deps0)) as Hrk.
    { apply elem_of_od_keys. exists []. by eapply picked_ready. }
    pose proof (length_round _ r' Hrk). lia. }
  - rewrite Ho in Hok. simpl in Hok. simplify_eq.
    eapply picked_highest; [done|]. by apply elem_of_ready_nodes.
  - rewrite Ho in Hok. done.
Qed.

End resolver_properties.

(** ** What the branch-cost pass computes *)

Section branch_cost_facts.
Implicit Types (d : graph) (m : gmap string (gset string)) (o p q : list string).

Lemma allDeps_inner_spec n m v :
  n ∉ v → (∀ x, x ∈ v → x ∈ dom m) →
  ∃ m', rfold (allDeps_step n) m v = Ok m' ∧ dom m' = dom m ∧
    ∀ x, default ∅ (m' !! x) =
         if decide (x ∈ v) then default ∅ (m !! x) ∪ default ∅ (m !! n)
         else default ∅ (m !! x).
Proof.
  revert m. induction v as [|y v IH]; intros m Hn Hdom; simpl.
  { exists m. split_and!; [done..|]. intros x.
    by destruct (decide (x ∈ [])) as [?%elem_of_nil|]. }
  apply not_elem_of_cons in Hn as [Hny Hn].
  assert (y ∈ dom m) as [s Hs]%elem_of_dom
    by (apply Hdom, elem_of_cons; by left).
  unfold allDeps_step at 1. rewrite Hs. simpl.
  destruct (IH (<[y := s ∪ default ∅ (m !! n)]> m)) as (m' & -> & Hd' & Hget).
  { done. }
  { intros x Hx. rewrite dom_insert_L. apply elem_of_union. right.
    apply Hdom, elem_of_cons. by right. }
  exists m'. split_and!; [done| |].
  { rewrite Hd', dom_insert_L. apply elem_of_dom_2 in Hs. set_solver. }
  intros x. rewrite Hget.
  rewrite (lookup_insert_ne _ y n) by done.
  destruct (decide (x = y)) as [->|Hxy].
  - rewrite lookup_insert_eq, Hs. simpl.
    rewrite (decide_True (P := y ∈ y :: v)) by (apply elem_of_cons; by left).
    destruct (decide (y ∈ v)); set_solver.
  - rewrite lookup_insert_ne by done.
    destruct (decide (x ∈ v)) as [Hin|Hin].
    + rewrite decide_True by (apply elem_of_cons; by right). done.
    + rewrite decide_False; [done|]. rewrite not_elem_of_cons. done.
Qed.

Lemma allDeps_init_aux_lookup m o x :
  foldl (λ m n, <[n := set_of_str n]> m) m o !! x =
    if decide (x ∈ o) then Some (set_of_str x) else m !! x.
Proof.
  revert m. induction o as [|n o IH]; intros m; simpl.
  { by destruct (decide (x ∈ [])) as [?%elem_of_nil|]. }
  rewrite IH. destruct (decide (x ∈ o)) as [Hin|Hin].
  - rewrite decide_True by (apply elem_of_cons; by right). done.
  - destruct (decide (x = n)) as [->|Hxn].
    + rewrite decide_True by (apply elem_of_cons; by left).
      by rewrite lookup_insert_eq.
    + rewrite decide_False by (rewrite not_elem_of_cons; done).
      by rewrite lookup_insert_ne.
Qed.

Lemma allDeps_init_lookup o x :
  x ∈ o → allDeps_init o !! x = Some (set_of_str x).
Proof.
  intros Hx. unfold allDeps_init. rewrite allDeps_init_aux_lookup.
  by rewrite decide_True.
Qed.

(** In a list without repetitions an element splits the list in one way. *)
Lemma NoDup_split_inj {A} (p p' q q' : list A) b :
  NoDup (p ++ b :: q) → p ++ b :: q = p' ++ b :: q' → p = p'.
Proof.
  revert p'. induction p as [|a p IH]; intros p' Hnd Heq.
  - destruct p' as [|a' p']; [done|]. simpl in *. simplify_eq.
    apply NoDup_cons in Hnd as [Hb _]. exfalso. apply Hb.
    apply elem_of_app. right. apply elem_of_cons. by left.
  - destruct p' as [|a' p']; simpl in *; simplify_eq.
    + apply NoDup_cons in Hnd as [Hb _]. exfalso. apply Hb.
      apply elem_of_app. right. apply elem_of_cons. by left.
    + f_equal. apply NoDup_cons in Hnd as [_ Hnd]. by apply IH.
Qed.

(** What comes later in [o] has been met already when the reversed list
    reaches [b]. *)
Lemma before_reverse o p q b a :
  NoDup o → reverse o = p ++ b :: q → before o b a → a ∈ p.
Proof.
  intros Hnd Hrev (l1 & l2 & l3 & ->).
  assert (reverse (l1 ++ b :: l2 ++ a :: l3)
          = (reverse l3 ++ a :: reverse l2) ++ b :: reverse l1) as Heq.
  { rewrite reverse_app, reverse_cons, reverse_app, reverse_cons.
    rewrite <- !app_assoc. done. }
  rewrite Heq in Hrev.
  apply NoDup_split_inj in Hrev as <-.
  - apply elem_of_app. right. apply elem_of_cons. by left.
  - rewrite <- Heq. by rewrite reverse_Permutation.
Qed.

Lemma downstream_chars_unfold d x e :
  downstream_chars d x e ↔
    e ∈ set_of_str x ∨ ∃ n, depends d n x ∧ downstream_chars d n e.
Proof.
  unfold downstream_chars, downstream. split.
  - intros (y & Hy & He). apply rtc_inv_r in Hy as [->|(z & Hyz & Hzx)].
    + by left.
    + right. exists z. split; [done|]. by exists y.
  - intros [He|(n & Hnx & y & Hy & He)].
    + exists x. split; [apply rtc_refl | done].
    + exists y. split; [|done]. by eapply rtc_r.
Qed.

Section outer.
Context (d : graph) (o : list string).
Hypothesis Hdict : is_dict d.
Hypothesis Hclosed : closed d.
Hypothesis Hacyclic : acyclic d.
Hypothesis Hnodup : NoDup o.
Hypothesis Hkeys : ∀ x, x ∈ o ↔ x ∈ od_keys d.
Hypothesis Hbefore : ∀ a b, depends d a b → before o b a.

Lemma depends_key a b : depends d a b → a ∈ o.
Proof.
  intros (v & Hin & _). apply Hkeys, elem_of_od_keys. eauto.
Qed.

Lemma allDeps_outer_spec q : ∀ p m,
  reverse o = p ++ q → dom m = list_to_set o →
  (∀ x e, x ∈ o →
     e ∈ default ∅ (m !! x) ↔
       e ∈ set_of_str x ∨ ∃ n, n ∈ p ∧ depends d n x ∧ downstream_chars d n e) →
  ∃ m', rfold (λ a n, rfold (allDeps_step n) a (default [] (od_get n d))) m q
          = Ok m' ∧
    dom m' = list_to_set o ∧
    ∀ x e, x ∈ o → e ∈ default ∅ (m' !! x) ↔ downstream_chars d x e.
Proof.
  induction q as [|n q IH]; intros p m Hrev Hdom Hinv; simpl.
  { exists m. split_and!; [done..|]. intros x e Hx.
    rewrite (Hinv x e Hx), downstream_chars_unfold.
    rewrite app_nil_r in Hrev. subst p.
    split; (intros [?|(n & Hn)]; [by left|right; exists n]).
    - naive_solver.
    - destruct Hn as [Hnx Hd]. split_and!; [|done..].
      apply elem_of_reverse. by eapply depends_key. }
  assert (n ∈ o) as Hno.
  { apply elem_of_reverse. rewrite Hrev. apply elem_of_app. right.
    apply elem_of_cons. by left. }
  destruct (proj2 (od_get_is_Some d n)) as [v Hv]; [by apply Hkeys|].
  pose proof (od_get_Some_elem _ _ _ Hv) as Hin.
  rewrite Hv. simpl.
  assert (∀ x, depends d n x ↔ x ∈ v) as Hdep.
  { intros x. split.
    - intros (v' & Hin' & Hx).
      by rewrite (is_dict_unique d n v v' Hdict Hin Hin').
    - intros Hx. by exists v. }
  destruct (allDeps_inner_spec n m v) as (m1 & -> & Hdom1 & Hget).
  { intros Hn%Hdep. apply (Hacyclic n). by apply tc_once. }
  { intros x Hx. rewrite Hdom. apply elem_of_list_to_set, Hkeys.
    by eapply Hclosed. }
  simpl.
  assert (∀ e, e ∈ default ∅ (m !! n) ↔ downstream_chars d n e) as Hn.
  { intros e. rewrite (Hinv n e Hno), downstream_chars_unfold.
    split; (intros [?|(n' & Hn')]; [by left|right; exists n']).
    - naive_solver.
    - destruct Hn' as [Hn'n Hd]. split_and!; [|done..].
      eapply before_reverse; [done..|]. by apply Hbefore. }
  apply (IH (p ++ [n]) m1).
  - by rewrite <- app_assoc.
  - by rewrite Hdom1.
  - intros x e Hx. rewrite Hget.
    destruct (decide (x ∈ v)) as [Hxv|Hxv].
    + rewrite elem_of_union, (Hinv x e Hx), Hn. split.
      * intros [[?|(n' & Hn' & ?)]|?]; [by left| |].
        -- right. exists n'. split; [|done]. apply elem_of_app. by left.
        -- right. exists n. split_and!; [|by apply Hdep|done].
           apply elem_of_app. right. apply elem_of_cons. by left.
      * intros [?|(n' & [Hn'|Hn']%elem_of_app & Hn'x & Hd)].
        -- left. by left.
        -- left. right. by exists n'.
        -- apply list_elem_of_singleton in Hn' as ->. by right.
    + rewrite (Hinv x e Hx). split.
      * intros [?|(n' & Hn' & ?)]; [by left|].
        right. exists n'. split; [|done]. apply elem_of_app. by left.
      * intros [?|(n' & [Hn'|Hn']%elem_of_app & Hn'x & Hd)]; [by left| |].
        -- right. by exists n'.
        -- apply list_elem_of_singleton in Hn' as ->.
           by apply Hdep in Hn'x.
Qed.

Lemma allDeps_of_spec :
  ∃ m, allDeps_of d o = Ok m ∧
    ∀ x, x ∈ o →
      ∃ s, m !! x = Some s ∧ ∀ e, e ∈ s ↔ downstream_chars d x e.
Proof.
  destruct (allDeps_outer_spec (reverse o) [] (allDeps_init o))
    as (m & Hm & Hdom & Hspec).
  - done.
  - apply dom_allDeps_init.
  - intros x e Hx. rewrite (allDeps_init_lookup _ _ Hx). simpl. split.
    + by left.
    + intros [?|(n & []%elem_of_nil & _)]. done.
  - exists m. split; [done|]. intros x Hx.
    assert (x ∈ dom m) as [s Hs]%elem_of_dom.
    { rewrite Hdom. by apply elem_of_list_to_set. }
    exists s. split; [done|]. intros e.
    rewrite <- (Hspec x e Hx), Hs. done.
Qed.

End outer.

Lemma rtc_depends_normalize (p : graph) a b :
  is_dict p → rtc (depends (normalize p)) a b ↔ rtc (depends p) a b.
Proof.
  intros Hp. split; apply rtc_congruence with (f := id); intros x y;
    by apply depends_normalize.
Qed.

(** The branch costs the resolver computes: for every node the sum of the
    costs of the characters of the names of its downstream set. *)
Lemma totalCost_spec (deps0 : graph) (cost : gmap string Z) :
  is_dict deps0 → simple_lists deps0 → acyclic deps0 →
  ∃ tc, totalCost deps0 cost = Some (Ok tc) ∧
    ∀ n, is_node deps0 n →
      ∃ s : gset string, tc !! n = Some (sum_cost cost s) ∧
        ∀ e, e ∈ s ↔ downstream_chars deps0 n e.
Proof.
  intros Hd Hsl Hac. unfold totalCost.
  pose proof (is_dict_normalize deps0) as Hd1.
  pose proof (closed_normalize deps0 Hd) as Hcl1.
  destruct (weighted_order_sound (length (normalize (normalize deps0))) None
              (normalize (normalize deps0)) [])
    as (order & -> & Hnd & Hmem & Hbef).
  { apply is_dict_normalize. }
  { by apply closed_normalize. }
  { by apply simple_lists_normalize, simple_lists_normalize. }
  { by apply acyclic_normalize, acyclic_normalize. }
  { done. }
  simpl in *.
  assert (∀ x, x ∈ order ↔ x ∈ od_keys (normalize deps0)) as Hkeys.
  { intros x. rewrite Hmem, (od_keys_normalize _ _ Hd1). unfold is_node.
    split; [|by left]. intros [?|(k & v & Hin & Hx)]; [done|].
    by eapply Hcl1. }
  destruct (allDeps_of_spec (normalize deps0) order) as (m & -> & Hspec).
  { done. }
  { done. }
  { by apply acyclic_normalize. }
  { done. }
  { done. }
  { intros a b Hab. apply Hbef. by apply depends_normalize. }
  simpl. eexists. split; [done|]. intros n Hn.
  destruct (Hspec n) as (s & Hs & He).
  { by apply Hkeys, od_keys_normalize. }
  exists s. split.
  - unfold totalCost_of. by rewrite lookup_fmap, Hs.
  - intros e. rewrite He. unfold downstream_chars, downstream.
    split; intros (y & Hy & Hey); exists y; (split; [|done]);
      by apply (rtc_depends_normalize deps0).
Qed.

Lemma set_of_str_short (n : string) :
  String.length n = 1%nat → set_of_str n = {[ n ]}.
Proof.
  destruct n as [|a [|b n]]; simpl; try done. intros _.
  unfold set_of_str. simpl. set_solver.
Qed.

Lemma downstream_node (deps : graph) n y :
  is_node deps n → downstream deps n y → is_node deps y.
Proof.
  intros Hn Hy. unfold downstream in Hy.
  apply rtc_inv in Hy as [->|(z & (v & Hin & _) & _)]; [done|].
  left. apply elem_of_od_keys. eauto.
Qed.

End branch_cost_facts.

Section branch_cost_properties.

Local Ltac by_compute := refine (bool_decide_unpack _ _); vm_compute; exact I.

(** X5. For a dictionary without cycles and repeated dependencies in which
    every node has a name of one character, the branch cost the resolver
    computes for a node is the sum of [cost] over its downstream set: the
    nodes that transitively depend on it and the node itself. *)
Theorem totalCost_short_names (deps0 : graph) (cost : gmap string Z) :
  is_dict deps0 → simple_lists deps0 → acyclic deps0 → short_names deps0 →
  ∃ tc, totalCost deps0 cost = Some (Ok tc) ∧
    ∀ n, is_node deps0 n →
      ∃ z, tc !! n = Some z ∧ is_branch_cost deps0 cost n z.
Proof.
  intros Hd Hsl Hac Hshort.
  destruct (totalCost_spec deps0 cost Hd Hsl Hac) as (tc & Htc & Hspec).
  exists tc. split; [done|]. intros n Hn.
  destruct (Hspec n Hn) as (s & Hs & He).
  exists (sum_cost cost s). split; [done|]. exists s. split; [|done].
  intros x. rewrite He. unfold downstream_chars. split.
  - intros (y & Hy & Hxy).
    rewrite set_of_str_short in Hxy
      by (eapply Hshort, downstream_node; eauto).
    by apply elem_of_singleton in Hxy as ->.
  - intros Hx. exists x. split; [done|].
    rewrite set_of_str_short by (eapply Hshort, downstream_node; eauto).
    by apply elem_of_singleton.
Qed.

End branch_cost_properties.

Section resolver_witnesses.

Local Ltac by_compute := refine (bool_decide_unpack _ _); vm_compute; exact I.

Lemma example_deps_short : short_names example_deps.
Proof.
  intros n [Hk|(k & v & Hin & Hn)].
  - unfold example_deps in Hk. cbn in Hk.
    repeat (apply elem_of_cons in Hk as [->|Hk]; [done|]).
    by apply elem_of_nil in Hk.
  - unfold example_deps in Hin.
    repeat (apply elem_of_cons in Hin as [Hin|Hin];
      [simplify_eq;
       repeat (apply elem_of_cons in Hn as [->|Hn]; [done|]);
       by apply elem_of_nil in Hn|]).
    by apply elem_of_nil in Hin.
Qed.

Lemma toposort_first_highest_witness :
  ∃ tc, totalCost example_deps example_cost = Some (Ok tc) ∧
    ∀ x, is_node example_deps x → (∀ y, ¬ depends example_deps x y) →
         cost_key tc x ≤ cost_key tc "d".
Proof.
  eexists. split; [vm_compute; reflexivity|].
  refine (toposort_first_highest example_deps example_cost _ "d"
            ["b"; "c"; "e"; "a"] _ _ _).
  - by_compute.
  - vm_compute; reflexivity.
  - vm_compute; reflexivity.
Defined.

Lemma totalCost_short_names_witness :
  ∃ tc, totalCost example_deps example_cost = Some (Ok tc) ∧
    ∀ n, is_node example_deps n →
      ∃ z, tc !! n = Some z ∧ is_branch_cost example_deps example_cost n z.
Proof.
  destruct example_deps_ok as (H1 & H2 & H3).
  exact (totalCost_short_names example_deps example_cost H1 H2 H3
           example_deps_short).
Defined.

End resolver_witnesses.

(** ** More about activation *)

Section lifecycle_properties.

Implicit Types (st : manager) (m : module_inst).

(** X6. In a category that has a startup table, as gui and logic have, a
    loaded module that has left the state 'deactivated' is not activated
    again: the call returns without running the hook, and it logs an
    error exactly when the module is not in the startup table. *)
Theorem activateModule_running st base key m start :
  loaded_at st base key = Some m → mod_state m ≠ "deactivated" →
  tree_start st !! base = Some start →
  activateModule base key st =
    (Ok tt,
     if bool_decide (is_Some (start !! key)) then st
     else add_log (LogMsg "error" "module not deactivated anymore") st).
Proof.
  intros Hm Hstate Hstart. case_bool_decide as Hkey.
  - by eapply activateModule_startup_noop.
  - eapply activateModule_not_startup; [done..|].
    by apply eq_None_not_Some.
Qed.

Lemma activateModule_running_witness :
  activateModule "gui" "main" window_manager =
    (Ok tt, add_log (LogMsg "error" "module not deactivated anymore")
              window_manager).
Proof.
  assert (loaded_at window_manager "gui" "main" = Some idle_window) as H1
    by (vm_compute; reflexivity).
  assert (mod_state idle_window ≠ "deactivated") as H2 by (simpl; discriminate).
  assert (tree_start window_manager !! "gui" = Some ∅) as H3
    by (vm_compute; reflexivity).
  exact (activateModule_running window_manager "gui" "main" idle_window ∅
           H1 H2 H3).
Defined.

(** X7. A loaded module in the state 'deactivated' is activated in every
    category: its hook runs exactly once and the call returns normally.
    When the hook succeeds the module is stored with its new state and
    nothing is logged; when it raises, the exception is trapped and logged
    and the tables are left as they were. No other module is touched and
    no signal is sent. *)
Theorem activateModule_runs_hook st base key m :
  loaded_at st base key = Some m → mod_state m = "deactivated" →
  ∃ st', activateModule base key st = (Ok tt, st') ∧
    hook_calls st' = hook_calls st ++ [mod_id m] ∧
    emitted st' = emitted st ∧
    (∀ b k, (b, k) ≠ (base, key) → loaded_at st' b k = loaded_at st b k) ∧
    match mod_activate m with
    | Ok s => loaded_at st' base key = Some (with_state m s) ∧ log st' = log st
    | Raise e =>
        tree_loaded st' = tree_loaded st ∧
        log st' = log st ++ [LogExc "error" "error during activation:"]
    end.
Proof.
  intros (tb & Htb & Hm)%loaded_at_Some Hstate.
  unfold activateModule, activate. run. rewrite Htb, Hm.
  rewrite bool_decide_eq_false_2 by (intros H; by apply H).
  rewrite Htb, Hm.
  rewrite bool_decide_eq_false_2 by (intros H; by apply H).
  cbn. rewrite Htb, Hm. cbn.
  destruct (mod_activate m) as [s|e]; cbn.
  - rewrite Htb. cbn. eexists. split_and!; try done.
    + intros b k Hne. cbn. rewrite lookup_insert.
      destruct (decide (base = b)) as [<-|Hb]; [|done].
      rewrite Htb, lookup_insert.
      destruct (decide (key = k)) as [<-|Hk]; done.
    + cbn. by rewrite !lookup_insert_eq.
  - eexists. split_and!; done.
Qed.

Lemma activateModule_runs_hook_witness :
  ∃ st', activateModule "hardware" "pump" (wiring_manager pump_entry PyNone)
           = (Ok tt, st') ∧
    hook_calls st' = [0%nat] ∧
    loaded_at st' "hardware" "pump" = Some (with_state pump_out "idle").
Proof.
  assert (loaded_at (wiring_manager pump_entry PyNone) "hardware" "pump"
          = Some pump_out) as H1 by (vm_compute; reflexivity).
  destruct (activateModule_runs_hook (wiring_manager pump_entry PyNone)
              "hardware" "pump" pump_out H1 eq_refl)
    as (st' & Hrun & Hhook & _ & _ & Hst & _).
  exists st'. split_and!; [exact Hrun | exact Hhook | exact Hst].
Defined.

End lifecycle_properties.

(** ** More about [configure] *)

Section configure_properties.

Implicit Types (st : manager).

Lemma for_all_total {A} (l : list A) (body : A → M unit) :
  (∀ x st, ∃ st', body x st = (Ok tt, st')) →
  ∀ st, ∃ st', for_all l body st = (Ok tt, st').
Proof.
  intros Hb. induction l as [|x l IH]; intros st; cbn; [by eexists|].
  unfold bind. destruct (Hb x st) as [st1 ->]. apply IH.
Qed.

Lemma try_except_total (body : M unit) (handler : exn → M unit) :
  (∀ e st, ∃ st', handler e st = (Ok tt, st')) →
  ∀ st, ∃ st', try_except body handler st = (Ok tt, st').
Proof.
  intros Hh st. unfold try_except.
  destruct (body st) as [[[]|e] st1]; [by eexists | apply Hh].
Qed.

(** X8. For every configuration document that is a mapping, [configure]
    returns normally: an error in a section is trapped and printed. The
    call sends sigConfigChanged once, as its last action, and no other
    signal; it never changes the loaded modules, the base directory or the
    file system, and never runs a hook. *)
Theorem configure_total o items st :
  ∃ st', configure (PyDict o items) st = (Ok tt, st') ∧
    emitted st' = emitted st ++ [sigConfigChanged] ∧
    untouched_by_configure st' = untouched_by_configure st.
Proof.
  unfold configure. cbn [py_iter lift].
  set (loop := for_all (od_keys items) (λ key,
          try_except (configure_key (PyDict o items) key)
                     (λ _, printExc "Error in configuration:"))).
  assert (∃ st1, loop st = (Ok tt, st1)) as [st1 Hloop].
  { apply for_all_total. intros key st0. apply try_except_total.
    intros e st2. by eexists. }
  assert (∀ {T} (f : manager → T),
    (∀ g st, f (set_defined g st) = f st) →
    (∀ g st, f (set_start g st) = f st) →
    (∀ g st, f (set_config g st) = f st) →
    (∀ k v st, f (set_pg_option k v st) = f st) →
    (∀ e st, f (add_log e st) = f st) →
    f st1 = f st) as Hkeeps.
  { intros T f Hd Hs Hc Hp Hl.
    assert (keeps f loop) as Hk.
    { unfold loop, printExc.
      repeat first [ apply keeps_configure_key; assumption | keeps_step ].
      all: apply keeps_modify; intros ?; apply Hl. }
    specialize (Hk st). by rewrite Hloop in Hk. }
  exists (add_signal sigConfigChanged st1). split_and!.
  - unfold bind, lift, emit, modify. cbn. fold loop. by rewrite Hloop.
  - cbn. by rewrite (Hkeeps _ emitted).
  - by rewrite <- (Hkeeps _ untouched_by_configure).
Qed.

End configure_properties.

(** ** The sections of a configuration document *)

Section configure_sections.

Implicit Types (st : manager) (P Q : manager → Prop).

Lemma for_all_cons_run {A} (x : A) l (body : A → M unit) st :
  for_all (x :: l) body st =
    match body x st with
    | (Ok _, st1) => for_all l body st1
    | (Raise e, st1) => (Raise e, st1)
    end.
Proof. cbn. unfold bind. by destruct (body x st) as [[[]|e] st1]. Qed.

(** One round of the loop of [configure]: the section runs, and an
    exception it raises is printed. *)
Lemma configure_round cfg key st :
  try_except (configure_key cfg key)
             (λ _, printExc "Error in configuration:") st =
    match configure_key cfg key st with
    | (Ok a, st1) => (Ok a, st1)
    | (Raise e, st1) =>
        (Ok tt, add_log (PrintExc "Error in configuration:") st1)
    end.
Proof. unfold try_except. by destruct (configure_key cfg key st) as [[|] ?]. Qed.

(** What the sections before [key] keep, the section [key] establishes
    and the sections after it keep, holds when [configure] is done. *)
Lemma configure_establishes P Q o items key st :
  key ∈ od_keys items →
  (∀ k st, k ≠ key → P st → P (configure_key (PyDict o items) k st).2) →
  (∀ st, P st → Q (configure_key (PyDict o items) key st).2) →
  (∀ k st, k ≠ key → Q st → Q (configure_key (PyDict o items) k st).2) →
  (∀ st, Q st → P st) →
  (∀ e st, P st → P (add_log e st)) →
  (∀ e st, Q st → Q (add_log e st)) →
  (∀ st, Q st → Q (add_signal sigConfigChanged st)) →
  P st → Q (configure (PyDict o items) st).2.
Proof.
  intros Hkey HP HPQ HQ HQP HPl HQl HQs HPst.
  assert (∀ k st, P st →
            P (try_except (configure_key (PyDict o items) k)
                 (λ _, printExc "Error in configuration:") st).2 ∧
            (k = key →
             Q (try_except (configure_key (PyDict o items) k)
                  (λ _, printExc "Error in configuration:") st).2)) as HstepP.
  { intros k st0 HP0. rewrite configure_round.
    destruct (decide (k = key)) as [->|Hk].
    - specialize (HPQ st0 HP0).
      destruct (configure_key (PyDict o items) key st0) as [[|] st1];
        cbn in *; split; auto.
    - specialize (HP k st0 Hk HP0).
      destruct (configure_key (PyDict o items) k st0) as [[|] st1];
        cbn in *; split; auto; done. }
  assert (∀ k st, Q st →
            Q (try_except (configure_key (PyDict o items) k)
                 (λ _, printExc "Error in configuration:") st).2) as HstepQ.
  { intros k st0 HQ0. destruct (decide (k = key)) as [->|Hk].
    - by apply (HstepP key st0 (HQP st0 HQ0)).
    - rewrite configure_round. specialize (HQ k st0 Hk HQ0).
      destruct (configure_key (PyDict o items) k st0) as [[|] st1];
        cbn in *; auto. }
  assert (∀ k st, ∃ st1,
            try_except (configure_key (PyDict o items) k)
              (λ _, printExc "Error in configuration:") st = (Ok tt, st1))
    as Hok.
  { intros k st0. apply try_except_total. intros e st2. by eexists. }
  assert (∀ l st,
    (Q st → Q (for_all l (λ key,
                 try_except (configure_key (PyDict o items) key)
                   (λ _, printExc "Error in configuration:")) st).2) ∧
    (P st → key ∈ l →
       Q (for_all l (λ key,
            try_except (configure_key (PyDict o items) key)
              (λ _, printExc "Error in configuration:")) st).2)) as Hloop.
  { induction l as [|k l IH]; intros st0.
    { split; [done|]. by intros _ ?%elem_of_nil. }
    rewrite for_all_cons_run.
    destruct (Hok k st0) as [st1 Hst1].
    pose proof (HstepP k st0) as HP1. pose proof (HstepQ k st0) as HQ1.
    rewrite Hst1 in *. cbn in HP1, HQ1. split.
    - intros HQ0. apply (proj1 (IH st1)). by apply HQ1.
    - intros HP0 [->|Hin]%elem_of_cons.
      + apply (proj1 (IH st1)). by apply HP1.
      + apply (proj2 (IH st1)); [|done]. by apply HP1. }
  unfold configure. cbn [py_iter lift]. unfold bind at 1. cbn.
  destruct (for_all_total (od_keys items) (λ key,
              try_except (configure_key (PyDict o items) key)
                (λ _, printExc "Error in configuration:")) Hok st)
    as [st1 Hst1].
  pose proof (proj2 (Hloop (od_keys items) st) HPst Hkey) as HQ1.
  unfold bind. rewrite Hst1 in *. cbn. by apply HQs.
Qed.

(** A property that every section keeps is kept by the whole call. *)
Lemma configure_invariant P o items st :
  (∀ k st, P st → P (configure_key (PyDict o items) k st).2) →
  (∀ e st, P st → P (add_log e st)) →
  (∀ st, P st → P (add_signal sigConfigChanged st)) →
  P st → P (configure (PyDict o items) st).2.
Proof.
  intros HP HPl HPs HPst.
  assert (∀ l st,
    P st → P (for_all l (λ key,
                try_except (configure_key (PyDict o items) key)
                  (λ _, printExc "Error in configuration:")) st).2) as Hloop.
  { induction l as [|k l IH]; intros st0 HP0; [done|].
    rewrite for_all_cons_run, configure_round.
    specialize (HP k st0 HP0).
    destruct (configure_key (PyDict o items) k st0) as [[|] st1];
      cbn in *; apply IH; auto. }
  unfold configure. cbn [py_iter lift]. unfold bind at 1. cbn.
  specialize (Hloop (od_keys items) st HPst).
  unfold bind.
  destruct (for_all (od_keys items) _ st) as [[|] st1]; cbn in *; auto.
Qed.

(** A section changes the tables of its own key only, and only the
    'global' section sets an option of the plotting library. *)
Lemma keeps_configure_key_at {T} (f : manager → T) cfg key :
  (∀ g st, f (set_start g st) = f st) →
  (key = "global" → ∀ k v st, f (set_pg_option k v st) = f st) →
  (∀ e st, f (add_log e st) = f st) →
  (∀ tb st, f (set_defined (λ t, <[key := tb]> t) st) = f st) →
  (∀ v st, f (set_config (λ t, <[key := v]> t) st) = f st) →
  keeps f (configure_key cfg key).
Proof.
  intros Hs Hp Hl Hd Hc.
  assert (∀ msg, keeps f (print_logMsg msg)) as Hprint.
  { intros msg st. apply Hl. }
  unfold configure_key. repeat case_decide; subst.
  all: unfold configure_hardware, configure_category, configure_startup,
         configure_global, configure_other, define_entry, tree_store,
         tree_get, table_get.
  all: repeat first [ apply Hprint | apply keeps_setBaseDir | keeps_step ].
  all: apply keeps_modify; intros ?;
         first [ apply Hd | apply Hs | apply Hc | by apply Hp ].
Qed.

(** *** Module sections *)

Lemma define_entry_spec base os sec ignored m e st tb :
  od_get m sec = Some e → is_dict_instance e = true →
  tree_defined st !! base = Some tb →
  ∃ st', define_entry tree_defined set_defined base (PyDict os sec) ignored m st
           = (Ok tt, st') ∧
    tree_defined st' !! base =
      Some (if bool_decide (is_Some (dict_lookup e "module"))
            then <[m := e]> tb else tb) ∧
    disableAllDevs st' = disableAllDevs st ∧
    disableDevs st' = disableDevs st.
Proof.
  intros Hm He Htb. destruct e as [| | | |oe ie]; try done.
  unfold define_entry, tree_store. run. cbn. rewrite Hm. cbn.
  unfold dict_lookup. cbn.
  case_bool_decide; cbn.
  - rewrite Htb. eexists. split_and!; [done| |done..].
    cbn. by rewrite lookup_insert_eq.
  - eexists. split_and!; done.
Qed.

(** The loop over a logic or gui section. *)
Lemma define_loop cfg base os sec ignored l :
  py_getitem cfg base = Ok (PyDict os sec) →
  (∀ k e, (k, e) ∈ sec → is_dict_instance e = true) →
  (∀ m, m ∈ l → m ∈ od_keys sec) →
  ∀ st tb, tree_defined st !! base = Some tb →
  ∃ st' tb',
    for_all l (λ m,
      let! section := lift (py_getitem cfg base) in
      define_entry tree_defined set_defined base section ignored m) st
      = (Ok tt, st') ∧
    tree_defined st' !! base = Some tb' ∧
    disableAllDevs st' = disableAllDevs st ∧
    disableDevs st' = disableDevs st ∧
    (∀ m, m ∉ l → tb' !! m = tb !! m) ∧
    (∀ m e, m ∈ l → od_get m sec = Some e →
            is_Some (dict_lookup e "module") → tb' !! m = Some e).
Proof.
  intros Hsec Hdicts. induction l as [|x l IH]; intros Hl st tb Htb.
  { exists st, tb. split_and!; try done. by intros m e ?%elem_of_nil. }
  rewrite for_all_cons_run. unfold bind at 1, lift at 1. rewrite Hsec.
  assert (x ∈ od_keys sec) as [e Hx]%od_get_is_Some
    by (apply Hl, elem_of_cons; by left).
  assert (is_dict_instance e = true) as He
    by (eapply Hdicts, od_get_Some_elem; done).
  destruct (define_entry_spec base os sec ignored x e st tb Hx He Htb)
    as (st1 & -> & Htb1 & Hall1 & Hdev1).
  destruct (IH (λ m Hm, Hl m (proj2 (elem_of_cons _ _ _) (or_intror Hm)))
              st1 _ Htb1)
    as (st' & tb' & Hrun & Htb' & Hall & Hdev & Hframe & Hset).
  rewrite Hsec in Hrun.
  exists st', tb'. split_and!; [done|done|congruence|congruence| |].
  - intros m [Hmx Hm]%not_elem_of_cons. rewrite (Hframe m Hm).
    case_bool_decide; [|done]. by rewrite lookup_insert_ne.
  - intros m e' Hin Hme' Hmod.
    destruct (decide (m ∈ l)) as [Hml|Hml]; [by eapply Hset|].
    apply elem_of_cons in Hin as [->|?]; [|done].
    rewrite (Hframe x Hml). simplify_eq.
    rewrite bool_decide_eq_true_2 by done. by rewrite lookup_insert_eq.
Qed.

(** The loop over the hardware section skips the disabled devices. *)
Lemma define_loop_hardware cfg os sec l :
  py_getitem cfg "hardware" = Ok (PyDict os sec) →
  (∀ k e, (k, e) ∈ sec → is_dict_instance e = true) →
  (∀ m, m ∈ l → m ∈ od_keys sec) →
  ∀ st tb, tree_defined st !! "hardware" = Some tb →
  ∃ st' tb',
    for_all l (λ m,
      let! all := gets disableAllDevs in
      let! devs := gets disableDevs in
      if all || bool_decide (m ∈ devs) then
        print_logMsg "Ignoring device -- disabled by request"
      else
        let! section := lift (py_getitem cfg "hardware") in
        define_entry tree_defined set_defined "hardware" section
          "Ignoring device -- no module specified" m) st
      = (Ok tt, st') ∧
    tree_defined st' !! "hardware" = Some tb' ∧
    disableAllDevs st' = disableAllDevs st ∧
    disableDevs st' = disableDevs st ∧
    (∀ m, m ∉ l → tb' !! m = tb !! m) ∧
    (∀ m, disableAllDevs st = true ∨ m ∈ disableDevs st →
          tb' !! m = tb !! m) ∧
    (∀ m e, m ∈ l → disableAllDevs st = false → m ∉ disableDevs st →
            od_get m sec = Some e →
            is_Some (dict_lookup e "module") → tb' !! m = Some e).
Proof.
  intros Hsec Hdicts. induction l as [|x l IH]; intros Hl st tb Htb.
  { exists st, tb. split_and!; try done. by intros m e ?%elem_of_nil. }
  rewrite for_all_cons_run. unfold bind at 1, gets at 1.
  unfold bind at 1, gets at 1.
  assert (x ∈ od_keys sec) as [e Hx]%od_get_is_Some
    by (apply Hl, elem_of_cons; by left).
  assert (is_dict_instance e = true) as He
    by (eapply Hdicts, od_get_Some_elem; done).
  pose proof (λ m Hm, Hl m (proj2 (elem_of_cons _ _ _) (or_intror Hm))) as Hl'.
  destruct (disableAllDevs st || bool_decide (x ∈ disableDevs st)) eqn:Hskip.
  - unfold print_logMsg, modify.
    destruct (IH Hl' (add_log (PrintLogMsg "Ignoring device -- disabled by request") st)
                tb Htb)
      as (st' & tb' & Hrun & Htb' & Hall & Hdev & Hframe & Hoff & Hset).
    exists st', tb'. split_and!; [done..| | |].
    + intros m [_ Hm]%not_elem_of_cons. by apply Hframe.
    + done.
    + intros m e' Hin Ha Hd Hme' Hmod.
      destruct (decide (m ∈ l)) as [Hml|Hml]; [by eapply Hset|].
      apply elem_of_cons in Hin as [->|?]; [|done].
      rewrite Ha in Hskip. cbn in Hskip.
      by apply bool_decide_eq_true_1 in Hskip.
  - apply orb_false_iff in Hskip as [Ha Hd%bool_decide_eq_false_1].
    unfold bind at 1, lift at 1. rewrite Hsec.
    destruct (define_entry_spec "hardware" os sec
                "Ignoring device -- no module specified" x e st tb Hx He Htb)
      as (st1 & -> & Htb1 & Hall1 & Hdev1).
    destruct (IH Hl' st1 _ Htb1)
      as (st' & tb' & Hrun & Htb' & Hall & Hdev & Hframe & Hoff & Hset).
    rewrite Hsec in Hrun.
    exists st', tb'. split_and!; [done|done|congruence|congruence| | |].
    + intros m [Hmx Hm]%not_elem_of_cons. rewrite (Hframe m Hm).
      case_bool_decide; [|done]. by rewrite lookup_insert_ne.
    + intros m Hm. rewrite Hoff by (by rewrite Hall1, Hdev1).
      case_bool_decide; [|done]. rewrite lookup_insert_ne; [done|].
      intros ->. destruct Hm; congruence.
    + intros m e' Hin Ha' Hd' Hme' Hmod.
      destruct (decide (m ∈ l)) as [Hml|Hml].
      { eapply Hset; [done|congruence|congruence|done..]. }
      apply elem_of_cons in Hin as [->|?]; [|done].
      rewrite (Hframe x Hml). simplify_eq.
      rewrite bool_decide_eq_true_2 by done. by rewrite lookup_insert_eq.
Qed.

End configure_sections.

Section configure_results.

Implicit Types (st : manager).

Local Ltac by_compute := refine (bool_decide_unpack _ _); vm_compute; exact I.

(** The section of a category, run on a manager that has a table for it. *)
Lemma configure_key_category o items base os sec st tb :
  base ∈ categories →
  od_get base items = Some (PyDict os sec) →
  (∀ k e, (k, e) ∈ sec → is_dict_instance e = true) →
  tree_defined st !! base = Some tb →
  ∃ st' tb',
    configure_key (PyDict o items) base st = (Ok tt, st') ∧
    tree_defined st' !! base = Some tb' ∧
    disableAllDevs st' = disableAllDevs st ∧
    disableDevs st' = disableDevs st ∧
    (∀ m e, (base = "hardware" →
               disableAllDevs st = false ∧ m ∉ disableDevs st) →
            od_get m sec = Some e →
            is_Some (dict_lookup e "module") → tb' !! m = Some e).
Proof.
  intros Hbase Hsec Hdicts Htb.
  assert (py_getitem (PyDict o items) base = Ok (PyDict os sec)) as Hget
    by (cbn; by rewrite Hsec).
  unfold categories in Hbase.
  repeat (apply elem_of_cons in Hbase as [->|Hbase]);
    [| | |by apply elem_of_nil in Hbase].
  - destruct (define_loop_hardware (PyDict o items) os sec (od_keys sec)
                Hget Hdicts (λ m H, H) st tb Htb)
      as (st' & tb' & Hrun & Htb' & Hall & Hdev & _ & _ & Hset).
    exists st', tb'. split_and!; [|done..|].
    + unfold configure_key. rewrite decide_True by done.
      unfold configure_hardware. unfold bind at 1, lift at 1.
      rewrite Hget. unfold bind at 1, lift at 1. cbn [py_iter]. rewrite Hget in Hrun. exact Hrun.
    + intros m e Hon Hm Hmod. destruct (Hon eq_refl) as [Ha Hd].
      eapply Hset; [|done..]. apply od_get_is_Some. by rewrite Hm.
  - destruct (define_loop (PyDict o items) "logic" os sec
                "Ignoring logic -- no module specified" (od_keys sec)
                Hget Hdicts (λ m H, H) st tb Htb)
      as (st' & tb' & Hrun & Htb' & Hall & Hdev & _ & Hset).
    exists st', tb'. split_and!; [|done..|].
    + unfold configure_key. rewrite decide_False by done.
      rewrite decide_True by done.
      unfold configure_category. unfold bind at 1, lift at 1.
      rewrite Hget. unfold bind at 1, lift at 1. cbn [py_iter]. rewrite Hget in Hrun. exact Hrun.
    + intros m e _ Hm Hmod.
      eapply Hset; [|done..]. apply od_get_is_Some. by rewrite Hm.
  - destruct (define_loop (PyDict o items) "gui" os sec
                "Ignoring GUI -- no module specified" (od_keys sec)
                Hget Hdicts (λ m H, H) st tb Htb)
      as (st' & tb' & Hrun & Htb' & Hall & Hdev & _ & Hset).
    exists st', tb'. split_and!; [|done..|].
    + unfold configure_key. rewrite !decide_False by done.
      rewrite decide_True by done.
      unfold configure_category. unfold bind at 1, lift at 1.
      rewrite Hget. unfold bind at 1, lift at 1. cbn [py_iter]. rewrite Hget in Hrun. exact Hrun.
    + intros m e _ Hm Hmod.
      eapply Hset; [|done..]. apply od_get_is_Some. by rewrite Hm.
Qed.

(** X9. A configuration document defines its modules: when the section of
    a category (hardware, logic or gui) maps names to mappings, every
    entry of it that has a 'module' key is stored, as it is, under its name
    in the 'defined' table of the category, whatever the other sections of
    the document hold. For hardware the device must not be disabled. *)
Theorem configure_defines o items base os sec m entry st :
  base ∈ categories →
  od_get base items = Some (PyDict os sec) →
  (∀ k e, (k, e) ∈ sec → is_dict_instance e = true) →
  od_get m sec = Some entry →
  is_Some (dict_lookup entry "module") →
  is_Some (tree_defined st !! base) →
  (base = "hardware" → disableAllDevs st = false ∧ m ∉ disableDevs st) →
  ∃ tb, tree_defined (configure (PyDict o items) st).2 !! base = Some tb ∧
        tb !! m = Some entry.
Proof.
  intros Hbase Hsec Hdicts Hm Hmod Htable Hon.
  pose (f := λ st0, (tree_defined st0 !! base, disableAllDevs st0,
                     disableDevs st0)).
  assert (∀ k, k ≠ base → keeps f (configure_key (PyDict o items) k)) as Hf.
  { intros k Hk. apply keeps_configure_key_at; try done.
    intros tb st0. unfold f. cbn. by rewrite lookup_insert_ne. }
  pose (P := λ st0, is_Some (tree_defined st0 !! base) ∧
                    disableAllDevs st0 = disableAllDevs st ∧
                    disableDevs st0 = disableDevs st).
  pose (Q := λ st0, P st0 ∧
                    ∃ tb, tree_defined st0 !! base = Some tb ∧
                          tb !! m = Some entry).
  assert (Q (configure (PyDict o items) st).2) as [_ HQ]; [|done].
  apply (configure_establishes P Q o items base).
  - apply od_get_is_Some. by rewrite Hsec.
  - intros k st0 Hk HP. specialize (Hf k Hk st0). unfold f in Hf.
    unfold P in *. simplify_eq. by rewrite H, H0, H1.
  - intros st0 ([tb Htb] & Ha & Hd).
    destruct (configure_key_category o items base os sec st0 tb)
      as (st' & tb' & -> & Htb' & Ha' & Hd' & Hset); [done..|].
    cbn. split.
    + split_and!; [by rewrite Htb'|congruence..].
    + exists tb'. split; [done|]. apply Hset; [|done..].
      intros Hb. rewrite Ha, Hd. by apply Hon.
  - intros k st0 Hk HQ0. specialize (Hf k Hk st0). unfold f in Hf.
    unfold Q, P in *. simplify_eq. by rewrite H, H0, H1.
  - by intros st0 [].
  - by intros e st0.
  - by intros e st0.
  - by intros st0.
  - done.
Qed.

Lemma configure_defines_witness :
  ∃ tb, tree_defined (configure ctl_cfg init_manager).2 !! "logic" = Some tb ∧
        tb !! "ctl" = Some (PyDict true [("module", PyStr "ctl_logic")]).
Proof.
  refine (configure_defines true
            [("logic", PyDict true
                [("ctl", PyDict true [("module", PyStr "ctl_logic")])])]
            "logic" true [("ctl", PyDict true [("module", PyStr "ctl_logic")])]
            "ctl" (PyDict true [("module", PyStr "ctl_logic")]) init_manager
            _ _ _ _ _ _ _).
  - by_compute.
  - reflexivity.
  - intros k e Hin. apply list_elem_of_singleton in Hin. by simplify_eq.
  - reflexivity.
  - eexists. reflexivity.
  - eexists. vm_compute. reflexivity.
  - intros [=].
Defined.

(** X10. A disabled device is never defined: for a device named in
    [disableDevs], or any device when [disableAllDevs] is set, [configure]
    leaves the entry of that name in the 'defined' table of hardware as it
    was, for every configuration document. *)
Theorem configure_skips_disabled o items m st :
  disableAllDevs st = true ∨ m ∈ disableDevs st →
  tree_defined (configure (PyDict o items) st).2 !! "hardware" ≫= (.!! m)
    = tree_defined st !! "hardware" ≫= (.!! m).
Proof.
  intros Hoff.
  pose (f := λ st0, (tree_defined st0 !! "hardware" ≫= (.!! m),
                     disableAllDevs st0, disableDevs st0)).
  assert (f (configure (PyDict o items) st).2 = f st) as Hf;
    [|unfold f in Hf; by simplify_eq].
  apply (configure_invariant (λ st0, f st0 = f st)); try done.
  intros k st0 Hst0. rewrite <- Hst0.
  destruct (decide (k = "hardware")) as [->|Hk].
  2: { apply keeps_configure_key_at; try done.
       intros tb st1. unfold f. cbn. by rewrite lookup_insert_ne. }
  assert (disableAllDevs st0 = true ∨ m ∈ disableDevs st0) as Hoff0.
  { unfold f in Hst0. simplify_eq. by rewrite H0, H1. }
  clear Hst0.
  unfold configure_key. rewrite decide_True by done.
  unfold configure_hardware.
  unfold bind at 1, lift at 1.
  destruct (py_getitem (PyDict o items) "hardware") as [section|]; [|done].
  unfold bind at 1, lift at 1.
  destruct (py_iter section) as [ms|]; [|done].
  revert st0 Hoff0. induction ms as [|x ms IH]; intros st0 Hoff0; [done|].
  rewrite for_all_cons_run. unfold bind at 1, gets at 1.
  unfold bind at 1, gets at 1.
  destruct (disableAllDevs st0 || bool_decide (x ∈ disableDevs st0)) eqn:Hskip.
  { unfold print_logMsg, modify. by rewrite IH. }
  apply orb_false_iff in Hskip as [Ha Hd%bool_decide_eq_false_1].
  assert (x ≠ m) as Hxm.
  { intros ->. destruct Hoff0; congruence. }
  unfold bind at 1, lift at 1.
  assert (∃ r st1,
    define_entry tree_defined set_defined "hardware" section
      "Ignoring device -- no module specified" x st0 = (r, st1) ∧
    f st1 = f st0) as (r & st1 & -> & Hst1).
  { unfold define_entry, tree_store. run.
    destruct (py_getitem section x) as [e|]; cbn; [|by eexists _, _].
    destruct (py_contains "module" e) as [[]|]; cbn; [|by eexists _, _..].
    destruct (tree_defined st0 !! "hardware") as [tb|] eqn:Htb; cbn;
      [|by eexists _, _].
    eexists _, _. split; [done|]. unfold f. cbn.
    rewrite lookup_insert_eq, Htb. cbn. by rewrite lookup_insert_ne. }
  destruct r as [[]|e]; [|done].
  rewrite IH; [done|]. unfold f in Hst1. simplify_eq. by rewrite H0, H1.
Qed.

Lemma configure_skips_disabled_witness :
  tree_defined
    (configure (PyDict true [("hardware",
                 PyDict true [("pump", PyDict true [("module", PyStr "p")])])])
       disabled_manager).2 !! "hardware" ≫= (.!! "pump")
  = None.
Proof.
  pose proof (λ H, configure_skips_disabled true
    [("hardware", PyDict true [("pump", PyDict true [("module", PyStr "p")])])]
    "pump" disabled_manager H) as H.
  etransitivity; [apply H; right; by_compute|]. vm_compute. reflexivity.
Defined.

(** The loop that extends a mapping of the 'config' table. *)
Lemma merge_loop cfg key ov sec l :
  py_getitem cfg key = Ok (PyDict ov sec) →
  (∀ k2, k2 ∈ l → k2 ∈ od_keys sec) →
  ∀ st oo old, tree_config st !! key = Some (PyDict oo old) →
  ∃ st',
    for_all l (λ key2,
      let! v := lift (py_getitem cfg key) in
      let! v2 := lift (py_getitem v key2) in
      let! config := gets tree_config in
      let! old := table_get config key in
      let! new := lift (py_setitem old key2 v2) in
      modify (set_config (λ t, <[key := new]> t))) st = (Ok tt, st') ∧
    tree_config st' !! key =
      Some (PyDict oo
              (foldl (λ acc k2, od_set k2 (default PyNone (od_get k2 sec)) acc)
                 old l)).
Proof.
  intros Hget. induction l as [|x l IH]; intros Hl st oo old Hold.
  { by exists st. }
  rewrite for_all_cons_run. unfold bind at 1, lift at 1. rewrite Hget.
  assert (x ∈ od_keys sec) as [e Hx]%od_get_is_Some
    by (apply Hl, elem_of_cons; by left).
  run. cbn. rewrite Hx. cbn. rewrite Hold. cbn.
  destruct (IH (λ m Hm, Hl m (proj2 (elem_of_cons _ _ _) (or_intror Hm)))
              (set_config (λ t, <[key := PyDict oo (od_set x e old)]> t) st)
              oo (od_set x e old))
    as (st' & Hrun & Hst').
  { cbn. by rewrite lookup_insert_eq. }
  rewrite Hget in Hrun. run. cbn in Hrun.
  exists st'. split; [exact Hrun|]. by rewrite Hst'.
Qed.

Lemma od_get_foldl_set (g : string → pyval) old l k :
  od_get k (foldl (λ acc k2, od_set k2 (g k2) acc) old l) =
    if decide (k ∈ l) then Some (g k) else od_get k old.
Proof.
  revert old. induction l as [|x l IH]; intros old; cbn [foldl].
  { by destruct (decide (k ∈ [])) as [?%elem_of_nil|]. }
  rewrite IH, od_get_set.
  destruct (decide (k ∈ l)) as [Hin|Hin].
  - rewrite decide_True by (apply elem_of_cons; by right). done.
  - destruct (decide (k = x)) as [->|Hkx].
    + rewrite decide_True by (apply elem_of_cons; by left). done.
    + rewrite decide_False by (rewrite not_elem_of_cons; done). done.
Qed.

(** The section of any other key, seen from the entry of the 'config'
    table under that key: what the section establishes holds at the end,
    when it depends on that entry only. *)
Lemma configure_at_key (Q : manager → Prop) o items key st :
  key ∉ ["hardware"; "logic"; "gui"; "startup"; "global"] →
  key ∈ od_keys items →
  (∀ st0, tree_config st0 !! key = tree_config st !! key ∨ Q st0 →
          Q (configure_other (PyDict o items) key st0).2) →
  (∀ st0 st1, tree_config st1 !! key = tree_config st0 !! key →
              Q st0 → Q st1) →
  Q (configure (PyDict o items) st).2.
Proof.
  intros Hkey Hin HQ Hsame.
  assert (key ≠ "hardware" ∧ key ≠ "logic" ∧ key ≠ "gui" ∧
          key ≠ "startup" ∧ key ≠ "global") as (H1 & H2 & H3 & H4 & H5).
  { rewrite !not_elem_of_cons in Hkey. naive_solver. }
  assert (∀ k, k ≠ key →
            keeps (λ st0, tree_config st0 !! key)
              (configure_key (PyDict o items) k)) as Hf.
  { intros k Hk. apply keeps_configure_key_at; try done.
    intros v' st0. cbn. by rewrite lookup_insert_ne. }
  apply (configure_establishes
           (λ st0, tree_config st0 !! key = tree_config st !! key ∨ Q st0)
           Q o items key).
  - done.
  - intros k st0 Hk [HP|HQ0].
    + left. by rewrite (Hf k Hk st0).
    + right. eapply Hsame; [|done]. apply (Hf k Hk st0).
  - intros st0 Hst0. unfold configure_key.
    rewrite !decide_False by done. by apply HQ.
  - intros k st0 Hk HQ0. eapply Hsame; [|done]. apply (Hf k Hk st0).
  - auto.
  - intros e st0 [HP|HQ0]; [by left|right]. by apply (Hsame st0).
  - intros e st0 HQ0. by apply (Hsame st0).
  - intros st0 HQ0. by apply (Hsame st0).
  - by left.
Qed.

(** A mapping under any other key extends the mapping of the table. *)
Lemma configure_extends o items key ov sec oo old st :
  key ∉ ["hardware"; "logic"; "gui"; "startup"; "global"] →
  od_get key items = Some (PyDict ov sec) →
  default (PyDict false []) (tree_config st !! key) = PyDict oo old →
  ∃ merged,
    tree_config (configure (PyDict o items) st).2 !! key
      = Some (PyDict oo merged) ∧
    ∀ k2, od_get k2 merged =
            match od_get k2 sec with
            | Some x => Some x
            | None => od_get k2 old
            end.
Proof.
  intros Hkey Hv Hold.
  assert (py_getitem (PyDict o items) key = Ok (PyDict ov sec)) as Hget
    by (cbn; by rewrite Hv).
  apply (configure_at_key (λ st0, ∃ merged,
           tree_config st0 !! key = Some (PyDict oo merged) ∧
           ∀ k2, od_get k2 merged =
                   match od_get k2 sec with
                   | Some x => Some x
                   | None => od_get k2 old
                   end) o items key); [done| | |].
  { apply od_get_is_Some. by rewrite Hv. }
  2: { intros st0 st1 Heq (merged & Hm & Hspec). exists merged.
       by rewrite Heq. }
  intros st0 Hst0.
  assert (∃ old0,
    default (PyDict false []) (tree_config st0 !! key) = PyDict oo old0 ∧
    ∀ k2, od_get k2 sec = None → od_get k2 old0 = od_get k2 old)
    as (old0 & Hold0 & Hrest).
  { destruct Hst0 as [->|(merged & -> & Hspec)].
    - by exists old.
    - exists merged. split; [done|]. intros k2 Hk2.
      by rewrite Hspec, Hk2. }
  unfold configure_other.
  unfold bind at 1, lift at 1. rewrite Hget. cbn [is_dict_instance].
  unfold bind at 1, gets at 1. unfold bind at 1.
  assert (∃ st1,
    (if table_mem key (tree_config st0) then ret tt
     else modify (set_config (λ t, <[key := PyDict false []]> t))) st0
      = (Ok tt, st1) ∧
    tree_config st1 !! key = Some (PyDict oo old0)) as (st1 & -> & Hst1).
  { unfold table_mem.
    destruct (tree_config st0 !! key) as [c|] eqn:Hc; cbn in Hold0.
    - rewrite bool_decide_eq_true_2 by eauto. exists st0. by subst.
    - rewrite bool_decide_eq_false_2 by (by intros [??]).
      eexists. split; [done|]. cbn. rewrite lookup_insert_eq. by simplify_eq. }
  unfold bind at 1, lift at 1.
  unfold bind at 1, lift at 1. cbn [py_iter].
  destruct (merge_loop (PyDict o items) key ov sec (od_keys sec) Hget
              (λ k2 H, H) st1 oo old0 Hst1) as (st' & Hrun & Hst').
  rewrite Hget in Hrun. rewrite Hrun.
  cbn. eexists. split; [exact Hst'|].
  intros k2. rewrite od_get_foldl_set.
  destruct (od_get k2 sec) as [x|] eqn:Hx.
  - rewrite decide_True by (apply od_get_is_Some; by rewrite Hx). done.
  - rewrite decide_False by (by apply od_get_None). by apply Hrest.
Qed.

(** X11. Any other key of a configuration document goes to the 'config'
    table: a value that is no mapping replaces what the table held under
    the key; a mapping extends the mapping the table holds (an empty dict
    when the key is new): its keys are set to the new values, every other
    key of the old mapping stays. *)
Theorem configure_merges o items key v st :
  key ∉ ["hardware"; "logic"; "gui"; "startup"; "global"] →
  od_get key items = Some v →
  match v with
  | PyDict _ sec =>
      ∀ oo old,
        default (PyDict false []) (tree_config st !! key) = PyDict oo old →
        ∃ merged,
          tree_config (configure (PyDict o items) st).2 !! key
            = Some (PyDict oo merged) ∧
          ∀ k2, od_get k2 merged =
                  match od_get k2 sec with
                  | Some x => Some x
                  | None => od_get k2 old
                  end
  | _ => tree_config (configure (PyDict o items) st).2 !! key = Some v
  end.
Proof.
  intros Hkey Hv.
  assert (key ∈ od_keys items) as Hin
    by (apply od_get_is_Some; by rewrite Hv).
  assert (is_dict_instance v = false →
          tree_config (configure (PyDict o items) st).2 !! key = Some v)
    as Hplain.
  { intros Hno.
    apply (configure_at_key (λ st0, tree_config st0 !! key = Some v)
             o items key); [done..| |by intros st0 st1 ->].
    intros st0 _. unfold configure_other. run. cbn. rewrite Hv. cbn.
    rewrite Hno. cbn. by rewrite lookup_insert_eq. }
  destruct v as [| | | |ov sec]; try by apply Hplain.
  intros oo old Hold. by eapply configure_extends.
Qed.

Lemma configure_merges_witness :
  ∃ merged,
    tree_config (configure second_cfg configured_manager).2 !! "configurations"
      = Some (PyDict false merged) ∧
    ∀ k2, od_get k2 merged =
            match od_get k2 [("second", ctl_cfg)] with
            | Some x => Some x
            | None =>
                od_get k2 [("first", PyDict true [("global", PyDict true [])])]
            end.
Proof.
  refine (configure_merges true
            [("configurations", PyDict true [("second", ctl_cfg)])]
            "configurations" (PyDict true [("second", ctl_cfg)])
            configured_manager _ _ false
            [("first", PyDict true [("global", PyDict true [])])] _).
  - by_compute.
  - reflexivity.
  - vm_compute. reflexivity.
Defined.

(** X12. The 'global' section reads the option 'useOpenGL' from the key
    'useOpenGl': as long as the section has no key of that spelling,
    [configure] sets no option of the plotting library. *)
Theorem configure_useOpenGL o items st :
  (∀ og glob, od_get "global" items = Some (PyDict og glob) →
              od_get "useOpenGl" glob = None) →
  pg_options (configure (PyDict o items) st).2 = pg_options st.
Proof.
  intros Hno.
  apply (configure_invariant (λ st0, pg_options st0 = pg_options st));
    try done.
  intros k st0 <-.
  destruct (decide (k = "global")) as [->|Hk].
  2: { by apply keeps_configure_key_at. }
  unfold configure_key. rewrite !decide_False by done.
  rewrite decide_True by done.
  unfold configure_global. revert st0.
  change (keeps pg_options
    (let! section := lift (py_getitem (PyDict o items) "global") in
     let! ms := lift (py_iter section) in
     for_all ms (λ m,
       if decide (m = "storageDir") then
         let! section := lift (py_getitem (PyDict o items) "global") in
         let! dir := lift (py_getitem section "storageDir") in
         (if is_str dir then print_logMsg "=== Setting base directory ==="
          else raise TypeError) ;;;
         let! section := lift (py_getitem (PyDict o items) "global") in
         let! dir := lift (py_getitem section "storageDir") in
         setBaseDir dir
       else if decide (m = "useOpenGL") then
         let! section := lift (py_getitem (PyDict o items) "global") in
         let! v := lift (py_getitem section "useOpenGl") in
         modify (set_pg_option "useOpenGL" v)
       else ret tt))).
  apply keeps_bind; [apply keeps_lift|]. intros section.
  apply keeps_bind; [apply keeps_lift|]. intros ms.
  apply keeps_for_all. intros m.
  destruct (decide (m = "storageDir")).
  { unfold print_logMsg.
    repeat first [ apply keeps_setBaseDir | keeps_step ]. }
  destruct (decide (m = "useOpenGL")); [|apply keeps_ret].
  intros st0. unfold bind, lift. cbn.
  destruct (od_get "global" items) as [[| | | |og glob]|] eqn:Hg; cbn; try done.
  by rewrite (Hno og glob eq_refl).
Qed.

Lemma configure_useOpenGL_witness :
  pg_options
    (configure
       (PyDict true [("global", PyDict true [("useOpenGL", PyInt 1)])])
       init_manager).2
  = pg_options init_manager.
Proof.
  apply configure_useOpenGL. intros og glob [= <- <-]. reflexivity.
Defined.

End configure_results.

(** ** More about registration and wiring *)

Section registration_properties.

Implicit Types (st : manager) (m : module_inst).

Local Ltac by_compute := refine (bool_decide_unpack _ _); vm_compute; exact I.

(** X13. Registration succeeds when the category is one of the three, the
    name is not loaded yet, the Python module has a class of the given
    name that derives from [Base], and its constructor returns: the new
    instance is returned and stored under its name, every other entry of
    the loaded tables stays, and sigModulesChanged is sent once. *)
Theorem configureModule_registers (moduleObject : string → option pyattr)
    baseName className instanceName configuration cls made st tb :
  baseName ∈ categories →
  tree_loaded st !! baseName = Some tb → tb !! instanceName = None →
  moduleObject className = Some (AClass cls) → inherits_Base cls = true →
  construct cls instanceName
    (if is_None configuration then PyDict false [] else configuration)
    = Ok made →
  ∃ st',
    configureModule moduleObject baseName className instanceName
      configuration st = (Ok (with_id made (next_id st)), st') ∧
    loaded_at st' baseName instanceName = Some (with_id made (next_id st)) ∧
    (∀ b k, (b, k) ≠ (baseName, instanceName) →
            loaded_at st' b k = loaded_at st b k) ∧
    emitted st' = emitted st ++ [sigModulesChanged].
Proof.
  intros Hcat Htb Hname Hcls Hbase Hmade.
  unfold configureModule, table_mem. run.
  rewrite !bool_decide_eq_true_2 by done. cbn. rewrite Htb, Hname.
  rewrite bool_decide_eq_false_2 by (by intros [??]).
  rewrite Hcls, Hbase, Hmade. cbn. rewrite Htb.
  eexists. split_and!; [done| |  |done].
  - cbn. by rewrite !lookup_insert_eq.
  - intros b k Hne. cbn. rewrite lookup_insert.
    destruct (decide (baseName = b)) as [<-|Hb]; [|done].
    rewrite Htb, lookup_insert.
    destruct (decide (instanceName = k)) as [<-|Hk]; done.
Qed.

Lemma configureModule_registers_witness :
  ∃ st',
    configureModule plain_module "logic" "Plain" "ctl" PyNone init_manager
      = (Ok (MkModule 0 "deactivated" (PyDict true []) (Ok "idle")), st') ∧
    loaded_at st' "logic" "ctl"
      = Some (MkModule 0 "deactivated" (PyDict true []) (Ok "idle")) ∧
    (∀ b k, (b, k) ≠ ("logic", "ctl") →
            loaded_at st' b k = loaded_at init_manager b k) ∧
    emitted st' = [sigModulesChanged].
Proof.
  refine (configureModule_registers plain_module "logic" "Plain" "ctl" PyNone
            plain_class (MkModule 0 "deactivated" (PyDict true []) (Ok "idle"))
            init_manager ∅ _ _ _ _ _ _).
  - by_compute.
  - vm_compute. reflexivity.
  - reflexivity.
  - reflexivity.
  - reflexivity.
  - reflexivity.
Defined.

(** X14. A registration that raises registers nothing: whatever the reason
    (the name is taken, the category is unknown, the Python module has no
    such class, the class does not derive from [Base], or the constructor
    raises), the loaded tables are as before, no signal is sent and no
    instance identity is used up. *)
Theorem configureModule_atomic (moduleObject : string → option pyattr)
    baseName className instanceName configuration e st st' :
  configureModule moduleObject baseName className instanceName configuration st
    = (Raise e, st') →
  tree_loaded st' = tree_loaded st ∧ emitted st' = emitted st ∧
  next_id st' = next_id st ∧ hook_calls st' = hook_calls st.
Proof.
  unfold configureModule, table_mem. run. intros H.
  exec H; by simplify_eq.
Qed.

Lemma configureModule_atomic_witness :
  tree_loaded (add_log (PrintLogMsg "Configuring") init_manager)
    = tree_loaded init_manager ∧
  emitted (add_log (PrintLogMsg "Configuring") init_manager)
    = emitted init_manager ∧
  next_id (add_log (PrintLogMsg "Configuring") init_manager)
    = next_id init_manager ∧
  hook_calls (add_log (PrintLogMsg "Configuring") init_manager)
    = hook_calls init_manager.
Proof.
  refine (configureModule_atomic empty_module "hardware" "EdwardsPump" "pump"
            PyNone (AttributeError "EdwardsPump") init_manager _ _).
  vm_compute. reflexivity.
Defined.

End registration_properties.

Section wiring_properties.

Implicit Types (st : manager) (m : module_inst).

Local Ltac by_compute := refine (bool_decide_unpack _ _); vm_compute; exact I.

Lemma log_bind_state st base mkey c oid :
  is_Some (loaded_at st base mkey) →
  log (bind_state st base mkey c oid)
    = log st ++ [LogMsg "status" "Connecting"].
Proof.
  intros [this (tb & Htb & Hthis)%loaded_at_Some].
  unfold bind_state. by rewrite Htb, Hthis.
Qed.

Lemma resolve_target_loaded st base mkey connections c oid :
  resolve_target st base mkey connections c = Some oid →
  is_Some (loaded_at st base mkey).
Proof.
  unfold resolve_target, in_connector.
  destruct (loaded_at st base mkey); [eauto|done].
Qed.

Lemma log_bind_all st base mkey connections cs :
  NoDup cs →
  (∀ c, c ∈ cs → is_Some (resolve_target st base mkey connections c)) →
  log (bind_all st base mkey connections cs)
    = log st ++ replicate (length cs) (LogMsg "status" "Connecting").
Proof.
  revert st. induction cs as [|c cs IH]; intros st Hnd Hall; cbn.
  { by rewrite app_nil_r. }
  apply NoDup_cons in Hnd as [Hc Hnd].
  destruct (Hall c) as [oid Hoid]; [apply elem_of_cons; by left|].
  rewrite Hoid, IH; [|done|].
  - rewrite log_bind_state by (by eapply resolve_target_loaded).
    by rewrite <- app_assoc.
  - intros c' Hc'. rewrite resolve_target_bind_state_ne by (intros ->; done).
    apply Hall, elem_of_cons. by right.
Qed.

(** X15. When every connect entry of a module passes the checks of the
    loop, [connectModule] returns normally with every one of its 'in'
    connectors bound to the instance its entry names; it logs one status
    line per entry and no error. *)
Theorem connectModule_binds_all st base mkey dtb o items mname conns this ins :
  tree_defined st !! base = Some dtb → dtb !! mkey = Some (PyDict o items) →
  od_get "module" items = Some mname →
  od_get "connect" items = Some (PyDict true conns) →
  loaded_at st base mkey = Some this →
  dict_lookup (mod_connector this) "in" = Some ins →
  NoDup (od_keys conns) →
  (∀ c, c ∈ od_keys conns →
        is_Some (resolve_target st base mkey (PyDict true conns) c)) →
  ∃ st', connectModule base mkey st = (Ok tt, st') ∧
    (∀ c, c ∈ od_keys conns → ∃ oid,
       resolve_target st base mkey (PyDict true conns) c = Some oid ∧
       bound_object st' base mkey c = Some (PyObj oid)) ∧
    log st' = log st ++
      replicate (length conns) (LogMsg "status" "Connecting").
Proof.
  intros Hdtb Hdef Hmod Hconn Hthis Hins Hnd Hall.
  destruct (bind_all_spec base mkey (PyDict o items) (PyDict true conns)
              (od_keys conns) st Hnd Hall) as (Hrun & _ & _ & Hbound).
  exists (bind_all st base mkey (PyDict true conns) (od_keys conns)).
  split_and!.
  - rewrite (connectModule_loop st base mkey dtb o items mname conns this ins)
      by done.
    specialize (Hrun []). rewrite app_nil_r in Hrun. by rewrite Hrun.
  - done.
  - rewrite log_bind_all by done. unfold od_keys. by rewrite length_fmap.
Qed.

Lemma connectModule_binds_all_witness :
  ∃ st', connectModule "logic" "ctl" (wiring_manager pump_entry PyNone)
           = (Ok tt, st') ∧
    (∀ c, c ∈ ["pump"] → ∃ oid,
       resolve_target (wiring_manager pump_entry PyNone) "logic" "ctl"
         (PyDict true pump_entry) c = Some oid ∧
       bound_object st' "logic" "ctl" c = Some (PyObj oid)) ∧
    log st' = [LogMsg "status" "Connecting"].
Proof.
  refine (connectModule_binds_all (wiring_manager pump_entry PyNone)
            "logic" "ctl"
            {[ "ctl" := PyDict true [("module", PyStr "ctl_logic");
                                     ("connect", PyDict true pump_entry)] ]}
            true [("module", PyStr "ctl_logic");
                  ("connect", PyDict true pump_entry)]
            (PyStr "ctl_logic") pump_entry (controller PyNone)
            (PyDict true
               [("aux", PyDict true [("class", PyStr "Aux"); ("object", PyNone)]);
                ("pump", PyDict true [("class", PyStr "Pump"); ("object", PyNone)])])
            _ _ _ _ _ _ _ _);
    try (vm_compute; reflexivity).
  - by_compute.
  - intros c Hc. apply list_elem_of_singleton in Hc as ->.
    eexists. vm_compute. reflexivity.
Defined.

(** The loop body on an entry whose value is no string. *)
Lemma connectEntry_not_string base mkey thismodule connections c st cin v :
  in_connector st base mkey c = Some cin → unbound_declaration cin = true →
  dict_lookup connections c = Some v → is_str v = false →
  is_Some (dict_lookup thismodule "module") →
  connectEntry base mkey thismodule connections c st
    = (Raise (KeyError "3 "), st).
Proof.
  unfold in_connector, in_decl, dict_lookup, dict_items, loaded_at,
    unbound_declaration, ordered_items.
  destruct (tree_loaded st !! base) as [tb|] eqn:Htb; [|done].
  destruct (tb !! mkey) as [this|] eqn:Hthis; [|done].
  destruct (mod_connector this) as [| | | |o1 items] eqn:Hconn; try done.
  destruct (od_get "in" items) as [[| | | |o2 ins]|] eqn:Hin; try done.
  intros Hc Hun Hv Hstr [mname Hmod].
  destruct cin as [| | | |[] cin]; try done.
  destruct (od_get "class" cin) as [[| |cls| |]|] eqn:Hcls; try done.
  destruct (od_get "object" cin) as [[| | | |]|] eqn:Hobj; try done.
  destruct connections as [| | | |oc conns]; try done.
  destruct thismodule as [| | | |ot titems]; try done.
  unfold connectEntry. run.
  unfold py_getitem, py_contains, is_OrderedDict, is_str, is_None.
  rewrite Htb, Hthis, Hconn, Hin. cbn. rewrite Hc. cbn.
  rewrite Hcls, Hobj. cbn. rewrite Hv. cbn.
  destruct v; try done; by rewrite Hmod.
Qed.

(** X16. A connect entry whose value is not a string makes [connectModule]
    raise [KeyError]: the format string of the error message names the
    field '3 ', so the message is never logged. The entries before it are
    bound, the failing entry and those after it are not looked at. *)
Theorem connectModule_value_not_string st base mkey dtb o items mname conns
    this ins done c rest cin v :
  tree_defined st !! base = Some dtb → dtb !! mkey = Some (PyDict o items) →
  od_get "module" items = Some mname →
  od_get "connect" items = Some (PyDict true conns) →
  loaded_at st base mkey = Some this →
  dict_lookup (mod_connector this) "in" = Some ins →
  od_keys conns = done ++ c :: rest → NoDup (od_keys conns) →
  (∀ d, d ∈ done →
        is_Some (resolve_target st base mkey (PyDict true conns) d)) →
  in_connector st base mkey c = Some cin → unbound_declaration cin = true →
  od_get c conns = Some v → is_str v = false →
  connectModule base mkey st
    = (Raise (KeyError "3 "),
       bind_all st base mkey (PyDict true conns) done).
Proof.
  intros Hdtb Hdef Hmod Hconn Hthis Hins Hkeys Hnd Hdone Hcin Hun Hv Hstr.
  rewrite Hkeys in Hnd. apply NoDup_app in Hnd as (Hnd1 & Hnd2 & Hnd3).
  assert (c ∉ done) as Hc.
  { intros Hc. apply (Hnd2 _ Hc), elem_of_cons. by left. }
  destruct (bind_all_spec base mkey (PyDict o items) (PyDict true conns)
              done st Hnd1 Hdone) as (Hrun & _ & Hframe & _).
  rewrite (connectModule_loop st base mkey dtb o items mname conns this ins)
    by done.
  rewrite Hkeys, Hrun, for_each_cons.
  rewrite (connectEntry_not_string _ _ _ _ _ _ cin v); try done.
  rewrite Hframe by auto. done.
Qed.

Lemma connectModule_value_not_string_witness :
  connectModule "logic" "ctl" (wiring_manager number_entry PyNone)
    = (Raise (KeyError "3 "), wiring_manager number_entry PyNone).
Proof.
  refine (connectModule_value_not_string (wiring_manager number_entry PyNone)
            "logic" "ctl"
            {[ "ctl" := PyDict true [("module", PyStr "ctl_logic");
                                     ("connect", PyDict true number_entry)] ]}
            true [("module", PyStr "ctl_logic");
                  ("connect", PyDict true number_entry)]
            (PyStr "ctl_logic") number_entry (controller PyNone)
            (PyDict true
               [("aux", PyDict true [("class", PyStr "Aux"); ("object", PyNone)]);
                ("pump", PyDict true [("class", PyStr "Pump"); ("object", PyNone)])])
            [] "pump" []
            (PyDict true [("class", PyStr "Pump"); ("object", PyNone)])
            (PyInt 3) _ _ _ _ _ _ _ _ _ _ _ _ _);
    try (vm_compute; reflexivity).
  - by_compute.
  - intros d Hd. by apply elem_of_nil in Hd.
Defined.

Lemma same_but_inputs_refl m : same_but_inputs m m.
Proof. by repeat split. Qed.

Lemma only_wired_refl base mkey st : only_wired base mkey st st.
Proof.
  repeat split; try done. intros b k.
  destruct (loaded_at st b k); [|done]. split; [apply same_but_inputs_refl|done].
Qed.

Lemma only_wired_trans base mkey st1 st2 st3 :
  only_wired base mkey st1 st2 → only_wired base mkey st2 st3 →
  only_wired base mkey st1 st3.
Proof.
  intros (H1 & H2 & H3 & H4 & H5 & H6 & H7 & H8)
         (G1 & G2 & G3 & G4 & G5 & G6 & G7 & G8).
  repeat split; try congruence. intros b k.
  specialize (H8 b k). specialize (G8 b k).
  destruct (loaded_at st1 b k) as [m1|], (loaded_at st2 b k) as [m2|],
    (loaded_at st3 b k) as [m3|]; try done.
  destruct H8 as [(A1 & A2 & A3 & A4) A5], G8 as [(B1 & B2 & B3 & B4) B5].
  split.
  - repeat split; try congruence. intros j Hj. by rewrite B4, A4.
  - intros Hne. by rewrite B5, A5.
Qed.

Lemma only_wired_same_loaded base mkey st st' :
  tree_config st' = tree_config st → tree_start st' = tree_start st →
  tree_defined st' = tree_defined st → baseDir st' = baseDir st →
  emitted st' = emitted st → hook_calls st' = hook_calls st →
  next_id st' = next_id st → tree_loaded st' = tree_loaded st →
  only_wired base mkey st st'.
Proof.
  intros H1 H2 H3 H4 H5 H6 H7 H8. repeat split; try done. intros b k.
  unfold loaded_at. rewrite H8.
  destruct (tree_loaded st !! b) as [tb|]; [|done].
  destruct (tb !! k); [|done]. split; [apply same_but_inputs_refl|done].
Qed.

Lemma only_wired_rejected base mkey st r st' :
  rejected st r st' → only_wired base mkey st st'.
Proof. intros []; by apply only_wired_same_loaded. Qed.

Lemma only_wired_bind_state base mkey st c oid :
  only_wired base mkey st (bind_state st base mkey c oid).
Proof.
  assert (∀ (T : Type) (f : manager → T),
    (∀ g st0, f (set_loaded g st0) = f st0) →
    (∀ e st0, f (add_log e st0) = f st0) →
    f (bind_state st base mkey c oid) = f st) as Hf.
  { intros T f Hl He. unfold bind_state.
    destruct (tree_loaded st !! base) as [tb|]; [|done].
    destruct (tb !! mkey); [|done]. by rewrite Hl, He. }
  repeat split; try (by apply (Hf _ _)).
  intros b k. rewrite loaded_at_bind_state.
  destruct (loaded_at st b k) as [m|]; case_decide as Hbk; cbn; try done.
  split.
  - repeat split. intros j Hj. by apply dict_lookup_set_object.
  - intros Hne. destruct Hbk as [-> ->]. done.
Qed.

Lemma connect_loop_only_wired base mkey thismodule connections cs st r st' :
  for_each cs (connectEntry base mkey thismodule connections) st = (r, st') →
  only_wired base mkey st st'.
Proof.
  revert st. induction cs as [|c cs IH]; intros st Hrun.
  { cbn in Hrun. unfold ret in Hrun. simplify_eq. apply only_wired_refl. }
  destruct (resolve_target st base mkey connections c) as [oid|] eqn:Hres.
  - rewrite (connect_resolved _ _ _ _ _ _ _ _ Hres) in Hrun.
    eapply only_wired_trans; [|by apply IH].
    apply only_wired_bind_state.
  - destruct (connect_rejected base mkey thismodule connections st c cs Hres)
      as (r0 & st0 & Hrun0 & Hrej).
    rewrite Hrun in Hrun0. simplify_eq.
    by eapply only_wired_rejected.
Qed.

Lemma connectModule_wired base mkey st r st' :
  connectModule base mkey st = (r, st') → only_wired base mkey st st'.
Proof.
  unfold connectModule, table_mem. run.
  unfold py_getitem, py_contains, py_iter, is_OrderedDict.
  intros H.
  exec H; try (simplify_eq; by apply only_wired_same_loaded).
  all: simplify_eq; by eapply connect_loop_only_wired.
Qed.

(** X17. Whatever happens in a call of [connectModule], it changes nothing
    but the log and the 'in' connectors of the module it is called for:
    the configuration, startup and definition tables, the signals sent and
    the hooks run are as before; every other loaded module is the same;
    the module itself keeps its identity, its state and every part of its
    connector table other than 'in'; no module is added or removed. *)
Theorem connectModule_only_wires base mkey st :
  only_wired base mkey st (connectModule base mkey st).2.
Proof.
  destruct (connectModule base mkey st) as [r st'] eqn:H. cbn.
  by eapply connectModule_wired.
Qed.

End wiring_properties.

(** ** Named configurations *)

Section named_configurations.

Implicit Types (st : manager).

Local Ltac by_compute := refine (bool_decide_unpack _ _); vm_compute; exact I.

Lemma configurations_key :
  "configurations" ∉ ["hardware"; "logic"; "gui"; "startup"; "global"].
Proof. by_compute. Qed.

(** X18. The names [listConfigurations] returns after a document with a
    'configurations' mapping has been configured are the names of the
    mapping together with the names the table held before. *)
Theorem configure_lists_configurations o items os sec oo old st :
  od_get "configurations" items = Some (PyDict os sec) →
  default (PyDict false []) (tree_config st !! "configurations")
    = PyDict oo old →
  ∃ names,
    listConfigurations (configure (PyDict o items) st).2
      = (Ok names, (configure (PyDict o items) st).2) ∧
    ∀ n, n ∈ names ↔ n ∈ od_keys sec ∨ n ∈ od_keys old.
Proof.
  intros Hsec Hold.
  destruct (configure_extends o items "configurations" os sec oo old st
              configurations_key Hsec Hold) as (merged & Hm & Hspec).
  exists (od_keys merged). split.
  - remember (configure (PyDict o items) st).2 as st1 eqn:Hst1. clear Hst1.
    unfold listConfigurations, table_mem. run. rewrite Hm.
    rewrite bool_decide_eq_true_2 by eauto. cbn. by rewrite Hm.
  - intros n. rewrite <- !od_get_is_Some, Hspec.
    destruct (od_get n sec); [|naive_solver].
    split; [left|]; eauto.
Qed.

Lemma configure_lists_configurations_witness :
  ∃ names,
    listConfigurations (configure second_cfg configured_manager).2
      = (Ok names, (configure second_cfg configured_manager).2) ∧
    ∀ n, n ∈ names ↔ n ∈ ["second"] ∨ n ∈ ["first"].
Proof.
  refine (configure_lists_configurations true
            [("configurations", PyDict true [("second", ctl_cfg)])]
            true [("second", ctl_cfg)] false
            [("first", PyDict true [("global", PyDict true [])])]
            configured_manager _ _).
  - reflexivity.
  - vm_compute. reflexivity.
Defined.

(** X19. A named configuration that [configure] has stored can be loaded
    by its name: [loadDefinedConfig] then is [configure] on the stored
    document, the new one when the name was stored before. A name that
    neither the document nor the table has raises the exception of line
    359 and leaves the manager as it is. *)
Theorem loadDefinedConfig_configures o items os sec oo old name st :
  od_get "configurations" items = Some (PyDict os sec) →
  default (PyDict false []) (tree_config st !! "configurations")
    = PyDict oo old →
  loadDefinedConfig name (configure (PyDict o items) st).2 =
    match od_get name sec, od_get name old with
    | Some doc, _ | None, Some doc =>
        configure doc (configure (PyDict o items) st).2
    | None, None =>
        (Raise (Exception "Could not find configuration named"),
         (configure (PyDict o items) st).2)
    end.
Proof.
  intros Hsec Hold.
  destruct (configure_extends o items "configurations" os sec oo old st
              configurations_key Hsec Hold) as (merged & Hm & Hspec).
  specialize (Hspec name).
  remember (configure (PyDict o items) st).2 as st1 eqn:Hst1. clear Hst1.
  unfold loadDefinedConfig. run. rewrite Hm. cbn -[configure].
  destruct (od_get name sec) as [doc|].
  - rewrite Hspec. rewrite bool_decide_eq_true_2 by eauto.
    cbn -[configure]. rewrite Hm. cbn -[configure]. by rewrite Hspec.
  - rewrite Hspec. destruct (od_get name old) as [doc|] eqn:Hdoc.
    + rewrite bool_decide_eq_true_2 by eauto. cbn -[configure].
      rewrite Hm. cbn -[configure]. by rewrite Hspec.
    + by rewrite bool_decide_eq_false_2 by (by intros [??]).
Qed.

Lemma loadDefinedConfig_configures_witness :
  loadDefinedConfig "second" (configure second_cfg configured_manager).2 =
    configure ctl_cfg (configure second_cfg configured_manager).2.
Proof.
  refine (loadDefinedConfig_configures true
            [("configurations", PyDict true [("second", ctl_cfg)])]
            true [("second", ctl_cfg)] false
            [("first", PyDict true [("global", PyDict true [])])]
            "second" configured_manager _ _).
  - reflexivity.
  - vm_compute. reflexivity.
Defined.

End named_configurations.

(** ** Loading modules *)

Section preserves_facts.

Context (R : manager → manager → Prop).
Hypothesis R_refl : ∀ st, R st st.
Hypothesis R_trans : ∀ st1 st2 st3, R st1 st2 → R st2 st3 → R st1 st3.

Lemma preserves_ret {A} (a : A) : preserves R (ret a).
Proof. intros st. apply R_refl. Qed.

Lemma preserves_raise {A} e : preserves R (raise (A := A) e).
Proof. intros st. apply R_refl. Qed.

Lemma preserves_lift {A} (r : result A) : preserves R (lift r).
Proof. intros st. apply R_refl. Qed.

Lemma preserves_gets {A} (g : manager → A) : preserves R (gets g).
Proof. intros st. apply R_refl. Qed.

Lemma preserves_bind {A B} (m : M A) (k : A → M B) :
  preserves R m → (∀ a, preserves R (k a)) → preserves R (bind m k).
Proof.
  intros Hm Hk st. unfold bind. specialize (Hm st).
  destruct (m st) as [[a|e] st1]; cbn in *; [|done].
  eapply R_trans; [done|]. apply Hk.
Qed.

Lemma preserves_try_except {A} (body : M A) (handler : exn → M A) :
  preserves R body → (∀ e, preserves R (handler e)) →
  preserves R (try_except body handler).
Proof.
  intros Hm Hk st. unfold try_except. specialize (Hm st).
  destruct (body st) as [[a|e] st1]; cbn in *; [done|].
  eapply R_trans; [done|]. apply Hk.
Qed.

Lemma preserves_for_all {A} (l : list A) (body : A → M unit) :
  (∀ x, preserves R (body x)) → preserves R (for_all l body).
Proof.
  intros Hb. induction l as [|x l IH]; cbn; [apply preserves_ret|].
  apply preserves_bind; [apply Hb | intros _; apply IH].
Qed.

End preserves_facts.

Section loading_facts.

Implicit Types (st : manager) (m : module_inst) (env : environment).

Lemma instances_kept_refl st : instances_kept st st.
Proof.
  split; [apply keeps_bindings_refl|]. intros b k m Hm. by exists m.
Qed.

Lemma instances_kept_trans st1 st2 st3 :
  instances_kept st1 st2 → instances_kept st2 st3 → instances_kept st1 st3.
Proof.
  intros [H1 H2] [G1 G2]. split; [by eapply keeps_bindings_trans|].
  intros b k m Hm. destruct (H2 b k m Hm) as (m2 & Hm2 & Hid & Hc).
  destruct (G2 b k m2 Hm2) as (m3 & Hm3 & Hid3 & Hc3).
  exists m3. split_and!; [done|congruence|].
  intros Hb. by rewrite Hc3, Hc.
Qed.

Lemma instances_kept_same_loaded st st' :
  tree_loaded st' = tree_loaded st → instances_kept st st'.
Proof.
  intros Heq. split; [by apply keeps_bindings_same_loaded|].
  intros b k m Hm. exists m. unfold loaded_at in *. by rewrite Heq.
Qed.

(** Adding an instance under a new name, or replacing one by an instance
    with the same identity and connector table. *)
Lemma instances_kept_insert st st' base key tb m' :
  tree_loaded st !! base = Some tb →
  (∀ m, tb !! key = Some m →
        mod_id m' = mod_id m ∧ mod_connector m' = mod_connector m) →
  tree_loaded st' = <[base := <[key := m']> tb]> (tree_loaded st) →
  instances_kept st st'.
Proof.
  intros Htb Hsame Hst'. split.
  { eapply keeps_bindings_insert; [done| |done].
    intros m Hm. by apply Hsame. }
  intros b k m. unfold loaded_at. rewrite Hst', lookup_insert.
  destruct (decide (base = b)) as [<-|Hb]; [|by exists m].
  rewrite Htb, lookup_insert.
  destruct (decide (key = k)) as [<-|Hk]; [|by exists m].
  intros Hm. destruct (Hsame m Hm) as [Hid Hc]. by exists m'.
Qed.

Lemma configureModule_instances_kept moduleObject baseName className
    instanceName configuration st r st' :
  configureModule moduleObject baseName className instanceName configuration st
    = (r, st') →
  instances_kept st st'.
Proof.
  unfold configureModule, table_mem. run. intros H. exec H;
    try (simplify_eq; by apply instances_kept_same_loaded).
  all: simplify_eq; eapply instances_kept_insert; [eassumption| |reflexivity].
  all: intros m' Hm'; congruence.
Qed.

Lemma activateModule_instances_kept base key st r st' :
  activateModule base key st = (r, st') → instances_kept st st'.
Proof.
  unfold activateModule, activate, table_mem. run. intros H. exec H;
    try (simplify_eq; by apply instances_kept_same_loaded).
  all: simplify_eq; eapply instances_kept_insert; [eassumption| |reflexivity].
  all: intros m' Hm'; by simplify_eq.
Qed.

Lemma connectModule_instances_kept base mkey st r st' :
  base ≠ "hardware" →
  connectModule base mkey st = (r, st') → instances_kept st st'.
Proof.
  intros Hbase Hrun. split; [by eapply connectModule_keeps|].
  apply connectModule_wired in Hrun
    as (_ & _ & _ & _ & _ & _ & _ & Hloaded).
  intros b k m Hm. specialize (Hloaded b k). rewrite Hm in Hloaded.
  destruct (loaded_at st' b k) as [m'|]; [|done].
  destruct Hloaded as [(Hid & _) Hframe].
  exists m'. split_and!; [done..|].
  intros ->. rewrite Hframe; [done|]. congruence.
Qed.

Lemma preserves_run {A} (R : manager → manager → Prop) (m : M A) :
  (∀ st r st', m st = (r, st') → R st st') → preserves R m.
Proof. intros H st. destruct (m st) as [r st'] eqn:Hm. by eapply H. Qed.

Lemma preserves_log (R : manager → manager → Prop) e :
  (∀ st, R st (add_log e st)) → preserves R (modify (add_log e)).
Proof. intros H st. apply H. Qed.

Lemma instances_kept_log e st : instances_kept st (add_log e st).
Proof. by apply instances_kept_same_loaded. Qed.

Lemma loadConfigureModule_instances_kept env base key :
  preserves instances_kept (loadConfigureModule env base key).
Proof.
  pose proof instances_kept_refl as Hr.
  pose proof instances_kept_trans as Ht.
  unfold loadConfigureModule, defined_entry, loadModule, re_escape_package,
    loaded_module, tree_get, table_get, logMsg, logExc, print_logMsg.
  repeat first
    [ apply preserves_log; intros ?; apply instances_kept_log
    | apply preserves_run; intros ???; apply configureModule_instances_kept
    | apply (preserves_bind _ Ht); [|intros ?]
    | apply (preserves_try_except _ Ht); [|intros ?]
    | apply (preserves_ret _ Hr)
    | apply (preserves_raise _ Hr)
    | apply (preserves_lift _ Hr)
    | apply (preserves_gets _ Hr)
    | match goal with
      | |- preserves _ (if ?b then _ else _) => destruct b
      | |- preserves _ (match ?x with _ => _ end) => destruct x
      end ].
Qed.

End loading_facts.

Section loading_properties.

Implicit Types (st : manager) (m : module_inst) (env : environment).

Local Ltac by_compute := refine (bool_decide_unpack _ _); vm_compute; exact I.

(** X20. For a module that is defined by a mapping, [loadConfigureModule]
    always returns normally: whatever goes wrong while loading (the import
    fails, the class is missing, the name is taken, the thread cannot be
    started) is trapped and logged. The call never removes or replaces an
    instance that is loaded, and loses no binding. *)
Theorem loadConfigureModule_total env base key st dtb o items :
  tree_defined st !! base = Some dtb → dtb !! key = Some (PyDict o items) →
  ∃ st', loadConfigureModule env base key st = (Ok tt, st') ∧
         instances_kept st st'.
Proof.
  intros Hdtb Hkey.
  pose proof (loadConfigureModule_instances_kept env base key st) as Hkept.
  destruct (loadConfigureModule env base key st) as [r st'] eqn:Hrun.
  exists st'. split; [|done]. revert Hrun.
  unfold loadConfigureModule, defined_entry. run. rewrite Hdtb, Hkey. cbn.
  case_bool_decide; cbn.
  - unfold try_except.
    match goal with
    | |- context [match ?body with (_, _) => _ end] =>
        destruct body as [[[]|e] st1]
    end; by intros [= <- <-].
  - by intros [= <- <-].
Qed.

Lemma loadConfigureModule_total_witness :
  ∃ st', loadConfigureModule no_imports "logic" "ctl" plain_manager
           = (Ok tt, st') ∧
         instances_kept plain_manager st'.
Proof.
  refine (loadConfigureModule_total no_imports "logic" "ctl" plain_manager
            {[ "ctl" := PyDict true [("module", PyStr "plain")] ]}
            true [("module", PyStr "plain")] _ _);
    vm_compute; reflexivity.
Defined.

(** X21. [loadConfigureModule] loads a module: when the definition names a
    Python module that can be imported, the module has a class named like
    the module itself (its [__name__] without the package prefix), the
    class derives from [Base], its constructor returns, and the name is not
    loaded yet, the new instance is stored under the name of the
    definition and sigModulesChanged is sent; the instance is made from
    the definition as its configuration. *)
Theorem loadConfigureModule_loads env base key st dtb o items module modObj
    pkg cls made ltb :
  base ∈ categories →
  tree_defined st !! base = Some dtb → dtb !! key = Some (PyDict o items) →
  od_get "module" items = Some module →
  import_module env base module = Ok modObj →
  py_package modObj = Some pkg →
  py_getattr modObj (re_sub_package pkg (py_name modObj)) = Some (AClass cls) →
  inherits_Base cls = true →
  construct cls key (PyDict o items) = Ok made →
  tree_loaded st !! base = Some ltb → ltb !! key = None →
  ∃ st', loadConfigureModule env base key st = (Ok tt, st') ∧
    loaded_at st' base key = Some (with_id made (next_id st)) ∧
    emitted st' = emitted st ++ [sigModulesChanged].
Proof.
  intros Hcat Hdtb Hkey Hmod Himp Hpkg Hcls Hbase Hmade Hltb Hnew.
  unfold loadConfigureModule, defined_entry, loadModule, re_escape_package,
    configureModule, table_mem, try_except.
  run. rewrite Hdtb, Hkey. cbn. rewrite Hmod.
  rewrite bool_decide_eq_true_2 by eauto. cbn.
  rewrite Hdtb, Hkey. cbn. rewrite Hmod. cbn.
  rewrite !bool_decide_eq_true_2 by done. rewrite Himp. cbn.
  rewrite Hpkg. cbn. rewrite Hdtb, Hkey. cbn.
  rewrite Hltb, Hnew. rewrite bool_decide_eq_false_2 by (by intros [??]).
  rewrite Hcls, Hbase. cbn. rewrite Hmade. cbn. rewrite Hltb. cbn.
  destruct (decide (base = "logic")) as [->|Hlogic]; cbn.
  - destruct (new_thread env _) as [[]|e1]; cbn.
    + rewrite lookup_insert_eq. cbn. rewrite lookup_insert_eq. cbn.
      destruct (move_to_thread env _ _) as [[]|e2]; cbn;
        eexists; (split_and!; [done| |done]);
        cbn; by rewrite !lookup_insert_eq.
    + eexists. split_and!; [done| |done]. cbn. by rewrite !lookup_insert_eq.
  - eexists. split_and!; [done| |done]. cbn. by rewrite !lookup_insert_eq.
Qed.

Lemma loadConfigureModule_loads_witness :
  ∃ st', loadConfigureModule plain_env "logic" "ctl" plain_manager
           = (Ok tt, st') ∧
    loaded_at st' "logic" "ctl"
      = Some (MkModule 0 "deactivated" (PyDict true []) (Ok "idle")) ∧
    emitted st' = [sigModulesChanged].
Proof.
  refine (loadConfigureModule_loads plain_env "logic" "ctl" plain_manager
            {[ "ctl" := PyDict true [("module", PyStr "plain")] ]}
            true [("module", PyStr "plain")] (PyStr "plain")
            (MkPyModule (Some "logic") "logic.plain"
               (λ cls, if decide (cls = "plain")
                       then Some (AClass plain_class) else None))
            "logic" plain_class
            (MkModule 0 "deactivated" (PyDict true []) (Ok "idle")) ∅
            _ _ _ _ _ _ _ _ _ _ _);
    try (vm_compute; reflexivity).
  by_compute.
Defined.

(** X22. [startAllConfiguredModules] never removes or replaces an instance
    that is loaded and never loses a binding, in whatever order it visits
    the tables and however it ends; and it never binds a connector of a
    hardware module: a hardware instance has the same connector table
    afterwards. *)
Theorem startAllConfiguredModules_keeps env st :
  instances_kept st (startAllConfiguredModules env st).2.
Proof.
  revert st.
  pose proof instances_kept_refl as Hr.
  pose proof instances_kept_trans as Ht.
  change (preserves instances_kept (startAllConfiguredModules env)).
  unfold startAllConfiguredModules, tree_get, print_logMsg.
  repeat first
    [ apply preserves_log; intros ?; apply instances_kept_log
    | apply loadConfigureModule_instances_kept
    | apply preserves_run; intros ???; apply activateModule_instances_kept
    | apply preserves_run; intros ???;
      apply connectModule_instances_kept; done
    | apply (preserves_bind _ Ht); [|intros ?]
    | apply (preserves_for_all _ Hr Ht); intros ?
    | apply (preserves_ret _ Hr)
    | apply (preserves_raise _ Hr)
    | apply (preserves_gets _ Hr)
    | match goal with
      | |- preserves _ (match ?x with _ => _ end) => destruct x
      end ].
Qed.

End loading_properties.

Section start_all_facts.

Implicit Types (st : manager) (m : module_inst) (env : environment).

Lemma module_untouched_refl b k st : module_untouched b k st st.
Proof. by split. Qed.

Lemma module_untouched_trans b k st1 st2 st3 :
  module_untouched b k st1 st2 → module_untouched b k st2 st3 →
  module_untouched b k st1 st3.
Proof.
  intros [H1 H2] [G1 G2]. split; [congruence|].
  intros m Hm. by apply G2, H2.
Qed.

Lemma module_untouched_same b k st st' :
  tree_start st' = tree_start st → tree_loaded st' = tree_loaded st →
  module_untouched b k st st'.
Proof.
  intros Hs Hl. split; [done|]. intros m. unfold loaded_at. by rewrite Hl.
Qed.

Lemma module_untouched_insert b k st st' base key tb m' :
  tree_start st' = tree_start st →
  tree_loaded st !! base = Some tb →
  (base, key) ≠ (b, k) ∨ tb !! key = None →
  tree_loaded st' = <[base := <[key := m']> tb]> (tree_loaded st) →
  module_untouched b k st st'.
Proof.
  intros Hs Htb Hne Hst'. split; [done|].
  intros m. unfold loaded_at. rewrite Hst', lookup_insert.
  destruct (decide (base = b)) as [<-|Hb]; [|done].
  rewrite Htb, lookup_insert.
  destruct (decide (key = k)) as [<-|Hk]; [|done].
  destruct Hne as [Hne|Hnone]; [done|]. by rewrite Hnone.
Qed.

Lemma configureModule_untouched b k moduleObject baseName className
    instanceName configuration st r st' :
  configureModule moduleObject baseName className instanceName configuration st
    = (r, st') →
  module_untouched b k st st'.
Proof.
  unfold configureModule, table_mem. run. intros H. exec H;
    try (simplify_eq; by apply module_untouched_same).
  all: simplify_eq;
    eapply module_untouched_insert; [reflexivity|eassumption| |reflexivity].
  all: by right.
Qed.

Lemma activateModule_untouched b k base key st r st' :
  (base, key) ≠ (b, k) →
  activateModule base key st = (r, st') → module_untouched b k st st'.
Proof.
  intros Hne.
  unfold activateModule, activate, table_mem. run. intros H. exec H;
    try (simplify_eq; by apply module_untouched_same).
  all: simplify_eq;
    eapply module_untouched_insert; [reflexivity|eassumption| |reflexivity].
  all: by left.
Qed.

Lemma connectModule_untouched b k base mkey st r st' :
  (base, mkey) ≠ (b, k) →
  connectModule base mkey st = (r, st') → module_untouched b k st st'.
Proof.
  intros Hne Hrun.
  apply connectModule_wired in Hrun
    as (_ & Hs & _ & _ & _ & _ & _ & Hloaded).
  split; [done|]. intros m Hm. specialize (Hloaded b k).
  rewrite Hm in Hloaded.
  destruct (loaded_at st' b k) as [m'|]; [|done].
  destruct Hloaded as [_ Hframe]. rewrite Hframe; [done|]. congruence.
Qed.

Lemma loadConfigureModule_untouched b k env base key :
  preserves (module_untouched b k) (loadConfigureModule env base key).
Proof.
  pose proof (module_untouched_refl b k) as Hr.
  pose proof (module_untouched_trans b k) as Ht.
  unfold loadConfigureModule, defined_entry, loadModule, re_escape_package,
    loaded_module, tree_get, table_get, logMsg, logExc, print_logMsg.
  repeat first
    [ apply preserves_log; intros ?; by apply module_untouched_same
    | apply preserves_run; intros ???; apply configureModule_untouched
    | apply (preserves_bind _ Ht); [|intros ?]
    | apply (preserves_try_except _ Ht); [|intros ?]
    | apply (preserves_ret _ Hr)
    | apply (preserves_raise _ Hr)
    | apply (preserves_lift _ Hr)
    | apply (preserves_gets _ Hr)
    | match goal with
      | |- preserves _ (if ?b then _ else _) => destruct b
      | |- preserves _ (match ?x with _ => _ end) => destruct x
      end ].
Qed.

(** A step that may raise, followed by steps that raise. *)
Lemma bind_raises {A B} (m : M A) (k : A → M B) st :
  (∀ a st1, m st = (Ok a, st1) → ∃ e st', k a st1 = (Raise e, st')) →
  ∃ e st', bind m k st = (Raise e, st').
Proof.
  intros Hk. unfold bind. destruct (m st) as [[a|e] st1] eqn:Hm; [|eauto].
  by apply Hk.
Qed.

Lemma bind_raise_run {A B} (m : M A) (k : A → M B) st e st' :
  m st = (Raise e, st') → bind m k st = (Raise e, st').
Proof. unfold bind. by intros ->. Qed.

Lemma tree_get_run {V B} (table : manager → gmap string (gmap string V))
    base tb (k : gmap string V → M B) st :
  table st !! base = Some tb → bind (tree_get table base) k st = k tb st.
Proof. intros Htb. unfold tree_get. run. by rewrite Htb. Qed.

(** Without a startup table for hardware, a hardware module that has left
    the state 'deactivated' cannot be looked at by [activateModule]. *)
Lemma activateModule_active_hardware st k m :
  tree_start st !! "hardware" = None →
  loaded_at st "hardware" k = Some m → mod_state m ≠ "deactivated" →
  activateModule "hardware" k st = (Raise (KeyError "hardware"), st).
Proof.
  intros Hstart (tb & Htb & Hm)%loaded_at_Some Hstate.
  unfold activateModule. run. rewrite Htb, Hm.
  rewrite bool_decide_eq_true_2 by done. by rewrite Hstart.
Qed.

Lemma activate_loop_raises l k st m :
  tree_start st !! "hardware" = None →
  loaded_at st "hardware" k = Some m → mod_state m ≠ "deactivated" →
  k ∈ l →
  ∃ e st', for_all l (λ key, activateModule "hardware" key) st
             = (Raise e, st').
Proof.
  intros Hstart Hm Hstate. revert st Hstart Hm.
  induction l as [|x l IH]; intros st Hstart Hm Hin;
    [by apply elem_of_nil in Hin|].
  rewrite for_all_cons_run.
  destruct (decide (x = k)) as [->|Hxk].
  { rewrite (activateModule_active_hardware st k m) by done. eauto. }
  apply elem_of_cons in Hin as [?|Hin]; [done|].
  destruct (activateModule "hardware" x st) as [[[]|e] st1] eqn:Hrun; [|eauto].
  apply (activateModule_untouched "hardware" k) in Hrun as [Hs Hl];
    [|congruence].
  apply IH; [by rewrite Hs|by apply Hl|done].
Qed.

End start_all_facts.

Section start_all_properties.

Implicit Types (st : manager) (m : module_inst) (env : environment).

Local Ltac by_compute := refine (bool_decide_unpack _ _); vm_compute; exact I.

(** X23. Once a hardware module has left the state 'deactivated',
    [startAllConfiguredModules] cannot complete: the tree has no startup
    table for hardware, so the activation loop raises when it reaches the
    module, unless the call has raised before. *)
Theorem startAllConfiguredModules_active_hardware env st k m :
  tree_start st !! "hardware" = None →
  loaded_at st "hardware" k = Some m → mod_state m ≠ "deactivated" →
  (∀ keys, k ∈ keys → k ∈ key_order env "loaded" "hardware" keys) →
  ∃ e st', startAllConfiguredModules env st = (Raise e, st').
Proof.
  intros Hstart Hm Hstate Horder.
  pose proof (module_untouched_refl "hardware" k) as Hr.
  pose proof (module_untouched_trans "hardware" k) as Ht.
  assert (∀ {A} (step : M A) st0,
    preserves (module_untouched "hardware" k) step →
    tree_start st0 !! "hardware" = None →
    loaded_at st0 "hardware" k = Some m →
    tree_start (step st0).2 !! "hardware" = None ∧
    loaded_at (step st0).2 "hardware" k = Some m) as Hkeep.
  { intros A step st0 Hp Hs0 Hm0. destruct (Hp st0) as [Hs Hl].
    split; [by rewrite Hs|by apply Hl]. }
  assert (∀ {A B} (step : M A) (rest : A → M B) st0,
    preserves (module_untouched "hardware" k) step →
    (∀ a st1, tree_start st1 !! "hardware" = None →
              loaded_at st1 "hardware" k = Some m →
              ∃ e st', rest a st1 = (Raise e, st')) →
    tree_start st0 !! "hardware" = None →
    loaded_at st0 "hardware" k = Some m →
    ∃ e st', bind step rest st0 = (Raise e, st')) as Hseq.
  { intros A B step rest st0 Hp Hrest Hs0 Hm0. apply bind_raises.
    intros a st1 Hrun. destruct (Hkeep _ step st0 Hp Hs0 Hm0) as [Hs1 Hm1].
    rewrite Hrun in Hs1, Hm1. by apply Hrest. }
  assert (∀ msg, preserves (module_untouched "hardware" k) (print_logMsg msg))
    as Hlog.
  { intros msg st0. by apply module_untouched_same. }
  assert (∀ base, base ≠ "hardware" →
    preserves (module_untouched "hardware" k)
      (let! defined := tree_get tree_defined base in
       for_all (table_keys env "defined" base defined)
         (λ mkey, connectModule base mkey))) as Hconnect.
  { intros base Hbase. unfold tree_get.
    repeat first
      [ apply preserves_run; intros ???; apply connectModule_untouched;
        congruence
      | apply (preserves_bind _ Ht); [|intros ?]
      | apply (preserves_for_all _ Hr Ht); intros ?
      | apply (preserves_ret _ Hr)
      | apply (preserves_raise _ Hr)
      | apply (preserves_gets _ Hr)
      | match goal with
        | |- preserves _ (match ?x with _ => _ end) => destruct x
        end ]. }
  unfold startAllConfiguredModules.
  apply Hseq; [|clear st Hstart Hm; intros _ st Hstart Hm|done..].
  { unfold tree_get.
    repeat first
      [ apply loadConfigureModule_untouched
      | apply (preserves_bind _ Ht); [|intros ?]
      | apply (preserves_for_all _ Hr Ht); intros ?
      | apply (preserves_ret _ Hr)
      | apply (preserves_raise _ Hr)
      | apply (preserves_gets _ Hr)
      | match goal with
        | |- preserves _ (match ?x with _ => _ end) => destruct x
        end ]. }
  apply Hseq; [apply Hlog|clear st Hstart Hm; intros _ st Hstart Hm|done..].
  apply Hseq; [by apply Hconnect|clear st Hstart Hm; intros _ st Hstart Hm
              |done..].
  apply Hseq; [by apply Hconnect|clear st Hstart Hm; intros _ st Hstart Hm
              |done..].
  apply Hseq; [apply Hlog|clear st Hstart Hm; intros _ st Hstart Hm|done..].
  destruct (loaded_at_Some _ _ _ _ Hm) as (tb & Htb & Hk).
  destruct (activate_loop_raises (table_keys env "loaded" "hardware" tb) k st m)
    as (e & st' & Hloop); [done..| |].
  { apply Horder. apply list_elem_of_fmap. exists (k, m). split; [done|].
    by apply elem_of_map_to_list. }
  exists e, st'. apply bind_raise_run.
  unfold categories. rewrite for_all_cons_run.
  by rewrite (tree_get_run tree_loaded "hardware" tb), Hloop.
Qed.

Lemma startAllConfiguredModules_active_hardware_witness :
  ∃ e st', startAllConfiguredModules no_imports pump_manager = (Raise e, st').
Proof.
  refine (startAllConfiguredModules_active_hardware no_imports pump_manager
            "pump" idle_pump _ _ _ _).
  - vm_compute. reflexivity.
  - vm_compute. reflexivity.
  - simpl. discriminate.
  - intros keys Hk. exact Hk.
Defined.

End start_all_properties.
